(** * FormPilot: resilience and orchestration layer

    A shallow embedding of [automation_agent.py] (class
    [WebFormAutomationAgent]) and [orchestrator.py] (classes [_CacheStore]
    and [FormAutomationOrchestrator]), with the properties of the
    specification stated over it.

    Conventions of the embedding.
    - A Python [str] is a Rocq [string]; one [ascii] is one character, so
      the text covered is ASCII text.  The two literals of the source that
      lie outside ASCII (the em dash and the one-character ellipsis) cannot
      occur in such text, and the replacements and the regular-expression
      alternative that mention them are the identity on it.
    - A Python [float] (delays, timestamps, jitter) is an exact rational
      [Q]; [time.time()] and [random.random()] are inputs of the functions
      that read them.
    - External collaborators (the executor [agent.arun], the text
      generator [_desc_agent.arun]) are scripted: their answers are inputs.
    - [print] and [input] are left out; what the retry loops do to the
      outside world (executor invocations, sleeps, snapshots) is recorded
      in an event trace. *)

From Stdlib Require Import ZArith QArith Qminmax Lia Lqa List String Ascii Bool Sorted.
From Stdlib Require OrderedTypeEx.
From stdpp Require Import base gmap strings list.

Local Open Scope string_scope.
Local Open Scope Z_scope.

(** ** The agent object *)

(** [{'primary': [...], 'additional': [...]}] *)
Record tech_options_t := {
  primary : list string;
  additional : list string
}.

(** The attributes of [WebFormAutomationAgent] that the modelled methods
    read or write. *)
Record agent := {
  fast_mode : bool;
  _recent_429 : Z;
  _first_429_ts : option Q;
  _circuit_open : bool;
  _rate_backoff_base : Q;
  _tech_options : option tech_options_t;
  _target_audience_options : option (list string)
}.

(** [WebFormAutomationAgent.__init__] *)
Definition agent_init (fast : bool) : agent :=
  {| fast_mode := fast;
     _recent_429 := 0;
     _first_429_ts := None;
     _circuit_open := false;
     _rate_backoff_base := if fast then 0.25%Q else 0.5%Q;
     _tech_options := None;
     _target_audience_options := None |}.

Definition set_rate_state (a : agent) (n : Z) (ts : option Q) (c : bool) : agent :=
  {| fast_mode := fast_mode a;
     _recent_429 := n;
     _first_429_ts := ts;
     _circuit_open := c;
     _rate_backoff_base := _rate_backoff_base a;
     _tech_options := _tech_options a;
     _target_audience_options := _target_audience_options a |}.

Definition set_tech_options (a : agent) (o : option tech_options_t) : agent :=
  {| fast_mode := fast_mode a;
     _recent_429 := _recent_429 a;
     _first_429_ts := _first_429_ts a;
     _circuit_open := _circuit_open a;
     _rate_backoff_base := _rate_backoff_base a;
     _tech_options := o;
     _target_audience_options := _target_audience_options a |}.

(** ** Adaptive backoff ([_compute_backoff]) *)

(** [x or 0] on an optional float. *)
Definition ts_or_zero (ts : option Q) : Q :=
  match ts with Some t => t | None => 0%Q end.

(** [self._first_429_ts is None or (now - (self._first_429_ts or 0)) > 60] *)
Definition window_expired (a : agent) (now : Q) : bool :=
  match _first_429_ts a with
  | None => true
  | Some _ => negb (Qle_bool (now - ts_or_zero (_first_429_ts a)) 60)
  end.

(** [random.uniform(lo, hi)] is [lo + (hi - lo) * random()]; [u] is the
    value drawn by [random()]. *)
Definition uniform (lo hi u : Q) : Q := (lo + (hi - lo) * u)%Q.

(** The body of [_compute_backoff] up to the line that draws the jitter:
    the updated agent and the value of [backoff] at that line. *)
Definition backoff_before_jitter (a : agent) (now : Q) : agent * Q :=
  let a1 := if window_expired a now
            then set_rate_state a 0 (Some now) false
            else a in
  let a2 := set_rate_state a1 (_recent_429 a1 + 1) (_first_429_ts a1) (_circuit_open a1) in
  let exponent := Z.min (Z.max (_recent_429 a2 - 1) 0) 6 in
  let backoff := (_rate_backoff_base a2 * inject_Z (2 ^ exponent))%Q in
  if 5 <=? _recent_429 a2
  then (set_rate_state a2 (_recent_429 a2) (_first_429_ts a2) true, Qmax backoff 10)
  else (a2, backoff).

(** The jitter drawn for a given [backoff]. *)
Definition jitter_of (backoff u : Q) : Q :=
  uniform 0 (Qmin 1 (backoff * 0.1)) u.

Definition _compute_backoff (a : agent) (now u : Q) : agent * Q :=
  let '(a', backoff) := backoff_before_jitter a now in
  (a', (backoff + jitter_of backoff u)%Q).

(** Successive overload signals: each is the clock reading and the random
    draw of one call; the result lists the delays returned. *)
Fixpoint overload_signals (a : agent) (sigs : list (Q * Q)) : agent * list Q :=
  match sigs with
  | [] => (a, [])
  | (now, u) :: rest =>
      let '(a1, d) := _compute_backoff a now u in
      let '(a2, ds) := overload_signals a1 rest in
      (a2, d :: ds)
  end.

(** The pre-jitter delays of the same calls. *)
Fixpoint overload_backoffs (a : agent) (sigs : list (Q * Q)) : list Q :=
  match sigs with
  | [] => []
  | (now, u) :: rest =>
      let '(a1, b) := backoff_before_jitter a now in
      b :: overload_backoffs a1 rest
  end.

(** ** Python string operations *)

Definition chars (s : string) : list ascii := list_ascii_of_string s.
Definition text_of (l : list ascii) : string := string_of_list_ascii l.

(** [len(s)] *)
Definition len (s : string) : Z := Z.of_nat (String.length s).

Definition code (c : ascii) : Z := Z.of_N (N_of_ascii c).

(** [c.isspace()]: tab to carriage return, the four separators 28..31,
    and the blank. *)
Definition is_space (c : ascii) : bool :=
  ((9 <=? code c) && (code c <=? 13)) || ((28 <=? code c) && (code c <=? 32)).

Definition is_upper (c : ascii) : bool := (65 <=? code c) && (code c <=? 90).

(** A character matched by [\w]: a letter, a digit or the underscore. *)
Definition is_word (c : ascii) : bool :=
  is_upper c
  || ((97 <=? code c) && (code c <=? 122))
  || ((48 <=? code c) && (code c <=? 57))
  || (code c =? 95).

Definition lower_char (c : ascii) : ascii :=
  if is_upper c then ascii_of_N (N_of_ascii c + 32) else c.

(** [s.lower()] *)
Definition lower (s : string) : string := text_of (map lower_char (chars s)).

Fixpoint drop_while (p : ascii -> bool) (l : list ascii) : list ascii :=
  match l with
  | [] => []
  | c :: r => if p c then drop_while p r else l
  end.

(** Removal of the trailing characters that satisfy [p]. *)
Definition drop_while_end (p : ascii -> bool) (l : list ascii) : list ascii :=
  rev (drop_while p (rev l)).

(** [s.strip()] *)
Definition strip (s : string) : string :=
  text_of (drop_while_end is_space (drop_while is_space (chars s))).

(** [s.rstrip('. ')] *)
Definition rstrip_dot_space (s : string) : string :=
  text_of (drop_while_end (fun c => Ascii.eqb c "." || Ascii.eqb c " ") (chars s)).

(** [s.endswith(('.', '!', '?'))] *)
Definition ends_with_punct (s : string) : bool :=
  match rev (chars s) with
  | c :: _ => Ascii.eqb c "." || Ascii.eqb c "!" || Ascii.eqb c "?"
  | [] => false
  end.

(** [s[:n]] for [0 <= n]. *)
Definition slice_to (n : Z) (s : string) : string :=
  text_of (take (Z.to_nat n) (chars s)).

(** Highest index of [c] in [l], the first element having index [i];
    [acc] when there is none. *)
Fixpoint rfind_from (c : ascii) (l : list ascii) (i acc : Z) : Z :=
  match l with
  | [] => acc
  | x :: r => rfind_from c r (i + 1) (if Ascii.eqb x c then i else acc)
  end.

(** [s.rfind(c)] for a one-character [c]. *)
Definition rfind (c : ascii) (s : string) : Z := rfind_from c (chars s) 0 (-1).

(** [s.rfind(c, 0, e)] for [0 <= e]. *)
Definition rfind_upto (c : ascii) (e : Z) (s : string) : Z := rfind c (slice_to e s).

Fixpoint is_prefix (p l : list ascii) : bool :=
  match p, l with
  | [], _ => true
  | _ :: _, [] => false
  | a :: p', b :: l' => Ascii.eqb a b && is_prefix p' l'
  end.

Fixpoint is_infix (p l : list ascii) : bool :=
  is_prefix p l ||
  match l with
  | [] => false
  | _ :: r => is_infix p r
  end.

(** [sub in s] *)
Definition contains (sub s : string) : bool := is_infix (chars sub) (chars s).

(** [re.findall(r"\w+", s)]: the maximal runs of word characters, in
    order; [cur] is the run being read, most recent character first. *)
Fixpoint findall_words (l cur : list ascii) : list string :=
  match l with
  | [] => match cur with [] => [] | _ => [text_of (rev cur)] end
  | c :: r =>
      if is_word c then findall_words r (c :: cur)
      else match cur with
           | [] => findall_words r []
           | _ => text_of (rev cur) :: findall_words r []
           end
  end.

(** [set(re.findall(r"\w+", s))] *)
Definition word_set (s : string) : gset string :=
  list_to_set (findall_words (chars s) []).

(** [re.sub(r"https?://\S+", "", s)]: at the leftmost position where the
    scheme is followed by at least one non-blank character, that scheme
    and the whole run of non-blank characters after it are removed; the
    scan resumes after the run. *)
Definition url_scheme_len (l : list ascii) : option nat :=
  if is_prefix (chars "http://") l then Some 7%nat
  else if is_prefix (chars "https://") l then Some 8%nat
  else None.

Fixpoint remove_urls_aux (fuel : nat) (l : list ascii) : list ascii :=
  match fuel with
  | O => l
  | S fuel' =>
      match l with
      | [] => []
      | c :: r =>
          match url_scheme_len l with
          | Some n =>
              match drop n l with
              | x :: _ =>
                  if is_space x then c :: remove_urls_aux fuel' r
                  else remove_urls_aux fuel' (drop_while (fun y => negb (is_space y)) (drop n l))
              | [] => c :: remove_urls_aux fuel' r
              end
          | None => c :: remove_urls_aux fuel' r
          end
      end
  end.

Definition remove_urls (s : string) : string :=
  text_of (remove_urls_aux (S (String.length s)) (chars s)).

(** [re.sub(r"(\.{3,}|...)$", "", s)] on text that does not end in a line
    break: a final run of three or more full stops is removed. *)
Definition remove_trailing_ellipsis (s : string) : string :=
  let l := chars s in
  let kept := drop_while_end (fun c => Ascii.eqb c ".") l in
  if (3 <=? Z.of_nat (length l) - Z.of_nat (length kept)) then text_of kept else s.

(** The [repr] of a list of strings that hold no quote or backslash. *)
Definition list_repr (l : list string) : string :=
  "[" ++ String.concat ", " (map (fun s => "'" ++ s ++ "'") l) ++ "]".

(** ** Technology chooser ([_choose_tech_areas]) *)

(** The inner function [score]; [tokens] is the token set of the title
    and description. *)
Definition score (tokens : gset string) (opt : string) : Z :=
  let otoks := word_set (lower opt) in
  let overlap := Z.of_nat (size (tokens ∩ otoks)) in
  overlap + Z.of_nat (length (filter (fun t => t ∈ tokens) (elements otoks))).

(** Python's order on [(int, str)] tuples: first component, then the
    strings character by character. *)
Definition tuple_ltb (x y : Z * string) : bool :=
  (fst x <? fst y) || ((fst x =? fst y) && String.ltb (snd x) (snd y)).

(** [list.sort(reverse=True)]: descending, equal elements kept in their
    original order. *)
Fixpoint insert_desc (x : Z * string) (l : list (Z * string)) : list (Z * string) :=
  match l with
  | [] => [x]
  | y :: r => if tuple_ltb x y then y :: insert_desc x r else x :: l
  end.

Definition sort_desc (l : list (Z * string)) : list (Z * string) :=
  foldr insert_desc [] l.

(** [for opt in cands: if opt not in acc: acc.append(opt);
    if len(acc) >= 2: break] *)
Fixpoint take_distinct (cands acc : list string) : list string :=
  match cands with
  | [] => acc
  | opt :: rest =>
      let acc' := if decide (opt ∈ acc) then acc else (acc ++ [opt])%list in
      if 2 <=? Z.of_nat (length acc') then acc' else take_distinct rest acc'
  end.

(** The same loop with [if not a: continue] in front. *)
Fixpoint clean_distinct (cands acc : list string) : list string :=
  match cands with
  | [] => acc
  | a :: rest =>
      if String.eqb a "" then clean_distinct rest acc
      else
        let acc' := if decide (a ∈ acc) then acc else (acc ++ [a])%list in
        if 2 <=? Z.of_nat (length acc') then acc' else clean_distinct rest acc'
  end.

(** [while len(l) < 2: l.append("")] *)
Definition pad_two (l : list string) : list string :=
  (l ++ repeat "" (2 - length l)%nat)%list.

(** [primary_opts[0]] when there is one, else [additional_opts[0]], else
    [None]. *)
Definition first_available (primary_opts additional_opts : list string) : option string :=
  match primary_opts with
  | p :: _ => Some p
  | [] => head additional_opts
  end.

(** The choice of the main technology: the value of [primary_choice]
    before [None] is turned into the empty string. *)
Definition choose_primary (tokens : gset string) (primary_opts additional_opts : list string)
  : option string :=
  let scored_primary := sort_desc (map (fun opt => (score tokens opt, opt)) primary_opts) in
  match scored_primary with
  | (s, o) :: _ => if 0 <? s then Some o else first_available primary_opts additional_opts
  | [] => first_available primary_opts additional_opts
  end.

(** [scored_add] after its sort. *)
Definition scored_additional (tokens : gset string) (primary_opts additional_opts : list string)
    (primary_choice : option string) : list (Z * string) :=
  let candidates_for_add :=
    (additional_opts ++ filter (fun o => o ∉ additional_opts) primary_opts)%list in
  sort_desc (map (fun opt => (score tokens opt, opt))
                 (filter (fun opt => Some opt ≠ primary_choice) candidates_for_add)).

Definition title_tokens (title description : string) : gset string :=
  word_set (lower (strip title ++ " " ++ strip description)).

(** The source list of the main choice: [primary], or [additional] when
    [primary] is empty. *)
Definition source_list (tech_options : tech_options_t) : list string :=
  match primary tech_options, additional tech_options with
  | [], _ :: _ => additional tech_options
  | _, _ => primary tech_options
  end.

Definition _choose_tech_areas (title description : string) (tech_options : tech_options_t)
  : string * list string :=
  let tokens := title_tokens title description in
  let additional_opts := additional tech_options in
  let primary_opts := source_list tech_options in
  let primary_choice := choose_primary tokens primary_opts additional_opts in
  let scored_add := scored_additional tokens primary_opts additional_opts primary_choice in
  let additional_choices := take_distinct (map snd scored_add) [] in
  let additional_choices :=
    if Z.of_nat (length additional_choices) <? 2
    then take_distinct
           (filter (fun o => Some o ≠ primary_choice) (additional_opts ++ primary_opts)%list)
           additional_choices
    else additional_choices in
  let additional_choices := pad_two additional_choices in
  let primary_choice := match primary_choice with Some p => p | None => "" end in
  let cleaned_additional := pad_two (clean_distinct additional_choices []) in
  (primary_choice, cleaned_additional).

(** [_get_fallback_tech_options] *)
Definition _get_fallback_tech_options : tech_options_t :=
  {| primary :=
       ["Artificial Intelligence"; "Cloud Computing"; "Web Development";
        "Database Technology"; "Cybersecurity"; "DevOps"; "Mobile Development";
        "Data Analytics"; "Internet of Things"; "Blockchain"; "Machine Learning";
        "Software Development"; ".NET"; "Azure"; "Microsoft 365"; "Power Platform"];
     additional :=
       ["Python"; "JavaScript"; "React"; "Node.js"; "C#"; "TypeScript";
        "Azure Functions"; "Azure App Service"; "Power Apps"; "Power BI";
        "SharePoint"; "Teams"; "Security"; "Performance Optimization"; "Analytics";
        "Machine Learning"; "Network Security"; "Compliance"; "DevOps"] |}.

(** ** Records *)

(** The values a record field holds.  The modelled code never changes a
    list in place (it only binds keys to new lists), so a list is given
    by its contents. *)
Inductive value :=
| VNone
| VStr (s : string)
| VInt (n : Z)
| VList (l : list string).

(** Truth value of a field ([not v] is its negation). *)
Definition truthy (v : value) : bool :=
  match v with
  | VNone => false
  | VStr s => negb (String.eqb s "")
  | VInt n => negb (n =? 0)
  | VList l => match l with [] => false | _ => true end
  end.

(** A [dict] with string keys: its items in insertion order. *)
Definition pydict := list (string * value).

(** [d.get(k)] *)
Fixpoint dict_get (d : pydict) (k : string) : option value :=
  match d with
  | [] => None
  | (k', v) :: r => if String.eqb k' k then Some v else dict_get r k
  end.

(** [k in d] *)
Definition dict_has (d : pydict) (k : string) : bool :=
  match dict_get d k with Some _ => true | None => false end.

(** [d[k] = v]: an existing key keeps its place, a new one goes last. *)
Fixpoint dict_set (d : pydict) (k : string) (v : value) : pydict :=
  match d with
  | [] => [(k, v)]
  | (k', v') :: r => if String.eqb k' k then (k', v) :: r else (k', v') :: dict_set r k v
  end.

(** [d.get(k, '')] *)
Definition dict_get_or_empty (d : pydict) (k : string) : value :=
  match dict_get d k with Some v => v | None => VStr "" end.

(** [d.get(k)] used as a condition. *)
Definition dict_truthy (d : pydict) (k : string) : bool :=
  match dict_get d k with Some v => truthy v | None => false end.

(** ** Key normalization ([_normalize_activity_keys]) *)

Definition mapping : list (string * string) :=
  [("Activity Type", "Category");
   ("Primary Technology Area", "Main Technology");
   ("Additional Technology Areas", "Additional Technologies");
   ("Private Description", "Internal Notes");
   ("Number of Views", "Views");
   ("Activity URL", "URL");
   ("Target Audience", "Audience");
   ("Published Date", "Date")].

(** [mapping.get(k, k)] *)
Fixpoint mapping_get (m : list (string * string)) (k : string) : string :=
  match m with
  | [] => k
  | (legacy, canonical) :: r => if String.eqb legacy k then canonical else mapping_get r k
  end.

(** [act.get('Quantity') in (None, "")] *)
Definition is_none_or_empty (v : option value) : bool :=
  match v with
  | None | Some VNone => true
  | Some (VStr s) => String.eqb s ""
  | Some _ => false
  end.

Definition _normalize_activity_keys (activity : pydict) : pydict :=
  let act := fold_left (fun act kv => dict_set act (mapping_get mapping (fst kv)) (snd kv))
                       activity [] in
  if negb (dict_has act "Quantity") || is_none_or_empty (dict_get act "Quantity")
  then dict_set act "Quantity" (VInt 1)
  else act.

(** A well-formed [dict]: no key occurs twice. *)
Definition dict_wf (d : pydict) : Prop := NoDup (map fst d).

(** ** Summaries and truncation *)

(** [t[:cutoff if cutoff != -1 else limit].strip()] where [cutoff] is the
    last full stop before [limit], else the last blank before it. *)
Definition cut_at_boundary (limit : Z) (t : string) : string :=
  let cutoff := rfind_upto "." limit t in
  let cutoff := if cutoff =? -1 then rfind_upto " " limit t else cutoff in
  strip (slice_to (if negb (cutoff =? -1) then cutoff else limit) t).

(** [if not t.endswith(('.', '!', '?')): t += '.'] *)
Definition close_sentence (t : string) : string :=
  if ends_with_punct t then t else t ++ ".".

(** [if not t.endswith(('.', '!', '?')): t = t.rstrip('. '); t += '.'] *)
Definition close_sentence_rstrip (t : string) : string :=
  if ends_with_punct t then t else rstrip_dot_space t ++ ".".

(** [WebFormAutomationAgent._generate_private_description] *)
Definition _generate_private_description (description : string) : string :=
  let text := strip description in
  let text := strip (remove_urls text) in
  if String.eqb text "" then "This is a concise internal summary for tracking this activity."
  else
    let max_len := 400 in
    let text := if max_len <? len text then cut_at_boundary max_len text else text in
    close_sentence_rstrip text.

(** [FormAutomationOrchestrator._sanitize_private_description] *)
Definition _sanitize_private_description (text : string) (max_len : Z) : string :=
  let t := strip text in
  let t := strip (remove_urls t) in
  let t := strip (remove_trailing_ellipsis t) in
  let t := if max_len <? len t then cut_at_boundary max_len t else t in
  close_sentence_rstrip t.

(** ** Artifact cache ([_CacheStore]) *)

(** [self.data]: section, then key, then cached text. *)
Definition _CacheStore_get (data : gmap string (gmap string string)) (section key : string)
  : option string :=
  match data !! section with
  | Some sec => sec !! key
  | None => None
  end.

Definition _CacheStore_set (data : gmap string (gmap string string))
    (section key value : string) : gmap string (gmap string string) :=
  match data !! section with
  | Some sec => <[section := <[key := value]> sec]> data
  | None => <[section := {[key := value]}]> data
  end.

(** ** Character limits ([enforce_char_limits]) *)

(** What one call of [_desc_agent.arun] does: it answers, with or without
    text in [content], or it raises. *)
Inductive generation :=
| Generated (content : option string)
| ProviderError.

(** [(getattr(resp, 'content', '') or '').strip()] *)
Definition response_text (content : option string) : string :=
  strip (match content with Some s => s | None => "" end).

(** The [try] block and its handler for the Description: the text that
    [new_desc] holds after them. *)
Definition rewrite_description (desc : string) (g : generation) : string :=
  match g with
  | Generated content =>
      let new_desc := response_text content in
      if 850 <? len new_desc
      then close_sentence (cut_at_boundary 850 new_desc)
      else new_desc
  | ProviderError =>
      let tmp := slice_to 850 desc in
      let cutoff := rfind "." tmp in
      let cutoff := if cutoff =? -1 then rfind " " tmp else cutoff in
      let new_desc := strip (slice_to (if negb (cutoff =? -1) then cutoff else len tmp) tmp) in
      close_sentence new_desc
  end.

(** The same for the Internal Notes. *)
Definition rewrite_notes (pdesc : string) (g : generation) : string :=
  let new_pdesc :=
    match g with
    | Generated content => response_text content
    | ProviderError => slice_to 850 pdesc
    end in
  _sanitize_private_description new_pdesc 850.

(** The state threaded through the stage: the cache, and how many calls
    the text generator has received. *)
Record enrich_state := {
  cache_data : gmap string (gmap string string);
  generations : nat
}.

Section CharLimits.

(** [hashlib.sha256(...).hexdigest()] of the bytes fed to it. *)
Variable sha256_hex : string -> string.

(** The answers of the text generator, by call number. *)
Variable generator : nat -> generation.

(** [_hash]: every part is fed to the digest, followed by a bar. *)
Definition _hash (parts : list string) : string :=
  sha256_hex (String.concat "" (map (fun p => p ++ "|") parts)).

(** The Description half of the loop body. *)
Definition enforce_description (st : enrich_state) (act : pydict) : enrich_state * pydict :=
  match dict_get act "Description" with
  | Some (VStr desc) =>
      if 1000 <? len desc then
        let key := _hash ["desc850"; desc] in
        match _CacheStore_get (cache_data st) "rewrite850" key with
        | Some cached =>
            if negb (String.eqb cached "") then (st, dict_set act "Description" (VStr cached))
            else
              let new_desc := rewrite_description desc (generator (generations st)) in
              ({| cache_data := _CacheStore_set (cache_data st) "rewrite850" key new_desc;
                  generations := S (generations st) |},
               dict_set act "Description" (VStr new_desc))
        | None =>
            let new_desc := rewrite_description desc (generator (generations st)) in
            ({| cache_data := _CacheStore_set (cache_data st) "rewrite850" key new_desc;
                generations := S (generations st) |},
             dict_set act "Description" (VStr new_desc))
        end
      else (st, act)
  | _ => (st, act)
  end.

(** [act.get('Internal Notes') or act.get('Private Description')] *)
Definition notes_or_private (act : pydict) : option value :=
  if dict_truthy act "Internal Notes" then dict_get act "Internal Notes"
  else dict_get act "Private Description".

(** The Internal Notes half of the loop body. *)
Definition enforce_notes (st : enrich_state) (act : pydict) : enrich_state * pydict :=
  match notes_or_private act with
  | Some (VStr pdesc) =>
      if 1000 <? len pdesc then
        let key := _hash ["pdesc850"; pdesc] in
        match _CacheStore_get (cache_data st) "rewrite850" key with
        | Some cached =>
            if negb (String.eqb cached "")
            then (st, dict_set act "Internal Notes"
                        (VStr (_sanitize_private_description cached 850)))
            else
              let new_pdesc := rewrite_notes pdesc (generator (generations st)) in
              ({| cache_data := _CacheStore_set (cache_data st) "rewrite850" key new_pdesc;
                  generations := S (generations st) |},
               dict_set act "Internal Notes" (VStr new_pdesc))
        | None =>
            let new_pdesc := rewrite_notes pdesc (generator (generations st)) in
            ({| cache_data := _CacheStore_set (cache_data st) "rewrite850" key new_pdesc;
                generations := S (generations st) |},
             dict_set act "Internal Notes" (VStr new_pdesc))
        end
      else (st, act)
  | _ => (st, act)
  end.

(** [enforce_char_limits]: the loop over the activities, each rewritten
    in place. *)
Fixpoint enforce_char_limits (st : enrich_state) (activities : list pydict)
  : enrich_state * list pydict :=
  match activities with
  | [] => (st, [])
  | act :: rest =>
      let '(st1, act1) := enforce_description st act in
      let '(st2, act2) := enforce_notes st1 act1 in
      let '(st3, rest') := enforce_char_limits st2 rest in
      (st3, act2 :: rest')
  end.

End CharLimits.

(** ** Submission ([submit_activity]) *)

(** How a call ends: it returns a value ([None] or the text of the
    response) or raises an exception whose [str] is [msg]. *)
Inductive outcome :=
| Returned (content : option string)
| Raised (msg : string).

(** What one call of [agent.arun] does. *)
Inductive execution :=
| Response (content : option string)
| ExecutorError (msg : string).

(** The outside world seen by the retry loops: the executor's answers by
    invocation number, and the clock reading and random draw of each call
    of [_compute_backoff] by call number. *)
Record environment := {
  executor : nat -> execution;
  clock : nat -> Q;
  random : nat -> Q
}.

Inductive event :=
| EvInvoke
| EvSleep (seconds : Q)
| EvSnapshot.

Record world := {
  invocations : nat;
  backoff_calls : nat;
  trace : list event
}.

Definition world_init : world :=
  {| invocations := 0; backoff_calls := 0; trace := [] |}.

Definition emit (w : world) (e : event) : world :=
  {| invocations := invocations w;
     backoff_calls := backoff_calls w;
     trace := (trace w ++ [e])%list |}.

(** One call of [agent.arun]. *)
Definition invoke (env : environment) (w : world) : execution * world :=
  (executor env (invocations w),
   {| invocations := S (invocations w);
      backoff_calls := backoff_calls w;
      trace := (trace w ++ [EvInvoke])%list |}).

(** One call of [_compute_backoff] from a retry loop. *)
Definition call_backoff (env : environment) (a : agent) (w : world) : agent * Q * world :=
  let '(a', d) := _compute_backoff a (clock env (backoff_calls w)) (random env (backoff_calls w)) in
  (a', d,
   {| invocations := invocations w;
      backoff_calls := S (backoff_calls w);
      trace := trace w |}).

(** ['rate' in error_msg.lower() or '429' in error_msg] *)
Definition is_rate_limit (error_msg : string) : bool :=
  contains "rate" (lower error_msg) || contains "429" error_msg.

(** ["not found in the current page snapshot" in error_msg or "Ref" in error_msg] *)
Definition is_snapshot_error (error_msg : string) : bool :=
  contains "not found in the current page snapshot" error_msg || contains "Ref" error_msg.

(** The three categories of the retry policy, in the order in which
    [submit_activity] tests them. *)
Inductive category := Overload | StaleReference | Fatal.

Definition classify (error_msg : string) : category :=
  if is_rate_limit error_msg then Overload
  else if is_snapshot_error error_msg then StaleReference
  else Fatal.

Definition max_attempts : Z := 3.

(** The loop [for attempt in range(max_attempts)]: [remaining] iterations
    are left and the next one has index [attempt].  When the iterations
    run out the function body ends, which returns [None]. *)
Fixpoint submit_attempts (env : environment) (remaining : nat) (attempt : Z)
    (a : agent) (w : world) : outcome * agent * world :=
  match remaining with
  | O => (Returned None, a, w)
  | S remaining' =>
      let '(r, w1) := invoke env w in
      match r with
      | Response content => (Returned content, a, w1)
      | ExecutorError error_msg =>
          if is_rate_limit error_msg then
            let '(a', backoff, w2) := call_backoff env a w1 in
            let w3 := emit (emit w2 (EvSleep backoff)) EvSnapshot in
            submit_attempts env remaining' (attempt + 1) a' w3
          else if is_snapshot_error error_msg then
            if attempt <? max_attempts - 1
            then submit_attempts env remaining' (attempt + 1) a (emit w1 EvSnapshot)
            else (Raised "Failed after 3 attempts due to snapshot errors", a, w1)
          else (Raised error_msg, a, w1)
      end
  end.

(** The inner function [_match_choice]. *)
Definition _match_choice (choice : string) (pool : list string) : string :=
  if String.eqb choice "" then ""
  else
    match find (fun p => negb (String.eqb p "") && String.eqb (lower p) (lower choice)) pool with
    | Some p => p
    | None =>
        match find (fun p => negb (String.eqb p "") && contains (lower choice) (lower p)) pool with
        | Some p => p
        | None => ""
        end
    end.

(** The loop that maps the additional choices to strings of the form. *)
Fixpoint clean_additional (choices pool acc : list string) : list string :=
  match choices with
  | [] => acc
  | a :: rest =>
      if String.eqb a "" then clean_additional rest pool acc
      else
        let matched := _match_choice a pool in
        if negb (String.eqb matched "") && bool_decide (matched ∉ acc)
        then clean_additional rest pool (acc ++ [matched])%list
        else if bool_decide (a ∉ acc) && bool_decide (a ∈ pool)
        then clean_additional rest pool (acc ++ [a])%list
        else clean_additional rest pool acc
  end.

(** [(v or "")] as the receiver of a string method: the text, or the
    kind of object on which the method is missing. *)
Definition text_or_empty (v : value) : string + string :=
  match v with
  | VStr s => inl s
  | VNone => inl ""
  | VInt n => if n =? 0 then inl "" else inr "int"
  | VList l => match l with [] => inl "" | _ => inr "list" end
  end.

Definition attribute_error (kind method : string) : string :=
  "'" ++ kind ++ "' object has no attribute '" ++ method ++ "'".

Definition required_fields : list string :=
  ["Category"; "Main Technology"; "Title"; "Description";
   "Internal Notes"; "URL"; "Date"; "Quantity"; "Audience"].

Definition default_audiences : list string :=
  ["Developer"; "IT Pro"; "Business Decision Maker"; "Technical Decision Maker"; "Student"].

(** [self._choose_tech_areas(...)] on the working copy and the
    validation of its result against the options of the form: the two
    fields to store, or the message of the exception raised. *)
Definition resolve_technologies (opts : tech_options_t) (activity_data : pydict)
  : string + (string * list string) :=
  match text_or_empty (dict_get_or_empty activity_data "Title") with
  | inr kind => inl (attribute_error kind "strip")
  | inl title =>
      match text_or_empty (dict_get_or_empty activity_data "Description") with
      | inr kind => inl (attribute_error kind "strip")
      | inl description =>
          let '(primary_choice, additional_choices) :=
            _choose_tech_areas title description opts in
          let portal_primary := primary opts in
          let portal_additional := additional opts in
          let validated_primary :=
            _match_choice primary_choice (portal_primary ++ portal_additional)%list in
          let validated_primary :=
            if String.eqb validated_primary ""
            then match (portal_primary ++ portal_additional)%list with
                 | p :: _ => p
                 | [] => validated_primary
                 end
            else validated_primary in
          let cleaned_additional :=
            pad_two (clean_additional additional_choices
                       (portal_additional ++ portal_primary)%list []) in
          inr (validated_primary, cleaned_additional)
      end
  end.

(** [if self._tech_options is None: self._tech_options =
    self._get_fallback_tech_options()] *)
Definition ensure_tech_options (a : agent) : agent :=
  match _tech_options a with
  | None => set_tech_options a (Some _get_fallback_tech_options)
  | Some _ => a
  end.

(** The list stored under Audience: the options of the agent when it has
    some, else the default ones. *)
Definition target_audiences_of (a : agent) : list string :=
  match _target_audience_options a with
  | Some (x :: l) => x :: l
  | _ => default_audiences
  end.

(** The writes of [submit_activity] to the working copy [activity_data]
    between the copy and the attempts, and the check of the required
    fields: the working copy as the writes left it, and the message of
    the exception raised, if any. *)
Definition prepare_fields (target_audiences : list string) (tech : option tech_options_t)
    (activity_data : pydict) : pydict * option string :=
  let activity_data := dict_set activity_data "Audience" (VList target_audiences) in
  let chosen :=
    match tech with
    | Some opts =>
        match resolve_technologies opts activity_data with
        | inl msg => inl msg
        | inr (validated_primary, cleaned_additional) =>
            inr (dict_set (dict_set activity_data "Main Technology" (VStr validated_primary))
                   "Additional Technologies" (VList cleaned_additional))
        end
    | None => inr activity_data
    end in
  match chosen with
  | inl msg => (activity_data, Some msg)
  | inr activity_data =>
      let noted :=
        if negb (dict_truthy activity_data "Internal Notes")
        then
          match text_or_empty (dict_get_or_empty activity_data "Description") with
          | inr kind => inl (attribute_error kind "replace")
          | inl description =>
              inr (dict_set activity_data "Internal Notes"
                     (VStr (_generate_private_description description)))
          end
        else inr activity_data in
      match noted with
      | inl msg => (activity_data, Some msg)
      | inr activity_data =>
          match filter (fun field => negb (dict_truthy activity_data field)) required_fields with
          | [] => (activity_data, None)
          | missing_fields =>
              (activity_data, Some ("Missing required fields: " ++ list_repr missing_fields))
          end
      end
  end.

(** The part of [submit_activity] between the copy and the attempts: the
    agent, the working copy, and the message of the exception raised, if
    any. *)
Definition prepare_activity (a : agent) (activity_data : pydict)
  : agent * pydict * option string :=
  let a' := ensure_tech_options a in
  let '(activity_data, raised) :=
    prepare_fields (target_audiences_of a) (_tech_options a') activity_data in
  (a', activity_data, raised).

(** The objects of the run: every record lives at a location, and a
    caller hands [submit_activity] the location of its record. *)
Definition fresh_loc (σ : gmap nat pydict) : nat := fresh (dom σ).

(** [submit_activity]: [activity_data = dict(activity_data)] allocates the
    working copy, every later write goes to it, and the attempts follow.
    No caller passes a location that holds no record; that case is closed
    with an exception so that the function is total. *)
Definition submit_activity (env : environment) (a : agent) (σ : gmap nat pydict)
    (record : nat) (w : world) : outcome * agent * gmap nat pydict * world :=
  match σ !! record with
  | None => (Raised "no record at this location", a, σ, w)
  | Some caller_data =>
      let copy := fresh_loc σ in
      match prepare_activity a caller_data with
      | (a1, activity_data, Some msg) => (Raised msg, a1, <[copy := activity_data]> σ, w)
      | (a1, activity_data, None) =>
          let '(r, a2, w') := submit_attempts env (Z.to_nat max_attempts) 0 a1 w in
          (r, a2, <[copy := activity_data]> σ, w')
      end
  end.

(** ** The per-record retry loop of [run_automation] *)

(** What the loop leaves for a record: processed, marked failed, or no
    verdict when the loop has no iteration to run. *)
Inductive record_status := Succeeded | MarkedFailed | Unsettled.

Definition max_activity_retries : Z := 3.

(** ["snapshot" in error_msg.lower() or "ref" in error_msg.lower()] *)
Definition mentions_snapshot (error_msg : string) : bool :=
  contains "snapshot" (lower error_msg) || contains "ref" (lower error_msg).

(** The loop [for retry in range(max_activity_retries)] around
    [submit_activity] for the record at [reviewed]; every path of its
    third iteration leaves it, so the case of no iteration left is not
    reached from [process_record]. *)
Fixpoint submit_with_retries (env : environment) (remaining : nat) (retry : Z)
    (a : agent) (σ : gmap nat pydict) (reviewed : nat) (w : world)
  : record_status * agent * gmap nat pydict * world :=
  match remaining with
  | O => (Unsettled, a, σ, w)
  | S remaining' =>
      match submit_activity env a σ reviewed w with
      | (Returned _, a1, σ1, w1) => (Succeeded, a1, σ1, w1)
      | (Raised error_msg, a1, σ1, w1) =>
          if retry <? max_activity_retries - 1 then
            if mentions_snapshot error_msg then
              let backoff := if fast_mode a1 then 0.25%Q else 0.5%Q in
              submit_with_retries env remaining' (retry + 1) a1 σ1 reviewed
                (emit w1 (EvSleep backoff))
            else if is_rate_limit error_msg then
              let '(a2, backoff, w2) := call_backoff env a1 w1 in
              submit_with_retries env remaining' (retry + 1) a2 σ1 reviewed
                (emit w2 (EvSleep backoff))
            else
              let backoff := if fast_mode a1 then 0.5%Q else 1%Q in
              submit_with_retries env remaining' (retry + 1) a1 σ1 reviewed
                (emit w1 (EvSleep backoff))
          else (MarkedFailed, a1, σ1, w1)
      end
  end.

(** The loop as [run_automation] enters it. *)
Definition process_record (env : environment) (a : agent) (σ : gmap nat pydict)
    (reviewed : nat) (w : world) : record_status * agent * gmap nat pydict * world :=
  submit_with_retries env (Z.to_nat max_activity_retries) 0 a σ reviewed w.

(** ** Sample inputs *)

(** A record as the validation stage hands it on. *)
Definition sample_record : pydict :=
  [("Category", VStr "Blog");
   ("Main Technology", VStr "Azure");
   ("Title", VStr "Talk");
   ("Description", VStr "Notes on Python for Azure.");
   ("Internal Notes", VStr "A talk about Python.");
   ("URL", VStr "https://example.org/talk");
   ("Audience", VList ["Developer"]);
   ("Date", VStr "2024-05-01");
   ("Quantity", VInt 1)].

Definition sample_store : gmap nat pydict := {[ 0%nat := sample_record ]}.

(** An executor that fails every invocation with the same message. *)
Definition failing_env (msg : string) : environment :=
  {| executor := fun _ => ExecutorError msg;
     clock := fun n => inject_Z (Z.of_nat n);
     random := fun _ => 0%Q |}.

(** A text of [n] letters without a full stop or a blank. *)
Definition unbroken_text (n : nat) : string := text_of (repeat "a"%char n).

(** A record whose Description is longer than the hard limit. *)
Definition long_record : pydict :=
  [("Title", VStr "Talk"); ("Description", VStr (unbroken_text 1200))].

(** A text of [n] words separated by blanks. *)
Definition spaced_text (n : nat) : string := String.concat " " (repeat "word" n).

Definition spaced_record : pydict :=
  [("Title", VStr "Talk"); ("Description", VStr (spaced_text 240))].

(** A stand-in for the digest in sample runs: the text itself. *)
Definition plain_digest (s : string) : string := s.

Definition empty_enrich_state : enrich_state :=
  {| cache_data := {[ "private_desc" := ∅; "rewrite850" := ∅ ]}; generations := 0 |}.

(** A full stop or a blank occurs among the first [limit] characters. *)
Definition has_boundary (limit : Z) (t : string) : Prop :=
  "."%char ∈ take (Z.to_nat limit) (chars t) \/ " "%char ∈ take (Z.to_nat limit) (chars t).

(** ** The delay schedule in the words of the specification *)

(** [base * 2^min(count-1, 6)], floored at 10 seconds once [count >= 5]. *)
Definition scheduled_backoff (base : Q) (count : Z) : Q :=
  let d := (base * inject_Z (2 ^ Z.min (count - 1) 6))%Q in
  if 5 <=? count then Qmax d 10 else d.

(** The largest jitter that can be added to a pre-jitter delay [d]. *)
Definition jitter_bound (d : Q) : Q := Qmin 1 (d * 0.1).

(** The invariant of the loop of [_normalize_activity_keys]: no key
    twice, and only keys that the table leaves alone. *)
Definition normalized_keys (d : pydict) : Prop :=
  NoDup (map fst d) /\ Forall (fun k => mapping_get mapping k = k) (map fst d).

(** ** Further definitions for the properties of the code *)

(** A sequence of [set] calls on the cache, each with its section, key
    and text. *)
Definition _CacheStore_sets (data : gmap string (gmap string string))
    (writes : list (string * string * string)) : gmap string (gmap string string) :=
  fold_left (fun m w => _CacheStore_set m (fst (fst w)) (snd (fst w)) (snd w)) writes data.

(** The text of the last write of a sequence to a section and key. *)
Fixpoint last_write (writes : list (string * string * string)) (section key : string)
  : option string :=
  match writes with
  | [] => None
  | (s, k, v) :: rest =>
      match last_write rest section key with
      | Some x => Some x
      | None => if String.eqb s section && String.eqb k key then Some v else None
      end
  end.

(** The text that [_hash] feeds to the digest: every part followed by a
    bar. *)
Definition hash_input (parts : list string) : string :=
  String.concat "" (map (fun p => p ++ "|") parts).

(** A text without the bar that [_hash] uses as delimiter. *)
Definition bar_free (p : string) : Prop := "|"%char ∉ chars p.

(** A field that is a text of more than 1000 characters. *)
Definition over_limit (v : option value) : bool :=
  match v with
  | Some (VStr s) => 1000 <? len s
  | _ => false
  end.

(** A record that [enforce_char_limits] has nothing to rewrite in. *)
Definition within_limits (act : pydict) : bool :=
  negb (over_limit (dict_get act "Description"))
  && negb (over_limit (notes_or_private act)).

(** A record whose Internal Notes are longer than the hard limit. *)
Definition long_notes_record : pydict :=
  [("Title", VStr "Talk"); ("Internal Notes", VStr (spaced_text 240))].

(** ** Validation ([validate_activity_data]) and the selection of the
    valid records in [run_automation] *)

Definition validate_activity_data (activity : pydict) : bool * list string :=
  let act := _normalize_activity_keys activity in
  let missing_fields := filter (fun field => negb (dict_truthy act field)) required_fields in
  (Nat.eqb (length missing_fields) 0, missing_fields).

(** [normalized_activities] filtered by [validate_activity_data], in
    order. *)
Definition valid_activities (activities : list pydict) : list pydict :=
  filter (fun activity => fst (validate_activity_data activity) = true)
         (map _normalize_activity_keys activities).

(** The value of the last item, in iteration order, whose key is [name]
    or a legacy synonym of it. *)
Fixpoint last_mapped (activity : pydict) (name : string) : option value :=
  match activity with
  | [] => None
  | (k, v) :: rest =>
      match last_mapped rest name with
      | Some x => Some x
      | None => if String.eqb (mapping_get mapping k) name then Some v else None
      end
  end.

(** ** The batches of [run_automation] *)

(** The values of [range(i, stop, step)] for a positive [step]. *)
Fixpoint range_from (fuel : nat) (i stop step : Z) : list Z :=
  match fuel with
  | O => []
  | S fuel' => if i <? stop then i :: range_from fuel' (i + step) stop step else []
  end.

(** [range(0, stop, step)] for [0 <= stop]: an exception for a zero step,
    nothing for a negative one. *)
Definition range_to (stop step : Z) : string + list Z :=
  if step =? 0 then inl "range() arg 3 must not be zero"
  else if step <? 0 then inr []
  else inr (range_from (Z.to_nat stop) 0 stop step).

(** [l[i : i + n]] for [0 <= i] and [0 <= n]. *)
Definition slice {A : Type} (i n : Z) (l : list A) : list A :=
  take (Z.to_nat n) (drop (Z.to_nat i) l).

(** The partition of the valid records: singletons in sequential mode,
    slices of [batch_size] records otherwise (an unknown mode falls back
    to batches). *)
Definition make_batches (process_mode : string) (batch_size : Z) (valid : list pydict)
  : string + list (list pydict) :=
  if String.eqb process_mode "sequential"
  then inr (map (fun act => [act]) valid)
  else
    match range_to (Z.of_nat (length valid)) batch_size with
    | inl msg => inl msg
    | inr starts => inr (map (fun i => slice i batch_size valid) starts)
    end.

(** ** Missing notes ([ensure_private_descriptions]) *)

Definition stock_summary : string :=
  "This is a concise internal summary for tracking this activity.".

Section PrivateDescriptions.

Variable sha256_hex : string -> string.
Variable generator : nat -> generation.

(** The [try] block and its handler: the text that goes to the
    sanitizer. *)
Definition generated_notes (desc : string) (g : generation) : string :=
  match g with
  | Generated content => response_text content
  | ProviderError =>
      let text := strip desc in
      if String.eqb text "" then stock_summary else text
  end.

(** The body of the loop for one record: the state, the record as the
    body leaves it, and the message of the exception raised, if any.
    [_hash] calls [encode] on [(p or "")], which a number or a list other
    than [0] and [[]] does not have. *)
Definition ensure_private_description (st : enrich_state) (act : pydict)
  : enrich_state * pydict * option string :=
  let has_internal := dict_truthy act "Internal Notes" in
  let has_private := dict_truthy act "Private Description" in
  if negb has_internal && negb has_private then
    let title := dict_get_or_empty act "Title" in
    let desc := dict_get_or_empty act "Description" in
    match text_or_empty title with
    | inr kind => (st, act, Some (attribute_error kind "encode"))
    | inl title_text =>
        match text_or_empty desc with
        | inr kind => (st, act, Some (attribute_error kind "encode"))
        | inl desc_text =>
            let key := _hash sha256_hex [title_text; desc_text] in
            let generated :=
              let text :=
                _sanitize_private_description
                  (generated_notes desc_text (generator (generations st))) 400 in
              ({| cache_data := _CacheStore_set (cache_data st) "private_desc" key text;
                  generations := S (generations st) |},
               dict_set act "Internal Notes" (VStr text), None) in
            match _CacheStore_get (cache_data st) "private_desc" key with
            | Some cached =>
                if negb (String.eqb cached "")
                then (st, dict_set act "Internal Notes"
                            (VStr (_sanitize_private_description cached 400)), None)
                else generated
            | None => generated
            end
        end
    end
  else (st, act, None).

(** [ensure_private_descriptions]: the loop over the activities, each
    completed in place; an exception leaves the later records as they
    were. *)
Fixpoint ensure_private_descriptions (st : enrich_state) (activities : list pydict)
  : enrich_state * list pydict * option string :=
  match activities with
  | [] => (st, [], None)
  | act :: rest =>
      match ensure_private_description st act with
      | (st1, act1, Some msg) => (st1, act1 :: rest, Some msg)
      | (st1, act1, None) =>
          let '(st2, rest', raised) := ensure_private_descriptions st1 rest in
          (st2, act1 :: rest', raised)
      end
  end.

End PrivateDescriptions.

(** The record has notes under one of the two names. *)
Definition has_notes (act : pydict) : bool :=
  dict_truthy act "Internal Notes" || dict_truthy act "Private Description".

(** Title and Description can be hashed: each is absent, a text or a
    falsy value. *)
Definition hashable (act : pydict) : bool :=
  match text_or_empty (dict_get_or_empty act "Title"),
        text_or_empty (dict_get_or_empty act "Description") with
  | inl _, inl _ => true
  | _, _ => false
  end.

(** The cache key of a record, for a record that can be hashed. *)
Definition notes_key (sha256_hex : string -> string) (act : pydict) : string :=
  match text_or_empty (dict_get_or_empty act "Title"),
        text_or_empty (dict_get_or_empty act "Description") with
  | inl title_text, inl desc_text => _hash sha256_hex [title_text; desc_text]
  | _, _ => ""
  end.

(** The cache holds a non-empty text for the key. *)
Definition cached_notes (st : enrich_state) (key : string) : Prop :=
  exists cached : string,
    _CacheStore_get (cache_data st) "private_desc" key = Some cached /\ cached <> "".

(** A record without notes, and one whose Title cannot be hashed. *)
Definition bare_record : pydict :=
  [("Title", VStr "Talk"); ("Description", VStr "Notes on Python for Azure.")].

Definition numbered_record : pydict :=
  [("Title", VInt 7); ("Description", VStr "Notes on Python for Azure.")].

(** What [ensure_private_descriptions] does to one record: [act'] is
    [act] completed. *)
Definition completed (act act' : pydict) : Prop :=
  has_notes act' = true /\
  (has_notes act = true -> act' = act) /\
  (has_notes act = false ->
   exists text : string,
     act' = dict_set act "Internal Notes" (VStr text) /\
     ends_with_punct text = true /\ 1 <= len text <= 401).



(** ** The parser's answer ([_extract_json_array]) *)

(** Lowest index of [c] in [l], the first element having index [i];
    [-1] when there is none. *)
Fixpoint find_from (c : ascii) (l : list ascii) (i : Z) : Z :=
  match l with
  | [] => -1
  | x :: r => if Ascii.eqb x c then i else find_from c r (i + 1)
  end.

(** [s.find(c)] for a one-character [c]. *)
Definition str_find (c : ascii) (s : string) : Z := find_from c (chars s) 0.

(** [s.startswith(p)] and [s.endswith(p)] *)
Definition startswith (p s : string) : bool := is_prefix (chars p) (chars s).
Definition endswith (p s : string) : bool := is_prefix (rev (chars p)) (rev (chars s)).

(** [s[n:]] for [0 <= n]. *)
Definition slice_from (n : Z) (s : string) : string :=
  text_of (drop (Z.to_nat n) (chars s)).

(** [s[i:j]] for [0 <= i] and [0 <= j]. *)
Definition slice_between (i j : Z) (s : string) : string :=
  text_of (take (Z.to_nat (j - i)) (drop (Z.to_nat i) (chars s))).

Definition newline : ascii := "010"%char.

Definition fence : string := "```".

(** [_extract_json_array] on a string (its only caller passes nothing
    else). *)
Definition _extract_json_array (raw : string) : string :=
  let s := strip raw in
  let s :=
    if startswith fence s then
      let first_newline := str_find newline s in
      let s := if negb (first_newline =? -1) then slice_from (first_newline + 1) s else s in
      let s := if endswith fence s then slice_to (len s - 3) s else s in
      let s := strip s in
      if startswith ("json" ++ String newline "") s then slice_from 5 s else s
    else s in
  if contains "[" s && contains "]" s then
    let start := str_find "[" s in
    let end_ := rfind "]" s in
    slice_between start (end_ + 1) s
  else s.

(** [t] occurs in [s] as a run of consecutive characters. *)
Definition substring (t s : string) : Prop :=
  exists pre post : string, s = pre ++ t ++ post.

(** ** Options read from the browser tools ([_extract_dropdowns_from_mcp]) *)

(** What the nested dictionary holds: dictionaries, lists (an element is
    a string, or something else) and anything else. *)
#[warnings="-register-all"] Inductive dropdown_value :=
| DDict (items : list (string * dropdown_value))
| DList (items : list (option string))
| DOther.

(** [all(isinstance(i, str) for i in obj)], with the strings. *)
Fixpoint all_strings (obj : list (option string)) : option (list string) :=
  match obj with
  | [] => Some []
  | Some s :: rest =>
      match all_strings rest with
      | Some strs => Some (s :: strs)
      | None => None
      end
  | None :: _ => None
  end.

(** A path of keys and the list found under it. *)
Definition candidate : Type := list string * list string.

(** The inner function [rec]: the candidates under [obj], in iteration
    order. *)
Fixpoint rec (obj : dropdown_value) (path : list string) : list candidate :=
  match obj with
  | DDict items =>
      (fix over (items : list (string * dropdown_value)) : list candidate :=
         match items with
         | [] => []
         | (k, v) :: rest => (rec v (path ++ [k]) ++ over rest)%list
         end) items
  | DList obj =>
      match obj, all_strings obj with
      | _ :: _, Some strs => [(path, strs)]
      | _, _ => []
      end
  | DOther => []
  end.

(** A candidate with its position among the candidates, which stands for
    the identity of the list object ([lst is ta_choice]): the lists of a
    decoded answer are distinct objects. *)
Definition located : Type := nat * candidate.

Definition enumerate (candidates : list candidate) : list located :=
  zip (seq 0 (length candidates)) candidates.

Definition default_aud : list string :=
  ["developer"; "it pro"; "business decision maker"; "technical decision maker";
   "student"; "author"].

(** [{s.strip().lower() for s in lst} & default_aud] is not empty. *)
Definition audience_hit (c : located) : bool :=
  existsb (fun s => existsb (String.eqb (lower (strip s))) default_aud) (snd (snd c)).

(** The first loop, which stops at the first hit. *)
Fixpoint choose_audience (candidates : list located) : option located :=
  match candidates with
  | [] => None
  | c :: rest => if audience_hit c then Some c else choose_audience rest
  end.

(** [" ".join(path).lower()] *)
Definition kp (c : located) : string := lower (String.concat " " (fst (snd c))).

Definition is_none {A : Type} (o : option A) : bool :=
  match o with None => true | Some _ => false end.

(** [lst is other] *)
Definition same_list (c : located) (other : option located) : bool :=
  match other with
  | Some c' => Nat.eqb (fst c) (fst c')
  | None => false
  end.

(** The body of the loop over the path keywords; the state is
    [(primary, additional)]. *)
Definition keyword_step (st : option located * option located) (c : located)
  : option located * option located :=
  let '(p_choice, a_choice) := st in
  let p_choice := if contains "primary" (kp c) && is_none p_choice then Some c else p_choice in
  let a_choice := if contains "additional" (kp c) && is_none a_choice then Some c else a_choice in
  (p_choice, a_choice).

(** The body of the fallback loop. *)
Definition fallback_step (ta_choice : option located)
    (st : option located * option located) (c : located)
  : option located * option located :=
  let '(p_choice, a_choice) := st in
  if same_list c ta_choice then st
  else if contains "technology" (kp c) || contains "tech" (kp c) then
    match p_choice with
    | None => (Some c, a_choice)
    | Some _ =>
        if is_none a_choice && negb (same_list c p_choice) then (p_choice, Some c) else st
    end
  else st.

(** [x or []] and the truth value of [x], for a list or [None]. *)
Definition list_or_empty (o : option located) : list string :=
  match o with Some c => snd (snd c) | None => [] end.

Definition list_truthy (o : option located) : bool :=
  match list_or_empty o with [] => false | _ :: _ => true end.

(** The two choices after both loops. *)
Definition tech_choices (candidates : list located) (ta_choice : option located)
  : option located * option located :=
  let '(p_choice, a_choice) := fold_left keyword_step candidates (None, None) in
  if is_none p_choice || is_none a_choice
  then fold_left (fallback_step ta_choice) candidates (p_choice, a_choice)
  else (p_choice, a_choice).

Definition _extract_dropdowns_from_mcp (dropdowns_raw : dropdown_value)
  : option tech_options_t * option (list string) :=
  match dropdowns_raw with
  | DDict _ =>
      let candidates := enumerate (rec dropdowns_raw []) in
      let ta_choice := choose_audience candidates in
      let '(p_choice, a_choice) := tech_choices candidates ta_choice in
      let tech_opts :=
        if list_truthy p_choice || list_truthy a_choice
        then Some {| primary := list_or_empty p_choice;
                     additional := list_or_empty a_choice |}
        else None in
      (tech_opts, option_map (fun c => snd (snd c)) ta_choice)
  | _ => (None, None)
  end.

(** The path of the candidate mentions technology and the candidate is
    not the audience list. *)
Definition about_tech (ta_choice : option located) (c : located) : bool :=
  negb (same_list c ta_choice) && contains "tech" (kp c).

(** A decoded answer of the tools: the option lists of a form. *)
Definition sample_items : list (string * dropdown_value) :=
  [("form", DDict [("Target Audience", DList [Some "Developer"; Some "Student"]);
                   ("Primary Technology", DList [Some "Azure"; Some "AI"]);
                   ("Tech tags", DList [Some "Python"; Some "Cloud"]);
                   ("Count", DOther)])].

Definition sample_dropdowns : dropdown_value := DDict sample_items.

(** ** The run over the batches ([run_automation], not interactive) *)

(** [interactive_review] when the run is not interactive: the planned
    entries are printed and a copy of the record, a new object, is
    returned. *)
Definition interactive_review (σ : gmap nat pydict) (activity : pydict)
  : nat * gmap nat pydict :=
  let reviewed := fresh_loc σ in
  (reviewed, <[reviewed := activity]> σ).

(** The loop over the records of one batch; a record that fails is
    followed by the next one ([continue_processing] is [True] when the
    run is not interactive). *)
Fixpoint process_batch (env : environment) (a : agent) (σ : gmap nat pydict) (w : world)
    (batch : list pydict) : list record_status * agent * gmap nat pydict * world :=
  match batch with
  | [] => ([], a, σ, w)
  | activity :: rest =>
      let '(reviewed, σ1) := interactive_review σ activity in
      let '(status, a1, σ2, w1) := process_record env a σ1 reviewed w in
      let '(statuses, a2, σ3, w2) := process_batch env a1 σ2 w1 rest in
      (status :: statuses, a2, σ3, w2)
  end.

(** The loop over the batches. *)
Fixpoint process_batches (env : environment) (a : agent) (σ : gmap nat pydict) (w : world)
    (batches : list (list pydict)) : list record_status * agent * gmap nat pydict * world :=
  match batches with
  | [] => ([], a, σ, w)
  | batch :: rest =>
      let '(statuses, a1, σ1, w1) := process_batch env a σ w batch in
      let '(statuses', a2, σ2, w2) := process_batches env a1 σ1 w1 rest in
      ((statuses ++ statuses')%list, a2, σ2, w2)
  end.


(** ** From the parsed records to the validation *)

(** The normalized record will hold non-empty notes: the last item that
    carries Internal Notes or its legacy name has a non-empty value. *)
Definition notes_settled (act : pydict) : Prop :=
  exists v : value, last_mapped act "Internal Notes" = Some v /\ truthy v = true.

(** The record does not carry its notes under both names. *)
Definition one_notes_name (act : pydict) : Prop :=
  ~ ("Internal Notes" ∈ map fst act /\ "Private Description" ∈ map fst act).

(** A record with legacy names only, and no notes. *)
Definition legacy_record : pydict :=
  [("Title", VStr "Talk"); ("Description", VStr "Notes on Python for Azure.");
   ("Private Description", VStr "")].

(** * Properties *)

(** Case analysis on every scrutinee of the goal, innermost first. *)
Ltac destruct_matches :=
  repeat match goal with
         | |- context [match ?x with _ => _ end] =>
             match x with
             | context [match _ with _ => _ end] => fail 1
             | _ => destruct x
             end
         end.

(** ** The model of the text operations on examples *)

Example findall_words_example :
  findall_words (chars "intro to azure-functions, node.js c# _x1 9lives") []
  = ["intro"; "to"; "azure"; "functions"; "node"; "js"; "c"; "_x1"; "9lives"].
Proof. vm_compute. reflexivity. Qed.

Example remove_urls_example :
  remove_urls "see http://a.b/c and https://x.y. end http:// x https://"
  = "see  and  end http:// x https://".
Proof. vm_compute. reflexivity. Qed.

Example remove_trailing_ellipsis_example :
  map remove_trailing_ellipsis ["abc..."; "abc.."; "a...b...."]
  = ["abc"; "abc.."; "a...b"].
Proof. vm_compute. reflexivity. Qed.

Example rfind_example :
  (rfind_upto "." 5 "a.b c.", rfind "." "abc", rfind_upto " " 1 "a b") = (1, -1, -1).
Proof. vm_compute. reflexivity. Qed.

Example sort_desc_example :
  sort_desc [(2, "Python"); (2, "Azure Functions"); (0, "c"); (2, "Azure App Service"); (0, "C")]
  = [(2, "Python"); (2, "Azure Functions"); (2, "Azure App Service"); (0, "c"); (0, "C")].
Proof. vm_compute. reflexivity. Qed.

(** The scenario of the specification: the main choice is "Cloud
    Computing" and the additional choices include "Python". *)
Example choose_scenario :
  _choose_tech_areas "Intro to Azure Functions" "Python and serverless"
    {| primary := ["Cloud Computing"; "Web Development"];
       additional := ["Python"; "JavaScript"] |}
  = ("Cloud Computing", ["Python"; "Web Development"]).
Proof. vm_compute. reflexivity. Qed.

(** ** Backoff *)

Lemma window_expired_spec (a : agent) (now : Q) :
  window_expired a now = true <->
  match _first_429_ts a with
  | None => True
  | Some t => (60 < now - t)%Q
  end.
Proof.
  unfold window_expired. destruct (_first_429_ts a) as [t|]; simpl; [|tauto].
  rewrite negb_true_iff. split.
  - intros H. apply Qnot_le_lt. intros Hle. apply Qle_bool_iff in Hle. congruence.
  - intros H. destruct (Qle_bool (now - t) 60) eqn:E; [|reflexivity].
    apply Qle_bool_iff in E. exfalso. apply (Qlt_not_le _ _ H E).
Qed.

(** What a call does to the state, and the value of [backoff] before the
    jitter is drawn. *)
Lemma backoff_before_jitter_spec (a : agent) (now : Q) :
  0 <= _recent_429 a ->
  let count := if window_expired a now then 1 else _recent_429 a + 1 in
  let a' := fst (backoff_before_jitter a now) in
  _recent_429 a' = count /\
  _first_429_ts a' = (if window_expired a now then Some now else _first_429_ts a) /\
  _rate_backoff_base a' = _rate_backoff_base a /\
  _circuit_open a' =
    ((if window_expired a now then false else _circuit_open a) || (5 <=? count)) /\
  snd (backoff_before_jitter a now) = scheduled_backoff (_rate_backoff_base a) count.
Proof.
  intros Hc. unfold backoff_before_jitter, scheduled_backoff.
  destruct (window_expired a now); cbn.
  - repeat split; reflexivity.
  - destruct (5 <=? _recent_429 a + 1) eqn:E; cbn;
      replace (Z.max (_recent_429 a + 1 - 1) 0) with (_recent_429 a + 1 - 1) by lia;
      repeat split; try reflexivity.
    + symmetry. apply orb_true_r.
    + symmetry. apply orb_false_r.
Qed.

Lemma compute_backoff_unfold (a : agent) (now u : Q) :
  _compute_backoff a now u =
  (fst (backoff_before_jitter a now),
   (snd (backoff_before_jitter a now)
    + jitter_of (snd (backoff_before_jitter a now)) u)%Q).
Proof.
  unfold _compute_backoff. destruct (backoff_before_jitter a now). reflexivity.
Qed.

Lemma pow2_pos (e : Z) : 0 <= e -> (0 < inject_Z (2 ^ e))%Q.
Proof.
  intros He. replace 0%Q with (inject_Z 0) by reflexivity.
  rewrite <- Zlt_Qlt. apply Z.pow_pos_nonneg; lia.
Qed.

Lemma scheduled_backoff_pos (base : Q) (count : Z) :
  (0 < base)%Q -> 1 <= count -> (0 < scheduled_backoff base count)%Q.
Proof.
  intros Hb Hc. unfold scheduled_backoff.
  assert (Hp : (0 < base * inject_Z (2 ^ Z.min (count - 1) 6))%Q).
  { apply Qmult_lt_0_compat; [assumption | apply pow2_pos; lia]. }
  destruct (5 <=? count); [|assumption].
  destruct (Q.max_spec (base * inject_Z (2 ^ Z.min (count - 1) 6)) 10) as [[_ E]|[_ E]];
    rewrite E; [reflexivity | assumption].
Qed.

Lemma scheduled_backoff_floor (base : Q) (count : Z) :
  5 <= count -> (10 <= scheduled_backoff base count)%Q.
Proof.
  intros Hc. unfold scheduled_backoff.
  destruct (5 <=? count) eqn:E; [|lia].
  apply Q.le_max_r.
Qed.

(** The jitter lies between zero and its bound. *)
Lemma jitter_of_range (d u : Q) :
  (0 <= d)%Q -> (0 <= u <= 1)%Q ->
  (0 <= jitter_of d u <= jitter_bound d)%Q.
Proof.
  intros Hd [Hu0 Hu1]. unfold jitter_of, uniform, jitter_bound.
  assert (Hhi : (0 <= Qmin 1 (d * 0.1))%Q).
  { apply Q.min_glb; [discriminate|]. 
    apply Qmult_le_0_compat; [assumption | discriminate]. }
  set (hi := Qmin 1 (d * 0.1)) in *.
  clearbody hi. split; nra.
Qed.

Lemma scheduled_backoff_mono (base : Q) (c c' : Z) :
  (0 < base)%Q -> 1 <= c -> c <= c' ->
  (scheduled_backoff base c <= scheduled_backoff base c')%Q.
Proof.
  intros Hb H1 Hle. unfold scheduled_backoff.
  assert (Hpow : (base * inject_Z (2 ^ Z.min (c - 1) 6)
                  <= base * inject_Z (2 ^ Z.min (c' - 1) 6))%Q).
  { apply Qmult_le_l; [assumption|]. rewrite <- Zle_Qle.
    apply Z.pow_le_mono_r; lia. }
  set (d := (base * inject_Z (2 ^ Z.min (c - 1) 6))%Q) in *.
  set (d' := (base * inject_Z (2 ^ Z.min (c' - 1) 6))%Q) in *.
  destruct (5 <=? c) eqn:E; destruct (5 <=? c') eqn:E'; try lia.
  - apply Q.max_le_compat_r. assumption.
  - eapply Qle_trans; [exact Hpow | apply Q.le_max_l].
  - assumption.
Qed.

Lemma window_expired_same_window (a a' : agent) (now : Q) :
  _first_429_ts a' = _first_429_ts a -> window_expired a' now = window_expired a now.
Proof. intros H. unfold window_expired. rewrite H. reflexivity. Qed.

(** A run in which no call finds the window expired: the [i]-th call has
    count [c + i + 1], where [c] is the count before the run. *)
Lemma overload_run_in_window (sigs : list (Q * Q)) :
  forall (a : agent),
    0 <= _recent_429 a ->
    Forall (fun s => window_expired a (fst s) = false) sigs ->
    forall (i : nat) (s : Q * Q),
      sigs !! i = Some s ->
      let b := scheduled_backoff (_rate_backoff_base a) (_recent_429 a + Z.of_nat i + 1) in
      overload_backoffs a sigs !! i = Some b /\
      snd (overload_signals a sigs) !! i = Some (b + jitter_of b (snd s))%Q.
Proof.
  induction sigs as [|[now u] rest IH]; intros a Hc Hall i s Hi; [discriminate|].
  apply Forall_cons in Hall as [Hnow Hrest]. cbn [fst] in Hnow.
  pose proof (backoff_before_jitter_spec a now Hc) as Hspec. rewrite Hnow in Hspec.
  cbn zeta in Hspec. destruct Hspec as (Hcount & Hts & Hbase & _ & Hb).
  cbn [overload_backoffs overload_signals]. rewrite compute_backoff_unfold.
  destruct (backoff_before_jitter a now) as [a1 b1] eqn:Ebj. cbn [fst snd] in *.
  destruct (overload_signals a1 rest) as [a2 ds] eqn:Erun. cbn [snd].
  destruct i as [|i].
  - cbn in Hi. injection Hi as <-. cbn. rewrite Z.add_0_r, Hb. split; reflexivity.
  - cbn in Hi. cbn [lookup list_lookup].
    assert (Hall' : Forall (fun s => window_expired a1 (fst s) = false) rest).
    { eapply Forall_impl; [exact Hrest|]. intros s' Hs'. cbn beta in *.
      rewrite (window_expired_same_window a a1) by exact Hts. exact Hs'. }
    specialize (IH a1 ltac:(lia) Hall' i s Hi). rewrite Erun in IH. cbn [snd] in IH.
    rewrite Hbase, Hcount in IH.
    replace (_recent_429 a + Z.of_nat (S i) + 1) with (_recent_429 a + 1 + Z.of_nat i + 1) by lia.
    exact IH.
Qed.

Lemma window_open_within (a : agent) (t now : Q) :
  _first_429_ts a = Some t -> (now - t <= 60)%Q -> window_expired a now = false.
Proof.
  intros Hts Hle. destruct (window_expired a now) eqn:E; [|reflexivity].
  apply window_expired_spec in E. rewrite Hts in E.
  exfalso. apply (Qlt_not_le _ _ E Hle).
Qed.

Lemma overload_signals_length (sigs : list (Q * Q)) :
  forall a : agent, length (snd (overload_signals a sigs)) = length sigs.
Proof.
  induction sigs as [|[now u] r IH]; intros a; cbn; [reflexivity|].
  destruct (_compute_backoff a now u) as [a1 d].
  specialize (IH a1). destruct (overload_signals a1 r) as [a2 ds].
  cbn in *. f_equal. exact IH.
Qed.

(** The jitter in the words of the specification. *)
Lemma jitter_of_formula (d u : Q) : (jitter_of d u == u * Qmin 1 (d * 0.1))%Q.
Proof. unfold jitter_of, uniform. ring. Qed.

(** C2: a call made with a non-negative counter has the in-window count
    [c] that is 1 when the window has expired (or none is open) and the
    previous count plus one otherwise.  It returns [d + j], where [d] is
    [base * 2^min(c-1, 6)], floored at 10 seconds when [c >= 5] (and the
    circuit is then open), and the jitter [j] is the random draw times
    [min(1, d*0.1)], so that it lies in [[0, min(1, d*0.1)]].  In a run of
    signals that opens a window and stays in it, signal number [i + 1] is
    answered with the delay of count [i + 1]; the sixth is answered with a
    delay of at least 10 seconds, whatever the positive base. *)
Theorem C2_backoff_delay :
  (forall (a : agent) (now u : Q),
      0 <= _recent_429 a ->
      (0 < _rate_backoff_base a)%Q ->
      (0 <= u <= 1)%Q ->
      let a' := fst (_compute_backoff a now u) in
      let base := _rate_backoff_base a in
      let c := if window_expired a now then 1 else _recent_429 a + 1 in
      let d := if 5 <=? c
               then Qmax (base * inject_Z (2 ^ Z.min (c - 1) 6)) 10
               else (base * inject_Z (2 ^ Z.min (c - 1) 6))%Q in
      let j := (snd (_compute_backoff a now u) - d)%Q in
      _recent_429 a' = c /\
      1 <= c /\
      (5 <= c -> _circuit_open a' = true /\ (10 <= d)%Q) /\
      (c < 5 -> _circuit_open a' = (if window_expired a now then false else _circuit_open a)) /\
      d = scheduled_backoff base c /\
      snd (_compute_backoff a now u) = (d + jitter_of d u)%Q /\
      (j == u * Qmin 1 (d * 0.1))%Q /\
      (0 <= j <= Qmin 1 (d * 0.1))%Q)
  /\
  (forall (a : agent) (t1 u1 : Q) (rest : list (Q * Q)),
      0 <= _recent_429 a ->
      (0 < _rate_backoff_base a)%Q ->
      window_expired a t1 = true ->
      Forall (fun s => (fst s - t1 <= 60)%Q) rest ->
      Forall (fun s => (0 <= snd s <= 1)%Q) rest ->
      (forall (i : nat) (s : Q * Q),
          ((t1, u1) :: rest) !! i = Some s ->
          let d := scheduled_backoff (_rate_backoff_base a) (Z.of_nat i + 1) in
          snd (overload_signals a ((t1, u1) :: rest)) !! i = Some (d + jitter_of d (snd s))%Q) /\
      (forall delay : Q,
          snd (overload_signals a ((t1, u1) :: rest)) !! 5%nat = Some delay ->
          (10 <= delay)%Q)).
Proof.
  split.
  - intros a now u Hc Hb Hu a' base c d j. subst a' j.
    rewrite compute_backoff_unfold. cbn [fst snd].
    pose proof (backoff_before_jitter_spec a now Hc) as Hspec. cbn zeta in Hspec.
    destruct Hspec as (Hcount & _ & _ & Hopen & Hd). fold c in Hcount, Hopen, Hd.
    assert (H1 : 1 <= c) by (subst c; destruct (window_expired a now); lia).
    assert (Hsched : d = scheduled_backoff base c) by reflexivity.
    assert (Hpos : (0 <= d)%Q).
    { rewrite Hsched. apply Qlt_le_weak, scheduled_backoff_pos; assumption. }
    split; [exact Hcount|]. split; [exact H1|]. split; [|split].
    + intros H5. split.
      * rewrite Hopen. apply Z.leb_le in H5. rewrite H5. apply orb_true_r.
      * rewrite Hsched. apply scheduled_backoff_floor. exact H5.
    + intros H5. rewrite Hopen. replace (5 <=? c) with false by (symmetry; apply Z.leb_gt; lia).
      apply orb_false_r.
    + split; [exact Hsched|]. fold base in Hd. rewrite Hd, <- Hsched.
      split; [reflexivity|]. split.
      * rewrite <- jitter_of_formula. ring.
      * assert (E : (d + jitter_of d u - d == jitter_of d u)%Q) by ring.
        rewrite E. apply jitter_of_range; assumption.
  - intros a t1 u1 rest Hc Hb Hexp Hwin Hus.
    pose proof (backoff_before_jitter_spec a t1 Hc) as Hspec. rewrite Hexp in Hspec.
    cbn zeta in Hspec. destruct Hspec as (Hcount & Hts & Hbase & _ & Hfirst).
    assert (Hrun : forall (i : nat) (s : Q * Q),
               ((t1, u1) :: rest) !! i = Some s ->
               snd (overload_signals a ((t1, u1) :: rest)) !! i
               = Some (scheduled_backoff (_rate_backoff_base a) (Z.of_nat i + 1)
                       + jitter_of (scheduled_backoff (_rate_backoff_base a) (Z.of_nat i + 1))
                           (snd s))%Q).
    { intros i s Hi. cbn [overload_signals]. rewrite compute_backoff_unfold.
      set (a1 := fst (backoff_before_jitter a t1)) in *.
      destruct (overload_signals a1 rest) as [a2 ds] eqn:Erun. cbn [snd].
      destruct i as [|i].
      - cbn in Hi. injection Hi as <-. cbn [lookup list_lookup snd]. rewrite Hfirst. reflexivity.
      - cbn in Hi. cbn [lookup list_lookup].
        assert (Hin : Forall (fun s => window_expired a1 (fst s) = false) rest).
        { eapply Forall_impl; [exact Hwin|]. intros s0 Hs. cbn beta in Hs.
          eapply window_open_within; eassumption. }
        pose proof (overload_run_in_window rest a1 ltac:(lia) Hin i s Hi) as [_ Hr].
        rewrite Erun in Hr. cbn [snd] in Hr. rewrite Hcount, Hbase in Hr.
        replace (Z.of_nat (S i) + 1) with (1 + Z.of_nat i + 1) by lia. exact Hr. }
    split; [exact Hrun|].
    intros delay Hd.
    destruct (((t1, u1) :: rest) !! 5%nat) as [s|] eqn:Es.
    + rewrite (Hrun 5%nat s Es) in Hd. injection Hd as <-.
      assert (Hu : (0 <= snd s <= 1)%Q).
      { rewrite Forall_forall in Hus. apply Hus. cbn in Es. eapply list_elem_of_lookup_2. exact Es. }
      assert (Hfloor := scheduled_backoff_floor (_rate_backoff_base a) (Z.of_nat 5 + 1) ltac:(lia)).
      assert (H0 : (0 <= scheduled_backoff (_rate_backoff_base a) (Z.of_nat 5 + 1))%Q) by lra.
      pose proof (jitter_of_range _ (snd s) H0 Hu) as [Hj _].
      lra.
    + exfalso. apply lookup_ge_None in Es.
      pose proof (overload_signals_length ((t1, u1) :: rest) a) as Hlen.
      apply lookup_lt_Some in Hd. lia.
Qed.

Lemma C2_backoff_delay_witness :
  _recent_429 (fst (_compute_backoff (agent_init true) 0 (1 # 2))) = 1
  /\ (10 <= default 0%Q
              (snd (overload_signals (agent_init false)
                      [(0, 0); (1, 0); (2, 0); (3, 0); (4, 0); (5, 1 # 2)]%Q) !! 5%nat))%Q.
Proof.
  split.
  - refine (proj1 (proj1 C2_backoff_delay (agent_init true) 0%Q (1 # 2)%Q _ _ _)).
    + simpl. lia.
    + reflexivity.
    + split; vm_compute; discriminate.
  - refine (proj2 (proj2 C2_backoff_delay (agent_init false) 0%Q 0%Q
                     [(1, 0); (2, 0); (3, 0); (4, 0); (5, 1 # 2)]%Q _ _ _ _ _) _ _).
    + simpl. lia.
    + reflexivity.
    + reflexivity.
    + repeat constructor; vm_compute; discriminate.
    + repeat constructor; vm_compute; discriminate.
    + vm_compute. reflexivity.
Defined.

(** A run that opens or continues a window with its first call and stays
    in it: the [i]-th call has count [c1 + i], where [c1] is the count of
    the first call. *)
Lemma overload_run_from_first (a : agent) (s1 : Q * Q) (rest : list (Q * Q)) :
  0 <= _recent_429 a ->
  let a1 := fst (backoff_before_jitter a (fst s1)) in
  Forall (fun s => window_expired a1 (fst s) = false) rest ->
  1 <= _recent_429 a1 /\
  forall (i : nat) (s : Q * Q),
    (s1 :: rest) !! i = Some s ->
    let b := scheduled_backoff (_rate_backoff_base a) (_recent_429 a1 + Z.of_nat i) in
    overload_backoffs a (s1 :: rest) !! i = Some b /\
    snd (overload_signals a (s1 :: rest)) !! i = Some (b + jitter_of b (snd s))%Q.
Proof.
  intros Hc a1 Hin. destruct s1 as [t1 u1]. cbn [fst] in *.
  pose proof (backoff_before_jitter_spec a t1 Hc) as Hspec. cbn zeta in Hspec.
  destruct Hspec as (Hcount & _ & Hbase & _ & Hb). fold a1 in Hcount, Hbase.
  assert (H1 : 1 <= _recent_429 a1).
  { rewrite Hcount. destruct (window_expired a t1); lia. }
  split; [exact H1|]. intros i s Hi.
  cbn [overload_backoffs overload_signals]. rewrite compute_backoff_unfold.
  destruct (backoff_before_jitter a t1) as [a1' b1] eqn:Ebj. cbn [fst snd] in *. subst a1.
  destruct (overload_signals a1' rest) as [a2 ds] eqn:Erun. cbn [snd].
  destruct i as [|i].
  - cbn in Hi. injection Hi as <-. cbn. rewrite Z.add_0_r, Hb, Hcount. split; reflexivity.
  - cbn in Hi. cbn [lookup list_lookup].
    pose proof (overload_run_in_window rest a1' ltac:(lia) Hin i s Hi) as IH.
    rewrite Erun in IH. cbn [snd] in IH. rewrite Hbase in IH.
    replace (_recent_429 a1' + Z.of_nat (S i)) with (_recent_429 a1' + Z.of_nat i + 1) by lia.
    exact IH.
Qed.

(** C4 as stated fails: in fast mode the fifth and the sixth signal of a
    window both have the pre-jitter delay 10, and a jitter of one half
    second on the fifth followed by no jitter on the sixth makes the
    returned delay decrease from 10.5 to 10 seconds. *)
Lemma C4_counterexample :
  let sigs := [(0, 0); (1, 0); (2, 0); (3, 0); (4, 1 # 2); (5, 0)]%Q in
  let delays := snd (overload_signals (agent_init true) sigs) in
  Forall (fun s => (fst s - 0 <= 60)%Q /\ (0 <= snd s < 1)%Q) sigs /\
  (default 0 (delays !! 4%nat) == 10.5)%Q /\
  (default 0 (delays !! 5%nat) == 10)%Q /\
  ~ (default 0 (delays !! 4%nat) <= default 0 (delays !! 5%nat))%Q.
Proof.
  cbv zeta. split; [|split; [|split]].
  - repeat constructor; vm_compute; congruence.
  - vm_compute. reflexivity.
  - vm_compute. reflexivity.
  - vm_compute. intros H. apply H. reflexivity.
Qed.

(** C4, amended: within one window the pre-jitter delays are
    non-decreasing in the consecutive-failure count, and every returned
    delay is at least the pre-jitter delay of each earlier call; a
    returned delay can therefore fall below an earlier returned delay by
    no more than that earlier call's jitter bound [min(1, d*0.1)]. *)
Theorem C4_backoff_monotone_before_jitter
    (a : agent) (s1 : Q * Q) (rest : list (Q * Q)) (i j : nat) (bi bj di dj : Q) :
  0 <= _recent_429 a ->
  (0 < _rate_backoff_base a)%Q ->
  Forall (fun s => window_expired (fst (_compute_backoff a (fst s1) (snd s1))) (fst s) = false)
         rest ->
  Forall (fun s => (0 <= snd s <= 1)%Q) (s1 :: rest) ->
  (i <= j)%nat ->
  overload_backoffs a (s1 :: rest) !! i = Some bi ->
  overload_backoffs a (s1 :: rest) !! j = Some bj ->
  snd (overload_signals a (s1 :: rest)) !! i = Some di ->
  snd (overload_signals a (s1 :: rest)) !! j = Some dj ->
  (bi <= bj)%Q /\ (bi <= dj)%Q /\ (di - jitter_bound bi <= dj)%Q.
Proof.
  intros Hc Hb Hin Hus Hij Hbi Hbj Hdi Hdj.
  rewrite compute_backoff_unfold in Hin. cbn [fst] in Hin.
  destruct (overload_run_from_first a s1 rest Hc Hin) as [H1 Hrun].
  set (c1 := _recent_429 (fst (backoff_before_jitter a (fst s1)))) in *.
  assert (Hleni : is_Some ((s1 :: rest) !! i)).
  { apply lookup_lt_is_Some. apply lookup_lt_Some in Hdi.
    rewrite overload_signals_length in Hdi. exact Hdi. }
  assert (Hlenj : is_Some ((s1 :: rest) !! j)).
  { apply lookup_lt_is_Some. apply lookup_lt_Some in Hdj.
    rewrite overload_signals_length in Hdj. exact Hdj. }
  destruct Hleni as [si Hsi]. destruct Hlenj as [sj Hsj].
  destruct (Hrun i si Hsi) as [Hbi' Hdi']. destruct (Hrun j sj Hsj) as [Hbj' Hdj'].
  cbn zeta in *.
  pose proof (eq_trans (eq_sym Hbi) Hbi') as Ebi. injection Ebi as ->.
  pose proof (eq_trans (eq_sym Hbj) Hbj') as Ebj. injection Ebj as ->.
  pose proof (eq_trans (eq_sym Hdi) Hdi') as Edi. injection Edi as ->.
  pose proof (eq_trans (eq_sym Hdj) Hdj') as Edj. injection Edj as ->.
  set (base := _rate_backoff_base a) in *.
  assert (Hmono : (scheduled_backoff base (c1 + Z.of_nat i)
                   <= scheduled_backoff base (c1 + Z.of_nat j))%Q).
  { apply scheduled_backoff_mono; [assumption | lia | lia]. }
  assert (Hui : (0 <= snd si <= 1)%Q).
  { rewrite Forall_forall in Hus. apply Hus. eapply list_elem_of_lookup_2. exact Hsi. }
  assert (Huj : (0 <= snd sj <= 1)%Q).
  { rewrite Forall_forall in Hus. apply Hus. eapply list_elem_of_lookup_2. exact Hsj. }
  assert (Hpi := scheduled_backoff_pos base (c1 + Z.of_nat i) Hb ltac:(lia)).
  assert (Hpj := scheduled_backoff_pos base (c1 + Z.of_nat j) Hb ltac:(lia)).
  pose proof (jitter_of_range _ _ (Qlt_le_weak _ _ Hpi) Hui) as [_ Hji].
  pose proof (jitter_of_range _ _ (Qlt_le_weak _ _ Hpj) Huj) as [Hjj _].
  repeat split; lra.
Qed.

Lemma C4_backoff_monotone_before_jitter_witness :
  let a := agent_init true in
  let sigs := [(0, 0); (1, 1 # 2); (2, 0)]%Q in
  (default 0 (overload_backoffs a sigs !! 0%nat)
   <= default 0 (overload_backoffs a sigs !! 2%nat))%Q /\
  (default 0 (overload_backoffs a sigs !! 0%nat)
   <= default 0 (snd (overload_signals a sigs) !! 2%nat))%Q /\
  (default 0 (snd (overload_signals a sigs) !! 0%nat)
   - jitter_bound (default 0 (overload_backoffs a sigs !! 0%nat))
   <= default 0 (snd (overload_signals a sigs) !! 2%nat))%Q.
Proof.
  cbv zeta.
  refine (C4_backoff_monotone_before_jitter (agent_init true) (0, 0)%Q
            [(1, 1 # 2); (2, 0)]%Q 0 2 _ _ _ _ _ _ _ _ _ _ _ _ _).
  - simpl. lia.
  - reflexivity.
  - repeat constructor.
  - repeat constructor; vm_compute; discriminate.
  - lia.
  - vm_compute. reflexivity.
  - vm_compute. reflexivity.
  - vm_compute. reflexivity.
  - vm_compute. reflexivity.
Defined.

(** The window start recorded after a run is the one before it or the
    clock reading of one of its calls. *)
Lemma first_429_ts_of_run (sigs : list (Q * Q)) :
  forall a : agent,
    _first_429_ts (fst (overload_signals a sigs)) = _first_429_ts a \/
    exists s, s ∈ sigs /\ _first_429_ts (fst (overload_signals a sigs)) = Some (fst s).
Proof.
  induction sigs as [|[now u] rest IH]; intros a; [left; reflexivity|].
  cbn [overload_signals]. rewrite compute_backoff_unfold.
  specialize (IH (fst (backoff_before_jitter a now))).
  destruct (overload_signals (fst (backoff_before_jitter a now)) rest) as [a2 ds].
  cbn [fst] in *.
  assert (Hts : _first_429_ts (fst (backoff_before_jitter a now))
                = if window_expired a now then Some now else _first_429_ts a).
  { unfold backoff_before_jitter. destruct (window_expired a now); cbn;
      match goal with |- context [if ?c then _ else _] => destruct c end; reflexivity. }
  destruct IH as [IH | (s & Hs & IH)].
  - rewrite IH, Hts. destruct (window_expired a now).
    + right. exists (now, u). split; [apply list_elem_of_here | reflexivity].
    + left. reflexivity.
  - right. exists s. split; [apply list_elem_of_further; exact Hs | exact IH].
Qed.

Lemma backoff_after_expiry (a : agent) (now : Q) :
  window_expired a now = true ->
  let a' := fst (backoff_before_jitter a now) in
  _recent_429 a' = 1 /\ _circuit_open a' = false /\ _first_429_ts a' = Some now /\
  (snd (backoff_before_jitter a now) == _rate_backoff_base a)%Q.
Proof.
  intros Hexp. unfold backoff_before_jitter. rewrite Hexp. cbn.
  change (5 <=? 0 + 1) with false. cbn.
  change (2 ^ Z.min (Z.max (0 + 1 - 1) 0) 6) with 1.
  repeat split; try reflexivity. ring.
Qed.

(** C8: when every earlier overload signal is more than 60 seconds old,
    the next call resets the window before it counts the new signal: the
    count it works with is 1, the circuit is closed, the window starts at
    the call, and the delay before jitter is the configured base. *)
Theorem C8_window_reset (a0 : agent) (sigs : list (Q * Q)) (now u : Q) :
  _first_429_ts a0 = None ->
  Forall (fun s => (60 < now - fst s)%Q) sigs ->
  let a := fst (overload_signals a0 sigs) in
  let a' := fst (_compute_backoff a now u) in
  let backoff := snd (backoff_before_jitter a now) in
  _recent_429 a' = 1 /\
  _circuit_open a' = false /\
  _first_429_ts a' = Some now /\
  (backoff == _rate_backoff_base a0)%Q /\
  (backoff == scheduled_backoff (_rate_backoff_base a0) 1)%Q /\
  snd (_compute_backoff a now u) = (backoff + jitter_of backoff u)%Q.
Proof.
  intros Hnone Hold a a' backoff. subst a' backoff.
  assert (Hexp : window_expired a now = true).
  { apply window_expired_spec. subst a.
    destruct (first_429_ts_of_run sigs a0) as [E | (s & Hs & E)]; rewrite E.
    - rewrite Hnone. exact I.
    - rewrite Forall_forall in Hold. apply Hold. exact Hs. }
  assert (Hbase : _rate_backoff_base a = _rate_backoff_base a0).
  { subst a. clear. revert a0. induction sigs as [|[t v] rest IH]; intros a0; [reflexivity|].
    cbn [overload_signals]. rewrite compute_backoff_unfold.
    specialize (IH (fst (backoff_before_jitter a0 t))).
    destruct (overload_signals (fst (backoff_before_jitter a0 t)) rest) as [a2 ds].
    cbn [fst] in *. rewrite IH. unfold backoff_before_jitter.
    destruct (window_expired a0 t); cbn;
      match goal with |- context [if ?c then _ else _] => destruct c end; reflexivity. }
  rewrite compute_backoff_unfold. cbn [fst snd].
  destruct (backoff_after_expiry a now Hexp) as (Hc & Ho & Ht & Hb).
  rewrite <- Hbase. repeat split; try assumption.
  rewrite Hb. unfold scheduled_backoff.
  change (5 <=? 1) with false. change (2 ^ Z.min (1 - 1) 6) with 1. cbv iota. ring.
Qed.

Lemma C8_window_reset_witness :
  _recent_429
    (fst (_compute_backoff
            (fst (overload_signals (agent_init false) [(0, 0); (1, 0); (30, 0)]%Q))
            100 (1 # 2))) = 1.
Proof.
  refine (proj1 (C8_window_reset (agent_init false) [(0, 0); (1, 0); (30, 0)]%Q
                   100%Q (1 # 2)%Q _ _)).
  - reflexivity.
  - repeat constructor.
Defined.

(** ** The attempts of one submission *)

Lemma classify_retryable (msg : string) :
  classify msg <> Fatal <-> is_rate_limit msg = true \/ is_snapshot_error msg = true.
Proof.
  unfold classify. destruct (is_rate_limit msg), (is_snapshot_error msg);
    split; intros H; try congruence; auto; destruct H; congruence.
Qed.

Lemma classify_stale (msg : string) :
  classify msg = StaleReference <-> is_rate_limit msg = false /\ is_snapshot_error msg = true.
Proof.
  unfold classify. destruct (is_rate_limit msg), (is_snapshot_error msg);
    split; intros H; try congruence; auto; destruct H; congruence.
Qed.


Lemma call_backoff_invocations (env : environment) (a : agent) (w : world) :
  invocations (snd (call_backoff env a w)) = invocations w.
Proof.
  unfold call_backoff. destruct (_compute_backoff a _ _). reflexivity.
Qed.

(** An attempt that fails with a retryable error, and is not the last
    one, hands over to the next attempt after exactly one invocation. *)
Lemma submit_attempts_retry (env : environment) (remaining : nat) (attempt : Z)
    (a : agent) (w : world) (msg : string) :
  executor env (invocations w) = ExecutorError msg ->
  classify msg <> Fatal ->
  attempt < max_attempts - 1 ->
  exists a' w',
    submit_attempts env (S remaining) attempt a w
    = submit_attempts env remaining (attempt + 1) a' w' /\
    invocations w' = S (invocations w).
Proof.
  intros Hex Hcl Hatt. cbn [submit_attempts]. unfold invoke. rewrite Hex.
  apply classify_retryable in Hcl.
  destruct (is_rate_limit msg) eqn:Er.
  - pose proof (call_backoff_invocations env a
                  {| invocations := S (invocations w);
                     backoff_calls := backoff_calls w;
                     trace := (trace w ++ [EvInvoke])%list |}) as Hinv.
    destruct (call_backoff env a _) as [[a' backoff] w2]. cbn [snd] in Hinv.
    eexists _, _. split; [reflexivity|]. cbn. exact Hinv.
  - destruct Hcl as [Hcl|Hcl]; [discriminate|]. rewrite Hcl.
    apply Z.ltb_lt in Hatt. rewrite Hatt.
    eexists _, _. split; [reflexivity|]. reflexivity.
Qed.

(** An attempt that fails with a stale-reference error, and is the last
    one, raises the terminal failure. *)
Lemma submit_attempts_last_stale (env : environment) (remaining : nat) (attempt : Z)
    (a : agent) (w : world) (msg : string) :
  executor env (invocations w) = ExecutorError msg ->
  classify msg = StaleReference ->
  max_attempts - 1 <= attempt ->
  exists w',
    submit_attempts env (S remaining) attempt a w
    = (Raised "Failed after 3 attempts due to snapshot errors", a, w') /\
    invocations w' = S (invocations w).
Proof.
  intros Hex Hcl Hatt. cbn [submit_attempts]. unfold invoke. rewrite Hex.
  apply classify_stale in Hcl as [Hr Hs]. rewrite Hr, Hs.
  assert (E : (attempt <? max_attempts - 1) = false) by (apply Z.ltb_ge; exact Hatt).
  rewrite E. eexists. split; reflexivity.
Qed.


(** [submit_activity] on a record that passes the preparation is the
    attempts on the prepared agent. *)
Lemma submit_activity_prepared (env : environment) (a a1 : agent) (σ : gmap nat pydict)
    (record : nat) (w : world) (d activity_data : pydict) :
  σ !! record = Some d ->
  prepare_activity a d = (a1, activity_data, None) ->
  submit_activity env a σ record w
  = (fst (fst (submit_attempts env 3 0 a1 w)),
     snd (fst (submit_attempts env 3 0 a1 w)),
     <[fresh_loc σ := activity_data]> σ,
     snd (submit_attempts env 3 0 a1 w)).
Proof.
  intros Hd Hp. unfold submit_activity. rewrite Hd, Hp.
  change (Z.to_nat max_attempts) with 3%nat.
  destruct (submit_attempts env 3 0 a1 w) as [[r a2] w']. reflexivity.
Qed.

(** C1 as stated fails, in two ways.  Three overload failures: the third
    [continue] ends the loop and the call returns [None] instead of
    raising.  Three stale-reference failures: the terminal failure is
    raised, and its message does not mention the record. *)
Lemma C1_counterexample :
  classify "HTTP 429 Too Many Requests" = Overload /\
  fst (fst (fst (submit_activity (failing_env "HTTP 429 Too Many Requests")
                   (agent_init false) sample_store 0%nat world_init)))
  = Returned None /\
  classify "Error: Ref e12 not found in the current page snapshot" = StaleReference /\
  fst (fst (fst (submit_activity
                   (failing_env "Error: Ref e12 not found in the current page snapshot")
                   (agent_init false) sample_store 0%nat world_init)))
  = Raised "Failed after 3 attempts due to snapshot errors" /\
  dict_get sample_record "Title" = Some (VStr "Talk") /\
  contains "Talk" "Failed after 3 attempts due to snapshot errors" = false.
Proof. repeat split; vm_compute; reflexivity. Qed.

(** C1, amended: when all three attempts fail with retryable errors and
    the third is a stale-reference error, the submission raises the
    terminal failure "Failed after 3 attempts due to snapshot errors"
    after exactly three invocations of the executor; the message carries
    the number of attempts and is the same for every record. *)
Theorem C1_retries_exhausted (env : environment) (a a1 : agent) (σ : gmap nat pydict)
    (record : nat) (w : world) (d activity_data : pydict) (m1 m2 m3 : string) :
  σ !! record = Some d ->
  prepare_activity a d = (a1, activity_data, None) ->
  executor env (invocations w) = ExecutorError m1 ->
  executor env (S (invocations w)) = ExecutorError m2 ->
  executor env (S (S (invocations w))) = ExecutorError m3 ->
  classify m1 <> Fatal ->
  classify m2 <> Fatal ->
  classify m3 = StaleReference ->
  let '(r, _, _, w') := submit_activity env a σ record w in
  r = Raised "Failed after 3 attempts due to snapshot errors" /\
  invocations w' = (invocations w + 3)%nat.
Proof.
  intros Hd Hp H1 H2 H3 C1 C2 C3.
  rewrite (submit_activity_prepared env a a1 σ record w d activity_data Hd Hp).
  destruct (submit_attempts_retry env 2 0 a1 w m1 H1 C1 ltac:(unfold max_attempts; lia))
    as (a2 & w2 & E1 & I1).
  rewrite <- I1 in H2. rewrite <- I1 in H3.
  destruct (submit_attempts_retry env 1 (0 + 1) a2 w2 m2 H2 C2 ltac:(unfold max_attempts; lia))
    as (a3 & w3 & E2 & I2).
  rewrite <- I2 in H3.
  destruct (submit_attempts_last_stale env 0 (0 + 1 + 1) a3 w3 m3 H3 C3
              ltac:(unfold max_attempts; lia)) as (w4 & E3 & I3).
  rewrite E1, E2, E3. cbn [fst snd]. split; [reflexivity|]. lia.
Qed.

Lemma C1_retries_exhausted_witness :
  let '(r, _, _, w') :=
    submit_activity (failing_env "Error: Ref e12 not found in the current page snapshot")
      (agent_init false) sample_store 0%nat world_init in
  r = Raised "Failed after 3 attempts due to snapshot errors" /\
  invocations w' = (invocations world_init + 3)%nat.
Proof.
  refine (C1_retries_exhausted
            (failing_env "Error: Ref e12 not found in the current page snapshot")
            (agent_init false) _ sample_store 0%nat world_init sample_record _
            "Error: Ref e12 not found in the current page snapshot"
            "Error: Ref e12 not found in the current page snapshot"
            "Error: Ref e12 not found in the current page snapshot"
            _ _ _ _ _ _ _ _).
  - reflexivity.
  - vm_compute. reflexivity.
  - reflexivity.
  - reflexivity.
  - reflexivity.
  - vm_compute. discriminate.
  - vm_compute. discriminate.
  - vm_compute. reflexivity.
Defined.

(** ** Records and the working copy *)

Lemma dict_get_set (d : pydict) (k k' : string) (v : value) :
  dict_get (dict_set d k v) k' = if String.eqb k k' then Some v else dict_get d k'.
Proof.
  induction d as [|[k0 v0] r IH]; cbn.
  - destruct (String.eqb k k'); reflexivity.
  - destruct (String.eqb k0 k) eqn:E0; cbn.
    + apply String.eqb_eq in E0. subst k0. destruct (String.eqb k k'); reflexivity.
    + destruct (String.eqb k0 k') eqn:E1; [|exact IH].
      apply String.eqb_eq in E1. subst k0. rewrite String.eqb_sym, E0. reflexivity.
Qed.

Lemma dict_get_set_ne (d : pydict) (k k' : string) (v : value) :
  k <> k' -> dict_get (dict_set d k v) k' = dict_get d k'.
Proof.
  intros Hne. rewrite dict_get_set. apply String.eqb_neq in Hne. rewrite Hne. reflexivity.
Qed.

(** The fields that [submit_activity] writes. *)
Lemma prepare_fields_frame (target_audiences : list string) (tech : option tech_options_t)
    (d : pydict) (k : string) :
  k <> "Audience" -> k <> "Main Technology" -> k <> "Additional Technologies" ->
  k <> "Internal Notes" ->
  dict_get (fst (prepare_fields target_audiences tech d)) k = dict_get d k.
Proof.
  intros Ha Hm Hadd Hn. unfold prepare_fields.
  destruct_matches; cbn [fst]; repeat (rewrite dict_get_set_ne by congruence); reflexivity.
Qed.



Lemma fresh_loc_fresh (σ : gmap nat pydict) : σ !! fresh_loc σ = None.
Proof. apply not_elem_of_dom. unfold fresh_loc. apply is_fresh. Qed.

(** What [submit_activity] does to the objects: it adds the working copy
    and nothing else. *)
Lemma submit_activity_store (env : environment) (a : agent) (σ : gmap nat pydict)
    (record : nat) (w : world) (d : pydict) :
  σ !! record = Some d ->
  snd (fst (submit_activity env a σ record w))
  = <[fresh_loc σ := snd (fst (prepare_activity a d))]> σ.
Proof.
  intros Hd. unfold submit_activity. rewrite Hd.
  destruct (prepare_activity a d) as [[a1 wd] [msg|]]; cbn [fst snd]; [reflexivity|].
  destruct (submit_attempts env (Z.to_nat max_attempts) 0 a1 w) as [[r a2] w']. reflexivity.
Qed.

(** ** The retry loop of the orchestrator *)




Lemma lookup_after_copy (σ : gmap nat pydict) (record : nat) (d wd : pydict) :
  σ !! record = Some d -> <[fresh_loc σ := wd]> σ !! record = Some d.
Proof.
  intros Hd. rewrite lookup_insert_ne; [exact Hd|].
  intros E. rewrite <- E, fresh_loc_fresh in Hd. discriminate.
Qed.




(** C10: a submission leaves the caller's record as it was, in every
    field, whatever the outcome; the only object it adds is its working
    copy, and the working copy differs from the caller's record at most
    in Audience, Main Technology, Additional Technologies and Internal
    Notes. *)
Theorem C10_caller_record_unchanged (env : environment) (a : agent) (σ : gmap nat pydict)
    (record : nat) (w : world) (d : pydict) :
  σ !! record = Some d ->
  let σ' := snd (fst (submit_activity env a σ record w)) in
  σ' !! record = Some d /\
  (forall l : nat, is_Some (σ !! l) -> σ' !! l = σ !! l) /\
  exists working_copy : pydict,
    σ !! fresh_loc σ = None /\
    σ' = <[fresh_loc σ := working_copy]> σ /\
    forall k : string,
      k <> "Audience" -> k <> "Main Technology" -> k <> "Additional Technologies" ->
      k <> "Internal Notes" ->
      dict_get working_copy k = dict_get d k.
Proof.
  intros Hd σ'. subst σ'. rewrite (submit_activity_store env a σ record w d Hd).
  split; [|split].
  - apply lookup_after_copy. exact Hd.
  - intros l [x Hl]. rewrite lookup_insert_ne; [reflexivity|].
    intros E. rewrite <- E, fresh_loc_fresh in Hl. discriminate.
  - eexists. split; [apply fresh_loc_fresh|]. split; [reflexivity|].
    intros k Ha Hm Hadd Hn. unfold prepare_activity.
    destruct (prepare_fields (target_audiences_of a) (_tech_options (ensure_tech_options a)) d)
      as [wd e] eqn:E.
    cbn [fst snd].
    pose proof (prepare_fields_frame (target_audiences_of a)
                  (_tech_options (ensure_tech_options a)) d k Ha Hm Hadd Hn) as Hf.
    rewrite E in Hf. exact Hf.
Qed.

Lemma C10_caller_record_unchanged_witness :
  snd (fst (submit_activity (failing_env "HTTP 429 Too Many Requests") (agent_init true)
              sample_store 0%nat world_init)) !! 0%nat
  = Some sample_record.
Proof.
  refine (proj1 (C10_caller_record_unchanged (failing_env "HTTP 429 Too Many Requests")
                   (agent_init true) sample_store 0%nat world_init sample_record _)).
  reflexivity.
Defined.

(** ** Key normalization *)

Lemma dict_set_keys_in (d : pydict) (k : string) (v : value) :
  k ∈ map fst d -> map fst (dict_set d k v) = map fst d.
Proof.
  induction d as [|[k0 v0] r IH]; cbn; intros Hin.
  - apply elem_of_nil in Hin. destruct Hin.
  - destruct (String.eqb k0 k) eqn:E; cbn; [reflexivity|].
    f_equal. apply IH. apply elem_of_cons in Hin as [->|Hin]; [|exact Hin].
    rewrite String.eqb_refl in E. discriminate.
Qed.

Lemma dict_set_fresh (d : pydict) (k : string) (v : value) :
  k ∉ map fst d -> dict_set d k v = (d ++ [(k, v)])%list.
Proof.
  induction d as [|[k0 v0] r IH]; cbn; intros Hnin; [reflexivity|].
  destruct (String.eqb k0 k) eqn:E.
  - apply String.eqb_eq in E. subst k0. exfalso. apply Hnin. apply list_elem_of_here.
  - f_equal. apply IH. intros Hin. apply Hnin. apply list_elem_of_further. exact Hin.
Qed.

Lemma dict_set_keys (d : pydict) (k : string) (v : value) :
  map fst (dict_set d k v) = map fst d \/ 
  ((k ∉ map fst d) /\ map fst (dict_set d k v) = (map fst d ++ [k])%list).
Proof.
  destruct (decide (k ∈ map fst d)) as [Hin|Hnin].
  - left. apply dict_set_keys_in. exact Hin.
  - right. split; [exact Hnin|]. rewrite dict_set_fresh by exact Hnin.
    rewrite map_app. reflexivity.
Qed.

(** The keys that a normalized record can have: those that the table
    leaves alone. *)
Lemma mapping_get_idem (k : string) :
  mapping_get mapping (mapping_get mapping k) = mapping_get mapping k.
Proof.
  unfold mapping. cbn [mapping_get].
  repeat match goal with
         | |- context [String.eqb ?s k] =>
             lazymatch s with
             | k => fail
             | _ => destruct (String.eqb s k) eqn:?; [vm_compute; reflexivity|]
             end
         end.
  repeat match goal with H : String.eqb _ k = false |- _ => rewrite H; clear H end.
  reflexivity.
Qed.

Lemma normalized_keys_set (d : pydict) (k : string) (v : value) :
  normalized_keys d -> mapping_get mapping k = k -> normalized_keys (dict_set d k v).
Proof.
  intros [Hnd Hall] Hk. unfold normalized_keys.
  destruct (dict_set_keys d k v) as [E | [Hnin E]]; rewrite E.
  - split; assumption.
  - split.
    + apply NoDup_app. split; [exact Hnd|]. split.
      * intros x Hx Hx'. apply list_elem_of_singleton in Hx'. subst x. contradiction.
      * apply NoDup_singleton.
    + apply Forall_app. split; [exact Hall|]. apply Forall_singleton. exact Hk.
Qed.

Lemma normalize_loop_keys (activity acc : pydict) :
  normalized_keys acc ->
  normalized_keys
    (fold_left (fun act kv => dict_set act (mapping_get mapping (fst kv)) (snd kv))
       activity acc).
Proof.
  revert acc. induction activity as [|[k v] rest IH]; intros acc Hacc; cbn; [exact Hacc|].
  apply IH. apply normalized_keys_set; [exact Hacc | apply mapping_get_idem].
Qed.

(** On a record whose keys are already canonical and distinct, the loop
    rebuilds the record item by item. *)
Lemma normalize_loop_rebuild (activity acc : pydict) :
  normalized_keys (acc ++ activity)%list ->
  fold_left (fun act kv => dict_set act (mapping_get mapping (fst kv)) (snd kv)) activity acc
  = (acc ++ activity)%list.
Proof.
  revert acc. induction activity as [|[k v] rest IH]; intros acc [Hnd Hall];
    cbn [fold_left fst snd].
  - rewrite app_nil_r. reflexivity.
  - rewrite map_app in Hnd, Hall. cbn in Hnd, Hall.
    assert (Hk : mapping_get mapping k = k).
    { apply Forall_app in Hall as [_ Hall]. apply Forall_cons in Hall as [Hk _]. exact Hk. }
    assert (Hnin : k ∉ map fst acc).
    { apply NoDup_app in Hnd as (_ & Hdis & _). intros Hin. apply (Hdis k Hin).
      apply list_elem_of_here. }
    rewrite Hk, dict_set_fresh by exact Hnin.
    rewrite IH.
    + rewrite <- app_assoc. reflexivity.
    + unfold normalized_keys. rewrite <- app_assoc. cbn. rewrite map_app. cbn.
      split; assumption.
Qed.

Lemma dict_has_set (d : pydict) (k : string) (v : value) :
  dict_has (dict_set d k v) k = true.
Proof. unfold dict_has. rewrite dict_get_set, String.eqb_refl. reflexivity. Qed.

(** C9: key normalization is idempotent; the two results are equal item
    by item, in the same order. *)
Theorem C9_normalize_idempotent (x : pydict) :
  _normalize_activity_keys (_normalize_activity_keys x) = _normalize_activity_keys x.
Proof.
  set (y := _normalize_activity_keys x).
  assert (Hkeys : normalized_keys y).
  { subst y. unfold _normalize_activity_keys.
    assert (H0 : normalized_keys []) by (split; constructor).
    pose proof (normalize_loop_keys x [] H0) as Hloop.
    destruct (negb _ || _); [|exact Hloop].
    apply normalized_keys_set; [exact Hloop | reflexivity]. }
  assert (Hq : (negb (dict_has y "Quantity") || is_none_or_empty (dict_get y "Quantity")) = false).
  { subst y. unfold _normalize_activity_keys.
    match goal with |- context [fold_left ?f x []] => set (act := fold_left f x []) end.
    destruct (negb (dict_has act "Quantity") || is_none_or_empty (dict_get act "Quantity")) eqn:E.
    - rewrite dict_has_set, dict_get_set, String.eqb_refl. reflexivity.
    - exact E. }
  unfold _normalize_activity_keys at 1.
  rewrite (normalize_loop_rebuild y []) by exact Hkeys.
  cbn [app]. rewrite Hq. reflexivity.
Qed.

(** ** The order of the sort *)

Lemma string_ltb_lt (a b : string) :
  String.ltb a b = true <-> OrderedTypeEx.String_as_OT.lt a b.
Proof.
  rewrite <- OrderedTypeEx.String_as_OT.cmp_lt. unfold String.ltb, OrderedTypeEx.String_as_OT.cmp.
  destruct (String.compare a b); split; congruence.
Qed.

Lemma string_ltb_trans (a b c : string) :
  String.ltb a b = true -> String.ltb b c = true -> String.ltb a c = true.
Proof.
  rewrite !string_ltb_lt. apply OrderedTypeEx.String_as_OT.lt_trans.
Qed.

Lemma string_ltb_irrefl (a : string) : String.ltb a a = false.
Proof.
  unfold String.ltb. replace (String.compare a a) with Eq; [reflexivity|].
  symmetry. apply OrderedTypeEx.String_as_OT.cmp_eq. reflexivity.
Qed.

Lemma string_ltb_total (a b : string) :
  String.ltb a b = false -> a = b \/ String.ltb b a = true.
Proof.
  unfold String.ltb. rewrite (String.compare_antisym a b).
  destruct (String.compare b a) eqn:E; cbn; intros H; try discriminate.
  - left. symmetry. apply OrderedTypeEx.String_as_OT.cmp_eq. exact E.
  - right. reflexivity.
Qed.

Lemma tuple_ltb_irrefl (x : Z * string) : tuple_ltb x x = false.
Proof.
  unfold tuple_ltb. rewrite Z.ltb_irrefl, Z.eqb_refl, string_ltb_irrefl. reflexivity.
Qed.

Lemma tuple_ltb_trans (x y z : Z * string) :
  tuple_ltb x y = true -> tuple_ltb y z = true -> tuple_ltb x z = true.
Proof.
  unfold tuple_ltb. destruct x as [a s], y as [b t], z as [c u]. cbn [fst snd].
  rewrite !orb_true_iff, !andb_true_iff, !Z.ltb_lt, !Z.eqb_eq.
  intros [H1 | [H1 H1']] [H2 | [H2 H2']]; try (left; lia).
  right. split; [lia | eapply string_ltb_trans; eassumption].
Qed.

Lemma tuple_ltb_total (x y : Z * string) :
  tuple_ltb x y = false -> x = y \/ tuple_ltb y x = true.
Proof.
  unfold tuple_ltb. destruct x as [a s], y as [b t]. cbn [fst snd].
  rewrite orb_false_iff, andb_false_iff, orb_true_iff, andb_true_iff,
    Z.ltb_ge, Z.ltb_lt, Z.eqb_neq, Z.eqb_eq.
  intros [H1 [H2 | H2]].
  - right. left. lia.
  - destruct (Z.eq_dec a b) as [->|Hne]; [|right; left; lia].
    destruct (string_ltb_total s t H2) as [-> | H3]; [left; reflexivity|].
    right. right. split; [reflexivity | exact H3].
Qed.

(** "Not below" is transitive: the order is total. *)
Lemma tuple_not_ltb_trans (x y z : Z * string) :
  tuple_ltb x y = false -> tuple_ltb y z = false -> tuple_ltb x z = false.
Proof.
  intros Hxy Hyz. destruct (tuple_ltb x z) eqn:Hxz; [|reflexivity].
  destruct (tuple_ltb_total x y Hxy) as [-> | Hyx]; [congruence|].
  destruct (tuple_ltb_total y z Hyz) as [-> | Hzy].
  - pose proof (tuple_ltb_trans _ _ _ Hyx Hxz) as H. rewrite tuple_ltb_irrefl in H. discriminate.
  - pose proof (tuple_ltb_trans _ _ _ Hzy (tuple_ltb_trans _ _ _ Hyx Hxz)) as H.
    rewrite tuple_ltb_irrefl in H. discriminate.
Qed.

Lemma tuple_ltb_asym (x y : Z * string) : tuple_ltb x y = true -> tuple_ltb y x = false.
Proof.
  intros Hxy. destruct (tuple_ltb y x) eqn:Hyx; [|reflexivity].
  pose proof (tuple_ltb_trans _ _ _ Hxy Hyx) as H. rewrite tuple_ltb_irrefl in H. discriminate.
Qed.

Lemma insert_desc_elem (e x : Z * string) (l : list (Z * string)) :
  e ∈ insert_desc x l <-> e = x \/ e ∈ l.
Proof.
  induction l as [|y r IH]; cbn.
  - rewrite list_elem_of_singleton, elem_of_nil. tauto.
  - destruct (tuple_ltb x y); rewrite !elem_of_cons; [rewrite IH|]; tauto.
Qed.

Lemma sort_desc_elem (e : Z * string) (l : list (Z * string)) :
  e ∈ sort_desc l <-> e ∈ l.
Proof.
  induction l as [|x r IH]; cbn; [reflexivity|].
  rewrite insert_desc_elem, elem_of_cons, IH. reflexivity.
Qed.

Lemma insert_desc_sorted (x : Z * string) (l : list (Z * string)) :
  StronglySorted (fun a b => tuple_ltb a b = false) l ->
  StronglySorted (fun a b => tuple_ltb a b = false) (insert_desc x l).
Proof.
  induction l as [|y r IH]; cbn; intros Hs.
  - constructor; [constructor | constructor].
  - apply StronglySorted_inv in Hs as [Hr Hy].
    destruct (tuple_ltb x y) eqn:E.
    + constructor; [apply IH; exact Hr|].
      apply Forall_forall. intros e He. apply insert_desc_elem in He as [-> | He].
      * apply tuple_ltb_asym. exact E.
      * rewrite Forall_forall in Hy. apply Hy. exact He.
    + constructor; [constructor; assumption|].
      constructor; [exact E|].
      eapply Forall_impl; [exact Hy|]. intros e He. cbn beta in He.
      eapply tuple_not_ltb_trans; eassumption.
Qed.

(** The sort puts the list in descending order and keeps its elements. *)
Lemma sort_desc_sorted (l : list (Z * string)) :
  StronglySorted (fun a b => tuple_ltb a b = false) (sort_desc l).
Proof.
  induction l as [|x r IH]; cbn; [constructor|]. apply insert_desc_sorted. exact IH.
Qed.

Lemma sort_desc_head (l t : list (Z * string)) (h e : Z * string) :
  sort_desc l = h :: t -> e ∈ l -> tuple_ltb h e = false.
Proof.
  intros Hs He. pose proof (sort_desc_sorted l) as Hsorted. rewrite Hs in Hsorted.
  apply StronglySorted_inv in Hsorted as [_ Hall].
  apply sort_desc_elem in He. rewrite Hs in He. apply elem_of_cons in He as [-> | He].
  - apply tuple_ltb_irrefl.
  - rewrite Forall_forall in Hall. apply Hall. exact He.
Qed.

(** ** The technology chooser *)

Lemma take_distinct_elem (cands : list string) :
  forall (acc : list string) (x : string),
    x ∈ take_distinct cands acc -> x ∈ acc \/ x ∈ cands.
Proof.
  induction cands as [|opt rest IH]; intros acc x Hx; cbn in Hx; [left; exact Hx|].
  assert (Hacc' : forall y, y ∈ (if decide (opt ∈ acc) then acc else (acc ++ [opt])%list) ->
                            y ∈ acc \/ y = opt).
  { intros y Hy. destruct (decide (opt ∈ acc)); [left; exact Hy|].
    apply elem_of_app in Hy as [Hy|Hy]; [left; exact Hy|].
    right. apply list_elem_of_singleton in Hy. exact Hy. }
  destruct (2 <=? _).
  - apply Hacc' in Hx as [Hx | ->]; [left; exact Hx | right; apply list_elem_of_here].
  - apply IH in Hx as [Hx | Hx].
    + apply Hacc' in Hx as [Hx | ->]; [left; exact Hx | right; apply list_elem_of_here].
    + right. apply list_elem_of_further. exact Hx.
Qed.

Lemma clean_distinct_elem (cands : list string) :
  forall (acc : list string) (x : string),
    x ∈ clean_distinct cands acc -> x ∈ acc \/ (x ∈ cands /\ x <> "").
Proof.
  induction cands as [|a rest IH]; intros acc x Hx; cbn in Hx; [left; exact Hx|].
  destruct (String.eqb a "") eqn:Ea.
  - apply IH in Hx as [Hx | [Hx Hne]]; [left; exact Hx|].
    right. split; [apply list_elem_of_further; exact Hx | exact Hne].
  - apply String.eqb_neq in Ea.
    assert (Hacc' : forall y, y ∈ (if decide (a ∈ acc) then acc else (acc ++ [a])%list) ->
                              y ∈ acc \/ y = a).
    { intros y Hy. destruct (decide (a ∈ acc)); [left; exact Hy|].
      apply elem_of_app in Hy as [Hy|Hy]; [left; exact Hy|].
      right. apply list_elem_of_singleton in Hy. exact Hy. }
    destruct (2 <=? _).
    + apply Hacc' in Hx as [Hx | ->]; [left; exact Hx|].
      right. split; [apply list_elem_of_here | exact Ea].
    + apply IH in Hx as [Hx | [Hx Hne]].
      * apply Hacc' in Hx as [Hx | ->]; [left; exact Hx|].
        right. split; [apply list_elem_of_here | exact Ea].
      * right. split; [apply list_elem_of_further; exact Hx | exact Hne].
Qed.

Lemma clean_distinct_length (cands : list string) :
  forall acc : list string,
    (length acc < 2)%nat -> (length (clean_distinct cands acc) <= 2)%nat.
Proof.
  induction cands as [|a rest IH]; intros acc Hlen; cbn; [lia|].
  destruct (String.eqb a ""); [apply IH; exact Hlen|].
  assert (Hacc' : (length (if decide (a ∈ acc) then acc else (acc ++ [a])%list) <= 2)%nat).
  { destruct (decide (a ∈ acc)); [lia|]. rewrite length_app. cbn. lia. }
  destruct (2 <=? _) eqn:E; [exact Hacc'|].
  apply IH. apply Z.leb_gt in E. lia.
Qed.

Lemma pad_two_length (l : list string) : (length l <= 2)%nat -> length (pad_two l) = 2%nat.
Proof. intros H. unfold pad_two. rewrite length_app, repeat_length. lia. Qed.

Lemma pad_two_elem (l : list string) (x : string) : x ∈ pad_two l -> x ∈ l \/ x = "".
Proof.
  unfold pad_two. intros Hx. apply elem_of_app in Hx as [Hx|Hx]; [left; exact Hx|].
  right. apply list_elem_of_In, repeat_spec in Hx. exact Hx.
Qed.

Lemma source_list_elem (opts : tech_options_t) (x : string) :
  x ∈ source_list opts -> x ∈ (primary opts ++ additional opts)%list.
Proof.
  unfold source_list. intros Hx. apply elem_of_app.
  destruct (primary opts) as [|p ps]; [destruct (additional opts) as [|q qs]|]; auto.
Qed.

Lemma source_list_nonempty (opts : tech_options_t) :
  (primary opts ++ additional opts)%list <> [] -> source_list opts <> [].
Proof.
  unfold source_list. destruct (primary opts) as [|p ps]; [|discriminate].
  destruct (additional opts) as [|q qs]; [intros H; exact H | discriminate].
Qed.

(** The main choice over a non-empty source list: an option of the list;
    either it scores above zero and no option is above it in the order of
    the sort, or no option scores above zero and it is the first one. *)
Lemma choose_primary_spec (tokens : gset string) (src additional_opts : list string) :
  src <> [] ->
  exists o : string,
    choose_primary tokens src additional_opts = Some o /\
    o ∈ src /\
    ((0 < score tokens o /\
      forall o' : string, o' ∈ src ->
                          tuple_ltb (score tokens o, o) (score tokens o', o') = false) \/
     ((forall o' : string, o' ∈ src -> score tokens o' <= 0) /\ head src = Some o)).
Proof.
  intros Hne. unfold choose_primary.
  destruct src as [|p ps]; [congruence|]. clear Hne.
  set (src := p :: ps).
  destruct (sort_desc (map (fun opt => (score tokens opt, opt)) src)) as [|[s o] t] eqn:Es.
  - exfalso. assert (H : (score tokens p, p) ∈ sort_desc (map (fun opt => (score tokens opt, opt)) src)).
    { apply sort_desc_elem. apply list_elem_of_here. }
    rewrite Es in H. apply elem_of_nil in H. exact H.
  - assert (Hin : (s, o) ∈ map (fun opt => (score tokens opt, opt)) src).
    { apply sort_desc_elem. rewrite Es. apply list_elem_of_here. }
    apply list_elem_of_fmap in Hin as (o0 & Heq & Ho0). injection Heq as -> ->.
    assert (Hmax : forall o', o' ∈ src ->
                              tuple_ltb (score tokens o0, o0) (score tokens o', o') = false).
    { intros o' Ho'. eapply sort_desc_head; [exact Es|].
      apply (list_elem_of_fmap_2 (fun opt => (score tokens opt, opt))). exact Ho'. }
    destruct (0 <? score tokens o0) eqn:Epos.
    + exists o0. split; [reflexivity|]. split; [exact Ho0|]. left.
      split; [apply Z.ltb_lt; exact Epos | exact Hmax].
    + exists p. split; [reflexivity|]. split; [apply list_elem_of_here|]. right.
      split; [|reflexivity]. intros o' Ho'. apply Z.ltb_ge in Epos.
      specialize (Hmax o' Ho'). unfold tuple_ltb in Hmax. cbn [fst snd] in Hmax.
      apply orb_false_iff in Hmax as [Hlt _]. apply Z.ltb_ge in Hlt. lia.
Qed.

Lemma choose_primary_empty (tokens : gset string) :
  choose_primary tokens [] [] = None.
Proof. reflexivity. Qed.

Lemma scored_additional_elem (tokens : gset string) (src additional_opts : list string)
    (primary_choice : option string) (x : string) :
  x ∈ map snd (scored_additional tokens src additional_opts primary_choice) ->
  x ∈ (additional_opts ++ src)%list.
Proof.
  unfold scored_additional. intros Hx.
  apply list_elem_of_fmap in Hx as ([s o] & -> & Hso). cbn [snd].
  apply (proj1 (sort_desc_elem _ _)) in Hso.
  apply list_elem_of_fmap in Hso as (o' & Heq & Ho').
  injection Heq as -> ->. apply list_elem_of_filter in Ho' as [_ Ho'].
  apply elem_of_app in Ho' as [Ho'|Ho']; apply elem_of_app; [left; exact Ho'|].
  right. apply list_elem_of_filter in Ho' as [_ Ho']. exact Ho'.
Qed.

Lemma take_distinct_prefix (cands : list string) :
  forall acc : list string, acc `prefix_of` take_distinct cands acc.
Proof.
  induction cands as [|opt rest IH]; intros acc; cbn; [reflexivity|].
  assert (Hacc' : acc `prefix_of` (if decide (opt ∈ acc) then acc else (acc ++ [opt])%list)).
  { destruct (decide (opt ∈ acc)); [reflexivity | apply prefix_app_r; reflexivity]. }
  destruct (2 <=? _); [exact Hacc'|].
  etransitivity; [exact Hacc' | apply IH].
Qed.

Lemma clean_distinct_prefix (cands : list string) :
  forall acc : list string, acc `prefix_of` clean_distinct cands acc.
Proof.
  induction cands as [|a rest IH]; intros acc; cbn; [reflexivity|].
  destruct (String.eqb a ""); [apply IH|].
  assert (Hacc' : acc `prefix_of` (if decide (a ∈ acc) then acc else (acc ++ [a])%list)).
  { destruct (decide (a ∈ acc)); [reflexivity | apply prefix_app_r; reflexivity]. }
  destruct (2 <=? _); [exact Hacc'|].
  etransitivity; [exact Hacc' | apply IH].
Qed.

Lemma head_of_prefix (o : string) (l l' : list string) :
  (o :: l) `prefix_of` l' -> head l' = Some o.
Proof. intros [k ->]. reflexivity. Qed.

Lemma take_distinct_head (o : string) (rest : list string) :
  exists l, take_distinct (o :: rest) [] = o :: l.
Proof.
  cbn. destruct (decide (o ∈ [])) as [H|_]; [apply elem_of_nil in H; destruct H|].
  cbn. destruct (take_distinct_prefix rest [o]) as [k ->]. exists k. reflexivity.
Qed.

Lemma clean_distinct_head (o : string) (rest : list string) :
  o <> "" -> exists l, clean_distinct (o :: rest) [] = o :: l.
Proof.
  intros Hne. cbn. apply String.eqb_neq in Hne. rewrite Hne.
  destruct (decide (o ∈ [])) as [H|_]; [apply elem_of_nil in H; destruct H|].
  cbn. destruct (clean_distinct_prefix rest [o]) as [k ->]. exists k. reflexivity.
Qed.

(** C5 as stated fails on its second half: an option set whose only
    option is the empty string has an option, and the main choice is the
    empty string. *)
Lemma C5_counterexample :
  let opts := {| primary := [""]; additional := [] |} in
  (primary opts ++ additional opts)%list <> [] /\
  _choose_tech_areas "Talk" "About Python" opts = ("", [""; ""]).
Proof. split; [discriminate | vm_compute; reflexivity]. Qed.

(** C5, amended: the chooser returns exactly two additional slots, each
    the empty string or an option of the set; whenever the set has an
    option, the main choice is one of its options, hence a non-empty
    string whenever, in addition, no option of the set is the empty
    string. *)
Theorem C5_choose_two_slots (title description : string) (opts : tech_options_t) :
  let main := fst (_choose_tech_areas title description opts) in
  let slots := snd (_choose_tech_areas title description opts) in
  let options := (primary opts ++ additional opts)%list in
  length slots = 2%nat /\
  Forall (fun s => s = "" \/ s ∈ options) slots /\
  (options <> [] -> main ∈ options) /\
  (options <> [] -> Forall (fun o => o <> "") options -> main <> "").
Proof.
  intros main slots options.
  assert (Hmain : options <> [] -> main ∈ options).
  { intros Hne. subst main options. unfold _choose_tech_areas. cbn [fst].
    destruct (choose_primary_spec (title_tokens title description) (source_list opts)
                (additional opts) (source_list_nonempty opts Hne)) as (o & -> & Ho & _).
    apply source_list_elem. exact Ho. }
  split; [|split; [|split]].
  - subst slots. unfold _choose_tech_areas. cbn [snd].
    apply pad_two_length. apply clean_distinct_length. cbn. lia.
  - subst slots options. unfold _choose_tech_areas. cbn [snd].
    apply Forall_forall. intros x Hx.
    apply pad_two_elem in Hx as [Hx | ->]; [|left; reflexivity].
    apply clean_distinct_elem in Hx as [Hx | [Hx _]]; [apply elem_of_nil in Hx; destruct Hx|].
    apply pad_two_elem in Hx as [Hx | ->]; [|left; reflexivity].
    right.
    assert (Hpool : forall y, y ∈ (additional opts ++ source_list opts)%list ->
                              y ∈ (primary opts ++ additional opts)%list).
    { intros y Hy. apply elem_of_app in Hy as [Hy|Hy].
      - apply elem_of_app. right. exact Hy.
      - apply source_list_elem. exact Hy. }
    assert (Hfirst : forall y,
               y ∈ take_distinct
                     (map snd (scored_additional (title_tokens title description)
                                 (source_list opts) (additional opts)
                                 (choose_primary (title_tokens title description)
                                    (source_list opts) (additional opts)))) [] ->
               y ∈ (primary opts ++ additional opts)%list).
    { intros y Hy. apply take_distinct_elem in Hy as [Hy|Hy];
        [apply elem_of_nil in Hy; destruct Hy|].
      apply Hpool. eapply scored_additional_elem. exact Hy. }
    destruct (_ <? 2) in Hx; [|apply Hfirst; exact Hx].
    apply take_distinct_elem in Hx as [Hx|Hx]; [apply Hfirst; exact Hx|].
    apply list_elem_of_filter in Hx as [_ Hx]. apply Hpool. exact Hx.
  - exact Hmain.
  - intros Hne Hall. rewrite Forall_forall in Hall. apply Hall. apply Hmain. exact Hne.
Qed.

Lemma C5_choose_two_slots_witness :
  fst (_choose_tech_areas "Intro to Azure Functions" "Python and serverless"
         {| primary := ["Cloud Computing"; "Web Development"];
            additional := ["Python"; "JavaScript"] |}) <> "".
Proof.
  refine (proj2 (proj2 (proj2
            (C5_choose_two_slots "Intro to Azure Functions" "Python and serverless"
               {| primary := ["Cloud Computing"; "Web Development"];
                  additional := ["Python"; "JavaScript"] |}))) _ _).
  - discriminate.
  - repeat constructor; discriminate.
Defined.

(** C7 as stated fails.  Two primary options tie on the token "cloud":
    the main choice is the second of the list.  Two additional options
    tie on the token "azure": they are taken in the reverse of their list
    order. *)
Lemma C7_counterexample :
  score (title_tokens "Cloud basics" "") "Cloud Computing"
  = score (title_tokens "Cloud basics" "") "Cloud Security" /\
  _choose_tech_areas "Cloud basics" ""
    {| primary := ["Cloud Computing"; "Cloud Security"]; additional := [] |}
  = ("Cloud Security", ["Cloud Computing"; ""]) /\
  score (title_tokens "Azure basics" "") "Azure Functions"
  = score (title_tokens "Azure basics" "") "Azure Storage" /\
  _choose_tech_areas "Azure basics" ""
    {| primary := ["Web Development"];
       additional := ["Azure Functions"; "Azure Storage"] |}
  = ("Web Development", ["Azure Storage"; "Azure Functions"]).
Proof. repeat split; vm_compute; reflexivity. Qed.

(** C7, amended: when some option of the source list scores above zero,
    the main choice has the highest score, and among the options with
    that score it is the greatest string (character by character), not
    the first in the list; when no option scores above zero, the main
    choice is the first option of the source list.  The additional
    candidates are ranked in the same descending order of score, then
    string, and the first additional slot is the first of that ranking. *)
Theorem C7_ties_by_string_order (title description : string) (opts : tech_options_t) :
  let tokens := title_tokens title description in
  let src := source_list opts in
  let main := fst (_choose_tech_areas title description opts) in
  let scored_add :=
    scored_additional tokens src (additional opts)
      (choose_primary tokens src (additional opts)) in
  ((exists o : string, o ∈ src /\ 0 < score tokens o) ->
   main ∈ src /\
   forall o : string,
     o ∈ src ->
     score tokens o <= score tokens main /\
     (score tokens o = score tokens main -> String.ltb main o = false)) /\
  (src <> [] -> (forall o : string, o ∈ src -> score tokens o <= 0) ->
   head src = Some main) /\
  StronglySorted (fun x y => tuple_ltb x y = false) scored_add /\
  (forall (s : Z) (o : string) (rest : list (Z * string)),
      scored_add = (s, o) :: rest -> o <> "" ->
      head (snd (_choose_tech_areas title description opts)) = Some o).
Proof.
  intros tokens src main scored_add.
  assert (Hmain : main = match choose_primary tokens src (additional opts) with
                         | Some p => p
                         | None => ""
                         end) by reflexivity.
  clearbody main.
  split; [|split; [|split]].
  - intros (o1 & Ho1 & Hpos).
    assert (Hne : src <> []) by (intros E; rewrite E in Ho1; apply elem_of_nil in Ho1; exact Ho1).
    destruct (choose_primary_spec tokens src (additional opts) Hne)
      as (o & Ho & Hin & [[_ Hmax] | [Hzero _]]).
    + rewrite Ho in Hmain. subst main. split; [exact Hin|].
      intros o' Ho'. specialize (Hmax o' Ho'). unfold tuple_ltb in Hmax. cbn [fst snd] in Hmax.
      apply orb_false_iff in Hmax as [Hlt Heq]. apply Z.ltb_ge in Hlt.
      split; [exact Hlt|]. intros E. rewrite E, Z.eqb_refl in Heq. exact Heq.
    + specialize (Hzero o1 Ho1). lia.
  - intros Hne Hzero.
    destruct (choose_primary_spec tokens src (additional opts) Hne)
      as (o & Ho & Hin & [[Hpos _] | [_ Hhead]]).
    + specialize (Hzero o Hin). lia.
    + rewrite Ho in Hmain. subst main. exact Hhead.
  - subst scored_add. unfold scored_additional. apply sort_desc_sorted.
  - intros s o rest Hsc Hne. unfold _choose_tech_areas. cbn [snd].
    fold tokens. fold src. fold scored_add. rewrite Hsc. cbn [map snd].
    destruct (take_distinct_head o (map snd rest)) as [l1 ->].
    match goal with
    | |- context [pad_two (if ?c then ?x else ?y)] =>
        assert (Hp : (o :: nil) `prefix_of` (if c then x else y))
    end.
    { destruct (_ <? 2).
      - etransitivity; [|apply take_distinct_prefix]. exists l1. reflexivity.
      - exists l1. reflexivity. }
    destruct Hp as [k ->]. cbn [app]. unfold pad_two at 2. cbn [app].
    destruct (clean_distinct_head o (k ++ repeat "" (2 - length (o :: k)))%list Hne) as [l2 ->].
    reflexivity.
Qed.

Lemma C7_ties_by_string_order_witness :
  head (source_list {| primary := ["Cloud Computing"; "Cloud Security"]; additional := [] |})
  = Some (fst (_choose_tech_areas "Data basics" ""
                 {| primary := ["Cloud Computing"; "Cloud Security"]; additional := [] |})).
Proof.
  refine (proj1 (proj2 (C7_ties_by_string_order "Data basics" ""
                          {| primary := ["Cloud Computing"; "Cloud Security"];
                             additional := [] |})) _ _).
  - discriminate.
  - intros o Ho. vm_compute in Ho.
    apply elem_of_cons in Ho as [-> | Ho]; [vm_compute; discriminate|].
    apply elem_of_cons in Ho as [-> | Ho]; [vm_compute; discriminate|].
    apply elem_of_nil in Ho. destruct Ho.
Defined.

(** ** Text operations *)

Lemma chars_text_of (l : list ascii) : chars (text_of l) = l.
Proof. apply list_ascii_of_string_of_list_ascii. Qed.

Lemma text_of_chars (s : string) : text_of (chars s) = s.
Proof. apply string_of_list_ascii_of_string. Qed.

Lemma length_chars (s : string) : length (chars s) = String.length s.
Proof. induction s as [|c s IH]; cbn; [reflexivity | f_equal; exact IH]. Qed.

Lemma len_text_of (l : list ascii) : len (text_of l) = Z.of_nat (length l).
Proof. unfold len. rewrite <- length_chars, chars_text_of. reflexivity. Qed.

Lemma len_chars (s : string) : len s = Z.of_nat (length (chars s)).
Proof. unfold len. rewrite length_chars. reflexivity. Qed.

Lemma chars_append (s t : string) : chars (s ++ t) = (chars s ++ chars t)%list.
Proof.
  unfold chars. induction s as [|c s IH]; [reflexivity|].
  change (c :: list_ascii_of_string (s ++ t) = c :: (list_ascii_of_string s ++ list_ascii_of_string t)%list).
  f_equal. exact IH.
Qed.

Lemma drop_while_length (p : ascii -> bool) (l : list ascii) :
  (length (drop_while p l) <= length l)%nat.
Proof.
  induction l as [|c r IH]; cbn; [lia|]. destruct (p c); cbn; lia.
Qed.

Lemma drop_while_end_length (p : ascii -> bool) (l : list ascii) :
  (length (drop_while_end p l) <= length l)%nat.
Proof.
  unfold drop_while_end. rewrite length_rev.
  etransitivity; [apply drop_while_length|]. rewrite length_rev. lia.
Qed.

Lemma strip_len (s : string) : len (strip s) <= len s.
Proof.
  unfold strip. rewrite len_text_of, len_chars.
  pose proof (drop_while_end_length is_space (drop_while is_space (chars s))).
  pose proof (drop_while_length is_space (chars s)). lia.
Qed.

Lemma slice_to_len (n : Z) (s : string) :
  0 <= n -> len (slice_to n s) = Z.min n (len s).
Proof.
  intros Hn. unfold slice_to. rewrite len_text_of, length_take, len_chars. lia.
Qed.

(** The result of the search from the right: the default when the
    character does not occur, else an index of the searched range. *)
Lemma rfind_from_spec (c : ascii) (l : list ascii) :
  forall i acc : Z,
    (rfind_from c l i acc = acc /\ c ∉ l) \/
    (i <= rfind_from c l i acc < i + Z.of_nat (length l)).
Proof.
  induction l as [|x r IH]; intros i acc; cbn [rfind_from].
  - left. split; [reflexivity | apply not_elem_of_nil].
  - destruct (Ascii.eqb x c) eqn:E.
    + right. destruct (IH (i + 1) i) as [[-> _] | H]; cbn [length]; lia.
    + destruct (IH (i + 1) acc) as [[-> Hnin] | H].
      * left. split; [reflexivity|]. intros Hin. apply elem_of_cons in Hin as [-> | Hin].
        -- rewrite Ascii.eqb_refl in E. discriminate.
        -- contradiction.
      * right. cbn [length]. lia.
Qed.

Lemma rfind_spec (c : ascii) (s : string) :
  (rfind c s = -1 /\ c ∉ chars s) \/ (0 <= rfind c s < len s).
Proof.
  unfold rfind. rewrite len_chars.
  destruct (rfind_from_spec c (chars s) 0 (-1)) as [H | H]; [left; exact H | right; lia].
Qed.

Lemma ends_with_punct_dot (s : string) : ends_with_punct (s ++ ".") = true.
Proof.
  unfold ends_with_punct. rewrite chars_append, rev_app_distr. reflexivity.
Qed.

Lemma len_append (s t : string) : len (s ++ t) = len s + len t.
Proof. rewrite !len_chars, chars_append, length_app. lia. Qed.

Lemma close_sentence_spec (t : string) :
  ends_with_punct (close_sentence t) = true /\ len (close_sentence t) <= len t + 1.
Proof.
  unfold close_sentence. destruct (ends_with_punct t) eqn:E.
  - split; [exact E | lia].
  - split; [apply ends_with_punct_dot|]. rewrite len_append. change (len ".") with 1. lia.
Qed.

(** ** Character limits *)

(** The cut position computed from the first [limit] characters: none
    when they hold no full stop and no blank, else an index among them. *)
Lemma cutoff_spec (limit : Z) (t : string) :
  0 <= limit ->
  let tmp := slice_to limit t in
  let cutoff := if rfind "." tmp =? -1 then rfind " " tmp else rfind "." tmp in
  len tmp <= limit /\
  ((cutoff = -1 /\ ~ has_boundary limit t) \/ 0 <= cutoff < len tmp).
Proof.
  intros Hl tmp cutoff.
  assert (Hchars : chars tmp = take (Z.to_nat limit) (chars t)).
  { subst tmp. unfold slice_to. apply chars_text_of. }
  split.
  { subst tmp. rewrite slice_to_len by exact Hl. lia. }
  subst cutoff. unfold has_boundary. rewrite <- Hchars.
  destruct (rfind_spec "." tmp) as [[E1 Hn1] | H1].
  - rewrite E1. change (-1 =? -1) with true. cbv iota.
    destruct (rfind_spec " " tmp) as [[E2 Hn2] | H2].
    + left. split; [exact E2 | tauto].
    + right. exact H2.
  - right. destruct (rfind "." tmp =? -1) eqn:E; [apply Z.eqb_eq in E; lia | exact H1].
Qed.

(** The cut made after a response that is too long. *)
Lemma cut_at_boundary_len (limit : Z) (t : string) :
  0 <= limit ->
  len (cut_at_boundary limit t) <= limit /\
  (has_boundary limit t -> len (cut_at_boundary limit t) <= limit - 1).
Proof.
  intros Hl. unfold cut_at_boundary, rfind_upto.
  destruct (cutoff_spec limit t Hl) as [Htmp Hcut]. cbv zeta in Hcut.
  set (cutoff := if rfind "." (slice_to limit t) =? -1
                 then rfind " " (slice_to limit t)
                 else rfind "." (slice_to limit t)) in *.
  destruct Hcut as [[E Hnb] | Hc].
  - rewrite E. change (negb (-1 =? -1)) with false. cbv iota.
    pose proof (strip_len (slice_to limit t)). split; [lia | tauto].
  - assert (En : negb (cutoff =? -1) = true) by (apply negb_true_iff, Z.eqb_neq; lia).
    rewrite En. pose proof (strip_len (slice_to cutoff t)) as Hs.
    rewrite slice_to_len in Hs by lia. split; [lia|]. intros _. lia.
Qed.

(** The cut made when the text generator fails. *)
Lemma fallback_len (desc : string) :
  let tmp := slice_to 850 desc in
  let cutoff := if rfind "." tmp =? -1 then rfind " " tmp else rfind "." tmp in
  let new_desc := strip (slice_to (if negb (cutoff =? -1) then cutoff else len tmp) tmp) in
  len new_desc <= 850 /\ (has_boundary 850 desc -> len new_desc <= 849).
Proof.
  intros tmp cutoff new_desc.
  destruct (cutoff_spec 850 desc ltac:(lia)) as [Htmp Hcut]. cbv zeta in Hcut.
  fold tmp in Htmp, Hcut. fold cutoff in Hcut. subst new_desc.
  destruct Hcut as [[E Hnb] | Hc].
  - rewrite E. change (negb (-1 =? -1)) with false. cbv iota.
    pose proof (strip_len (slice_to (len tmp) tmp)) as Hs.
    rewrite slice_to_len in Hs by (unfold len; lia). split; [lia | tauto].
  - assert (En : negb (cutoff =? -1) = true) by (apply negb_true_iff, Z.eqb_neq; lia).
    rewrite En. pose proof (strip_len (slice_to cutoff tmp)) as Hs.
    rewrite slice_to_len in Hs by lia. split; [lia|]. intros _. lia.
Qed.

(** What the Description rewrite yields, by the answer of the text
    generator. *)
Lemma rewrite_description_spec (desc : string) (g : generation) :
  let stored := rewrite_description desc g in
  match g with
  | ProviderError =>
      ends_with_punct stored = true /\ (has_boundary 850 desc -> len stored <= 850)
  | Generated content =>
      if 850 <? len (response_text content)
      then ends_with_punct stored = true /\
           (has_boundary 850 (response_text content) -> len stored <= 850)
      else stored = response_text content /\ len stored <= 850
  end.
Proof.
  intros stored. subst stored. destruct g as [content|]; cbn [rewrite_description].
  - destruct (850 <? len (response_text content)) eqn:E.
    + destruct (close_sentence_spec (cut_at_boundary 850 (response_text content))) as [Hp Hl].
      split; [exact Hp|]. intros Hb.
      destruct (cut_at_boundary_len 850 (response_text content) ltac:(lia)) as [_ Hc].
      specialize (Hc Hb). lia.
    + split; [reflexivity|]. apply Z.ltb_ge in E. exact E.
  - pose proof (fallback_len desc) as Hf. cbv zeta in Hf.
    match goal with
    | |- context [close_sentence ?x] => destruct (close_sentence_spec x) as [Hp Hl]
    end.
    split; [exact Hp|]. intros Hb. destruct Hf as [_ Hf]. specialize (Hf Hb). lia.
Qed.

Lemma enforce_notes_description (sha256_hex : string -> string) (generator : nat -> generation)
    (st : enrich_state) (act : pydict) :
  dict_get (snd (enforce_notes sha256_hex generator st act)) "Description"
  = dict_get act "Description".
Proof.
  unfold enforce_notes.
  destruct_matches; cbn [snd]; try reflexivity; apply dict_get_set_ne; discriminate.
Qed.

(** The Description half on a Description above the hard limit: the
    cached rewrite when the cache holds a non-empty one, else the rewrite
    made from the answer of the text generator. *)
Lemma enforce_description_spec (sha256_hex : string -> string) (generator : nat -> generation)
    (st : enrich_state) (act : pydict) (desc : string) :
  dict_get act "Description" = Some (VStr desc) ->
  1000 < len desc ->
  let act' := snd (enforce_description sha256_hex generator st act) in
  let cached :=
    _CacheStore_get (cache_data st) "rewrite850" (_hash sha256_hex ["desc850"; desc]) in
  (exists hit : string,
      cached = Some hit /\ hit <> "" /\ dict_get act' "Description" = Some (VStr hit)) \/
  ((cached = None \/ cached = Some "") /\
   dict_get act' "Description"
   = Some (VStr (rewrite_description desc (generator (generations st))))).
Proof.
  intros Hd Hlen act' cached. subst act' cached. unfold enforce_description.
  rewrite Hd. apply Z.ltb_lt in Hlen. rewrite Hlen.
  destruct (_CacheStore_get (cache_data st) "rewrite850" (_hash sha256_hex ["desc850"; desc]))
    as [hit|] eqn:E.
  - destruct (String.eqb hit "") eqn:Eh; cbn [negb snd].
    + apply String.eqb_eq in Eh. subst hit. right. split; [right; reflexivity|].
      rewrite dict_get_set, String.eqb_refl. reflexivity.
    + apply String.eqb_neq in Eh. left. exists hit. split; [reflexivity|]. split; [exact Eh|].
      rewrite dict_get_set, String.eqb_refl. reflexivity.
  - cbn [snd]. right. split; [left; reflexivity|].
    rewrite dict_get_set, String.eqb_refl. reflexivity.
Qed.

(** Every record of the stage goes through the two halves of the loop
    body, in some state of the cache. *)
Lemma enforce_char_limits_lookup (sha256_hex : string -> string)
    (generator : nat -> generation) (activities : list pydict) :
  forall (st : enrich_state) (i : nat) (act : pydict),
    activities !! i = Some act ->
    exists st_i : enrich_state,
      snd (enforce_char_limits sha256_hex generator st activities) !! i
      = Some (snd (enforce_notes sha256_hex generator
                     (fst (enforce_description sha256_hex generator st_i act))
                     (snd (enforce_description sha256_hex generator st_i act)))).
Proof.
  induction activities as [|a rest IH]; intros st i act Hi; [discriminate|].
  cbn [enforce_char_limits].
  destruct (enforce_description sha256_hex generator st a) as [st1 act1] eqn:E1.
  destruct (enforce_notes sha256_hex generator st1 act1) as [st2 act2] eqn:E2.
  specialize (IH st2).
  destruct (enforce_char_limits sha256_hex generator st2 rest) as [st3 rest'] eqn:E3.
  cbn [snd] in *. destruct i as [|i].
  - cbn in Hi. injection Hi as <-. exists st. rewrite E1. cbn [fst snd]. rewrite E2. reflexivity.
  - cbn in Hi. destruct (IH i act Hi) as [st_i Hst]. exists st_i. exact Hst.
Qed.

(** C6 as stated fails.  With an empty cache and a text generator that
    answers "ok" for a Description of 1200 characters, the stored
    Description is "ok", which does not end a sentence; with a cache that
    holds a rewrite for the Description, the cached text is stored as it
    is. *)
Lemma C6_counterexample :
  1000 < len (unbroken_text 1200) /\
  dict_get long_record "Description" = Some (VStr (unbroken_text 1200)) /\
  map (fun act => dict_get act "Description")
    (snd (enforce_char_limits plain_digest (fun _ => Generated (Some "ok"))
            empty_enrich_state [long_record]))
  = [Some (VStr "ok")] /\
  ends_with_punct "ok" = false /\
  map (fun act => dict_get act "Description")
    (snd (enforce_char_limits plain_digest (fun _ => ProviderError)
            {| cache_data :=
                 _CacheStore_set (cache_data empty_enrich_state) "rewrite850"
                   (_hash plain_digest ["desc850"; unbroken_text 1200]) "cached words";
               generations := 0 |}
            [long_record]))
  = [Some (VStr "cached words")] /\
  ends_with_punct "cached words" = false.
Proof. repeat split; vm_compute; reflexivity. Qed.

(** The cut that finds no full stop and no blank keeps 850 characters and
    appends the full stop: 851 characters. *)
Example fallback_without_boundary :
  len (rewrite_description (unbroken_text 1200) ProviderError) = 851 /\
  len (rewrite_description "" (Generated (Some (unbroken_text 900)))) = 851.
Proof. split; vm_compute; reflexivity. Qed.

(** The state in which the stage reaches record [i] is the one that the
    stage leaves after the records before it. *)
Lemma enforce_char_limits_lookup_at (sha256_hex : string -> string)
    (generator : nat -> generation) (activities : list pydict) :
  forall (st : enrich_state) (i : nat) (act : pydict),
    activities !! i = Some act ->
    let st_i := fst (enforce_char_limits sha256_hex generator st (take i activities)) in
    snd (enforce_char_limits sha256_hex generator st activities) !! i
    = Some (snd (enforce_notes sha256_hex generator
                   (fst (enforce_description sha256_hex generator st_i act))
                   (snd (enforce_description sha256_hex generator st_i act)))).
Proof.
  induction activities as [|a rest IH]; intros st i act Hi; [discriminate|].
  destruct i as [|i].
  - cbn in Hi. injection Hi as ->. cbn [take enforce_char_limits fst].
    destruct (enforce_description sha256_hex generator st act) as [st1 act1].
    cbn [fst snd].
    destruct (enforce_notes sha256_hex generator st1 act1) as [st2 act2].
    destruct (enforce_char_limits sha256_hex generator st2 rest) as [st3 rest'].
    reflexivity.
  - cbn in Hi. cbn [take enforce_char_limits].
    destruct (enforce_description sha256_hex generator st a) as [st1 act1].
    destruct (enforce_notes sha256_hex generator st1 act1) as [st2 act2].
    specialize (IH st2 i act Hi). cbn zeta in IH.
    destruct (enforce_char_limits sha256_hex generator st2 rest) as [st3 rest'].
    destruct (enforce_char_limits sha256_hex generator st2 (take i rest)) as [st4 pre'].
    cbn [fst snd] in *. exact IH.
Qed.

(** C6, amended: for a record whose Description exceeds 1000 characters,
    the stage stores a Description that is determined by the cache and
    the generator as the run finds them when it reaches the record, that
    is, after the records before it.  When that cache holds a non-empty
    rewrite for the Description, this rewrite is stored as it is.
    Otherwise the stored text is the rewrite made from the answer of the
    text generator to the call of that moment: when the generator fails,
    or answers with more than 850 characters, the rewrite ends with '.',
    '!' or '?', and has at most 850 characters provided a full stop or a
    blank occurs among the first 850 characters of the text that is cut
    (the Description for a failure, the answer otherwise); when the
    generator answers with at most 850 characters, the answer is stored
    as it is. *)
Theorem C6_description_rewrite (sha256_hex : string -> string) (generator : nat -> generation)
    (st : enrich_state) (activities : list pydict) (i : nat) (act : pydict)
    (desc : string) :
  activities !! i = Some act ->
  dict_get act "Description" = Some (VStr desc) ->
  1000 < len desc ->
  let st_i := fst (enforce_char_limits sha256_hex generator st (take i activities)) in
  let cached :=
    _CacheStore_get (cache_data st_i) "rewrite850" (_hash sha256_hex ["desc850"; desc]) in
  let g := generator (generations st_i) in
  exists (act' : pydict) (stored : string),
    snd (enforce_char_limits sha256_hex generator st activities) !! i = Some act' /\
    dict_get act' "Description" = Some (VStr stored) /\
    (forall hit : string, cached = Some hit -> hit <> "" -> stored = hit) /\
    (cached = None \/ cached = Some "" ->
     stored = rewrite_description desc g /\
     match g with
     | ProviderError =>
         ends_with_punct stored = true /\ (has_boundary 850 desc -> len stored <= 850)
     | Generated content =>
         if 850 <? len (response_text content)
         then ends_with_punct stored = true /\
              (has_boundary 850 (response_text content) -> len stored <= 850)
         else stored = response_text content /\ len stored <= 850
     end).
Proof.
  intros Hi Hd Hlen st_i cached g.
  pose proof (enforce_char_limits_lookup_at sha256_hex generator activities st i act Hi) as Hat.
  cbn zeta in Hat. fold st_i in Hat.
  eexists. 
  destruct (enforce_description_spec sha256_hex generator st_i act desc Hd Hlen)
    as [(hit & Hc & Hne & Hget) | [Hmiss Hget]]; fold cached in Hc || fold cached in Hmiss.
  - exists hit. split; [exact Hat|]. rewrite enforce_notes_description.
    split; [exact Hget|]. split.
    + intros hit' Hc' _. rewrite Hc in Hc'. injection Hc' as <-. reflexivity.
    + intros [Hn|He]; rewrite Hc in *; [discriminate|]. injection He as ->. contradiction.
  - exists (rewrite_description desc g). split; [exact Hat|]. rewrite enforce_notes_description.
    split; [exact Hget|]. split.
    + intros hit Hc Hne. destruct Hmiss as [Hn|He]; rewrite Hc in *; [discriminate|].
      injection He as ->. contradiction.
    + intros _. split; [reflexivity|]. apply rewrite_description_spec.
Qed.

Lemma C6_description_rewrite_witness :
  let st_i :=
    fst (enforce_char_limits plain_digest (fun _ => ProviderError) empty_enrich_state
           (take 0 [spaced_record])) in
  let cached :=
    _CacheStore_get (cache_data st_i) "rewrite850"
      (_hash plain_digest ["desc850"; spaced_text 240]) in
  let g := (fun _ : nat => ProviderError) (generations st_i) in
  exists (act' : pydict) (stored : string),
    snd (enforce_char_limits plain_digest (fun _ => ProviderError) empty_enrich_state
           [spaced_record]) !! 0%nat = Some act' /\
    dict_get act' "Description" = Some (VStr stored) /\
    (forall hit : string, cached = Some hit -> hit <> "" -> stored = hit) /\
    (cached = None \/ cached = Some "" ->
     stored = rewrite_description (spaced_text 240) g /\
     match g with
     | ProviderError =>
         ends_with_punct stored = true /\
         (has_boundary 850 (spaced_text 240) -> len stored <= 850)
     | Generated content =>
         if 850 <? len (response_text content)
         then ends_with_punct stored = true /\
              (has_boundary 850 (response_text content) -> len stored <= 850)
         else stored = response_text content /\ len stored <= 850
     end).
Proof.
  refine (C6_description_rewrite plain_digest (fun _ => ProviderError) empty_enrich_state
            [spaced_record] 0%nat spaced_record (spaced_text 240) _ _ _).
  - reflexivity.
  - reflexivity.
  - vm_compute. reflexivity.
Defined.

(** * Further properties of the code *)

(** ** Backoff: bounds and the circuit flag *)

Lemma scheduled_backoff_upper (base : Q) (count : Z) :
  (0 < base)%Q -> 1 <= count ->
  (scheduled_backoff base count <= Qmax (base * 64) 10)%Q.
Proof.
  intros Hb Hc. unfold scheduled_backoff.
  assert (Hpow : (base * inject_Z (2 ^ Z.min (count - 1) 6) <= base * 64)%Q).
  { apply Qmult_le_l; [assumption|].
    change 64%Q with (inject_Z (2 ^ 6)). rewrite <- Zle_Qle.
    apply Z.pow_le_mono_r; lia. }
  destruct (5 <=? count).
  - apply Q.max_le_compat_r. exact Hpow.
  - eapply Qle_trans; [exact Hpow | apply Q.le_max_l].
Qed.

Lemma scheduled_backoff_lower (base : Q) (count : Z) :
  (0 < base)%Q -> 1 <= count -> (base <= scheduled_backoff base count)%Q.
Proof.
  intros Hb Hc.
  eapply Qle_trans; [|apply (scheduled_backoff_mono base 1 count Hb); lia].
  unfold scheduled_backoff. change (5 <=? 1) with false.
  change (2 ^ Z.min (1 - 1) 6) with 1. cbv iota. change (inject_Z 1) with 1%Q. lra.
Qed.

(** X1: every delay returned by the backoff computation lies between the
    base and [max(64 * base, 10) + 1] seconds: 33 seconds with the normal
    preset and 17 with the fast one. *)
Theorem X1_backoff_delay_bounded (a : agent) (now u : Q) :
  0 <= _recent_429 a ->
  (0 < _rate_backoff_base a)%Q ->
  (0 <= u <= 1)%Q ->
  let delay := snd (_compute_backoff a now u) in
  (_rate_backoff_base a <= delay <= Qmax (_rate_backoff_base a * 64) 10 + 1)%Q /\
  (_rate_backoff_base a == 0.5 -> delay <= 33)%Q /\
  (_rate_backoff_base a == 0.25 -> delay <= 17)%Q.
Proof.
  intros Hc Hb Hu delay. subst delay. rewrite compute_backoff_unfold. cbn [snd].
  pose proof (backoff_before_jitter_spec a now Hc) as Hspec. cbn zeta in Hspec.
  destruct Hspec as (_ & _ & _ & _ & Hd). rewrite Hd.
  set (count := if window_expired a now then 1 else _recent_429 a + 1).
  assert (H1 : 1 <= count) by (subst count; destruct (window_expired a now); lia).
  pose proof (scheduled_backoff_upper _ count Hb H1) as Hup.
  pose proof (scheduled_backoff_lower _ count Hb H1) as Hlo.
  assert (H0 : (0 <= scheduled_backoff (_rate_backoff_base a) count)%Q) by lra.
  pose proof (jitter_of_range _ u H0 Hu) as [Hj0 Hj1].
  assert (Hjb : (jitter_bound (scheduled_backoff (_rate_backoff_base a) count) <= 1)%Q)
    by apply Q.le_min_l.
  assert (Hmain : (_rate_backoff_base a
                   <= scheduled_backoff (_rate_backoff_base a) count
                      + jitter_of (scheduled_backoff (_rate_backoff_base a) count) u
                   <= Qmax (_rate_backoff_base a * 64) 10 + 1)%Q) by (split; lra).
  split; [exact Hmain|]. destruct Hmain as [_ Hmain].
  split; intros Hbase.
  - assert (Hm : (Qmax (_rate_backoff_base a * 64) 10 <= 32)%Q).
    { apply Q.max_lub; [rewrite Hbase|]; vm_compute; discriminate. }
    lra.
  - assert (Hm : (Qmax (_rate_backoff_base a * 64) 10 <= 16)%Q).
    { apply Q.max_lub; [rewrite Hbase|]; vm_compute; discriminate. }
    lra.
Qed.

Lemma X1_backoff_delay_bounded_witness :
  (snd (_compute_backoff (agent_init false) 0 (1 # 2)) <= 33)%Q.
Proof.
  refine (proj1 (proj2 (X1_backoff_delay_bounded (agent_init false) 0%Q (1 # 2)%Q _ _ _)) _).
  - simpl. lia.
  - reflexivity.
  - split; vm_compute; discriminate.
  - reflexivity.
Defined.

(** The invariant of the counter and the flag. *)
Lemma circuit_invariant_step (a : agent) (now : Q) :
  0 <= _recent_429 a ->
  (_circuit_open a = true <-> 5 <= _recent_429 a) ->
  let a' := fst (backoff_before_jitter a now) in
  1 <= _recent_429 a' /\ (_circuit_open a' = true <-> 5 <= _recent_429 a').
Proof.
  intros Hc Hinv a'. subst a'.
  pose proof (backoff_before_jitter_spec a now Hc) as Hspec. cbn zeta in Hspec.
  destruct Hspec as (Hcount & _ & _ & Hopen & _). rewrite Hopen, Hcount.
  destruct (window_expired a now).
  - split; [lia|]. cbn. split; [discriminate | lia].
  - split; [lia|]. rewrite orb_true_iff, Z.leb_le. split.
    + intros [H | H]; [apply Hinv in H; lia | exact H].
    + intros H. right. exact H.
Qed.

(** X2: after any sequence of overload signals on an agent whose counter
    is zero and whose circuit is closed, the circuit flag is set exactly
    when the in-window count is at least 5; the count is never negative,
    and it is zero only if no signal came. *)
Theorem X2_circuit_open_iff_count (a0 : agent) (sigs : list (Q * Q)) :
  _recent_429 a0 = 0 ->
  _circuit_open a0 = false ->
  let a := fst (overload_signals a0 sigs) in
  (_circuit_open a = true <-> 5 <= _recent_429 a) /\
  0 <= _recent_429 a /\
  (_recent_429 a = 0 -> sigs = []).
Proof.
  intros H0 Hclosed a. subst a.
  assert (Hgen : forall (sigs : list (Q * Q)) (a : agent),
             0 <= _recent_429 a ->
             (_circuit_open a = true <-> 5 <= _recent_429 a) ->
             let a' := fst (overload_signals a sigs) in
             (_circuit_open a' = true <-> 5 <= _recent_429 a') /\
             0 <= _recent_429 a' /\
             (sigs <> [] -> 1 <= _recent_429 a')).
  { clear. induction sigs as [|[now u] rest IH]; intros a Hc Hinv; cbn zeta.
    - cbn. split; [exact Hinv|]. split; [exact Hc | congruence].
    - cbn [overload_signals]. rewrite compute_backoff_unfold.
      destruct (circuit_invariant_step a now Hc Hinv) as [H1 Hinv1].
      specialize (IH (fst (backoff_before_jitter a now)) ltac:(lia) Hinv1). cbn zeta in IH.
      destruct (overload_signals (fst (backoff_before_jitter a now)) rest) as [a2 ds] eqn:E.
      cbn [fst] in *. destruct IH as (Hi & Hn & Hrest).
      split; [exact Hi|]. split; [exact Hn|]. intros _.
      destruct rest as [|s r]; [|apply Hrest; discriminate].
      cbn in E. injection E as <- _. exact H1. }
  destruct (Hgen sigs a0) as (Hi & Hn & Hpos).
  - lia.
  - rewrite H0, Hclosed. split; [discriminate | lia].
  - split; [exact Hi|]. split; [exact Hn|]. intros Hz.
    destruct sigs as [|s r]; [reflexivity|]. specialize (Hpos ltac:(discriminate)). lia.
Qed.

Lemma X2_circuit_open_iff_count_witness :
  _circuit_open
    (fst (overload_signals (agent_init true)
            [(0, 0); (1, 0); (2, 0); (3, 0); (4, 0); (100, 0)]%Q)) = true
  <-> 5 <= _recent_429
             (fst (overload_signals (agent_init true)
                     [(0, 0); (1, 0); (2, 0); (3, 0); (4, 0); (100, 0)]%Q)).
Proof.
  refine (proj1 (X2_circuit_open_iff_count (agent_init true)
                   [(0, 0); (1, 0); (2, 0); (3, 0); (4, 0); (100, 0)]%Q _ _)).
  - reflexivity.
  - reflexivity.
Defined.

(** ** The retry loops: how often the executor is invoked *)

Lemma submit_attempts_invocations (env : environment) (remaining : nat) :
  forall (attempt : Z) (a : agent) (w : world),
    (invocations w <= invocations (snd (submit_attempts env remaining attempt a w))
     <= invocations w + remaining)%nat.
Proof.
  induction remaining as [|r IH]; intros attempt a w; cbn [submit_attempts].
  - cbn. lia.
  - unfold invoke. destruct (executor env (invocations w)) as [content|msg]; [cbn; lia|].
    destruct (is_rate_limit msg).
    + match goal with |- context [call_backoff env a ?w1] =>
        pose proof (call_backoff_invocations env a w1) as Hinv;
        destruct (call_backoff env a w1) as [[a' backoff] w2]
      end.
      cbn [snd invocations] in Hinv.
      specialize (IH (attempt + 1) a' (emit (emit w2 (EvSleep backoff)) EvSnapshot)).
      cbn [emit invocations] in IH. lia.
    + destruct (is_snapshot_error msg); [|cbn; lia].
      destruct (attempt <? max_attempts - 1); [|cbn; lia].
      match goal with |- context [submit_attempts env r (attempt + 1) a ?w1] =>
        specialize (IH (attempt + 1) a w1)
      end.
      cbn [emit invocations] in IH. lia.
Qed.

Lemma submit_activity_invocations (env : environment) (a : agent) (σ : gmap nat pydict)
    (record : nat) (w : world) :
  (invocations w <= invocations (snd (submit_activity env a σ record w))
   <= invocations w + 3)%nat.
Proof.
  unfold submit_activity. destruct (σ !! record) as [d|]; [|cbn; lia].
  destruct (prepare_activity a d) as [[a1 wd] [msg|]]; [cbn; lia|].
  pose proof (submit_attempts_invocations env (Z.to_nat max_attempts) 0 a1 w) as H.
  destruct (submit_attempts env (Z.to_nat max_attempts) 0 a1 w) as [[r a2] w'].
  cbn [snd] in *. change (Z.to_nat max_attempts) with 3%nat in H. exact H.
Qed.

Lemma submit_with_retries_invocations (env : environment) (remaining : nat) :
  forall (retry : Z) (a : agent) (σ : gmap nat pydict) (reviewed : nat) (w : world),
    (invocations w
     <= invocations (snd (submit_with_retries env remaining retry a σ reviewed w))
     <= invocations w + 3 * remaining)%nat.
Proof.
  induction remaining as [|r IH]; intros retry a σ reviewed w; cbn [submit_with_retries].
  - cbn. lia.
  - pose proof (submit_activity_invocations env a σ reviewed w) as Hs.
    destruct (submit_activity env a σ reviewed w) as [[[[content|msg] a1] σ1] w1];
      cbn [snd] in Hs; [cbn; lia|].
    destruct (retry <? max_activity_retries - 1); [|cbn; lia].
    destruct (mentions_snapshot msg).
    + match goal with |- context [submit_with_retries env r ?x ?y ?z ?u ?v] =>
        specialize (IH x y z u v) end.
      cbn [emit invocations] in IH. lia.
    + destruct (is_rate_limit msg).
      * pose proof (call_backoff_invocations env a1 w1) as Hinv.
        destruct (call_backoff env a1 w1) as [[a2 backoff] w2]. cbn [snd] in Hinv.
        match goal with |- context [submit_with_retries env r ?x ?y ?z ?u ?v] =>
          specialize (IH x y z u v) end.
        cbn [emit invocations] in IH. lia.
      * match goal with |- context [submit_with_retries env r ?x ?y ?z ?u ?v] =>
          specialize (IH x y z u v) end.
        cbn [emit invocations] in IH. lia.
Qed.

(** X3: whatever the executor answers, one submission invokes it at most
    3 times and the orchestrator's loop for one record at most 9 times;
    neither ever lowers the invocation count. *)
Theorem X3_invocations_bounded (env : environment) (a : agent) (σ : gmap nat pydict)
    (record : nat) (w : world) :
  (invocations w <= invocations (snd (submit_activity env a σ record w))
   <= invocations w + 3)%nat /\
  (invocations w <= invocations (snd (process_record env a σ record w))
   <= invocations w + 9)%nat.
Proof.
  split; [apply submit_activity_invocations|].
  unfold process_record. change (Z.to_nat max_activity_retries) with 3%nat.
  pose proof (submit_with_retries_invocations env 3 0 a σ record w). lia.
Qed.

(** X4: when the executor answers the first invocation for a prepared
    record, the submission returns that answer and the record is processed
    after exactly one invocation, with no sleep, no snapshot and no change
    to the backoff state. *)
Theorem X4_first_response_succeeds (env : environment) (a a1 : agent) (σ : gmap nat pydict)
    (reviewed : nat) (w : world) (d activity_data : pydict) (content : option string) :
  σ !! reviewed = Some d ->
  prepare_activity a d = (a1, activity_data, None) ->
  executor env (invocations w) = Response content ->
  fst (fst (fst (submit_activity env a σ reviewed w))) = Returned content /\
  (let '(status, a', _, w') := process_record env a σ reviewed w in
   status = Succeeded /\
   invocations w' = S (invocations w) /\
   trace w' = (trace w ++ [EvInvoke])%list /\
   _recent_429 a' = _recent_429 a /\
   _first_429_ts a' = _first_429_ts a /\
   _circuit_open a' = _circuit_open a).
Proof.
  intros Hd Hp Hex.
  assert (Hrate : _recent_429 a1 = _recent_429 a /\ _first_429_ts a1 = _first_429_ts a /\
                  _circuit_open a1 = _circuit_open a).
  { unfold prepare_activity in Hp.
    destruct (prepare_fields _ _ d) as [wd e]. injection Hp as <- _ _.
    unfold ensure_tech_options. destruct (_tech_options a); repeat split; reflexivity. }
  assert (Hsub : submit_activity env a σ reviewed w
                 = (Returned content, a1, <[fresh_loc σ := activity_data]> σ,
                    {| invocations := S (invocations w);
                       backoff_calls := backoff_calls w;
                       trace := (trace w ++ [EvInvoke])%list |})).
  { rewrite (submit_activity_prepared env a a1 σ reviewed w d activity_data Hd Hp).
    cbn [submit_attempts]. unfold invoke. rewrite Hex. reflexivity. }
  split; [rewrite Hsub; reflexivity|].
  unfold process_record. change (Z.to_nat max_activity_retries) with 3%nat.
  cbn [submit_with_retries]. rewrite Hsub. cbn [invocations trace].
  destruct Hrate as (H1 & H2 & H3). repeat split; assumption.
Qed.

Lemma X4_first_response_succeeds_witness :
  fst (fst (fst (submit_activity
                   {| executor := fun _ => Response (Some "saved");
                      clock := fun _ => 0%Q; random := fun _ => 0%Q |}
                   (agent_init false) sample_store 0%nat world_init)))
  = Returned (Some "saved").
Proof.
  refine (proj1 (X4_first_response_succeeds
                   {| executor := fun _ => Response (Some "saved");
                      clock := fun _ => 0%Q; random := fun _ => 0%Q |}
                   (agent_init false) _ sample_store 0%nat world_init sample_record _
                   (Some "saved") _ _ _)).
  - reflexivity.
  - vm_compute. reflexivity.
  - reflexivity.
Defined.

(** ** The retry loops: sleeping only on overload *)

Lemma submit_attempts_without_overload (env : environment) (remaining : nat) :
  (forall (n : nat) (msg : string),
      executor env n = ExecutorError msg -> is_rate_limit msg = false) ->
  forall (attempt : Z) (a : agent) (w : world),
    let '(_, a', w') := submit_attempts env remaining attempt a w in
    a' = a /\
    backoff_calls w' = backoff_calls w /\
    exists added : list event,
      trace w' = (trace w ++ added)%list /\
      Forall (fun e => e = EvInvoke \/ e = EvSnapshot) added.
Proof.
  intros Hno. induction remaining as [|r IH]; intros attempt a w; cbn [submit_attempts].
  - split; [reflexivity|]. split; [reflexivity|]. exists []. rewrite app_nil_r.
    split; [reflexivity | constructor].
  - unfold invoke. destruct (executor env (invocations w)) as [content|msg] eqn:Hex.
    + split; [reflexivity|]. split; [reflexivity|]. exists [EvInvoke].
      split; [reflexivity|]. constructor; [left; reflexivity | constructor].
    + rewrite (Hno _ _ Hex). destruct (is_snapshot_error msg).
      * destruct (attempt <? max_attempts - 1).
        -- match goal with |- context [submit_attempts env r (attempt + 1) a ?w1] =>
             specialize (IH (attempt + 1) a w1);
             destruct (submit_attempts env r (attempt + 1) a w1) as [[res a'] w']
           end.
           destruct IH as (Ha & Hb & added & Ht & Hall). cbn [emit backoff_calls trace] in *.
           split; [exact Ha|]. split; [exact Hb|].
           exists (EvInvoke :: EvSnapshot :: added). split.
           ++ rewrite Ht, <- !app_assoc. reflexivity.
           ++ constructor; [left; reflexivity|]. constructor; [right; reflexivity | exact Hall].
        -- split; [reflexivity|]. split; [reflexivity|]. exists [EvInvoke].
           split; [reflexivity|]. constructor; [left; reflexivity | constructor].
      * split; [reflexivity|]. split; [reflexivity|]. exists [EvInvoke].
        split; [reflexivity|]. constructor; [left; reflexivity | constructor].
Qed.

(** X5: when no error of the executor is an overload signal, a submission
    never sleeps and never touches the backoff state: stale-reference
    errors are retried at once, after a snapshot only. *)
Theorem X5_no_overload_no_sleep (env : environment) (a : agent) (σ : gmap nat pydict)
    (record : nat) (w : world) :
  (forall (n : nat) (msg : string),
      executor env n = ExecutorError msg -> is_rate_limit msg = false) ->
  let '(_, a', _, w') := submit_activity env a σ record w in
  _recent_429 a' = _recent_429 a /\
  _first_429_ts a' = _first_429_ts a /\
  _circuit_open a' = _circuit_open a /\
  backoff_calls w' = backoff_calls w /\
  exists added : list event,
    trace w' = (trace w ++ added)%list /\
    Forall (fun e => e = EvInvoke \/ e = EvSnapshot) added.
Proof.
  intros Hno. unfold submit_activity. destruct (σ !! record) as [d|].
  2:{ repeat split. exists []. rewrite app_nil_r. split; [reflexivity | constructor]. }
  assert (Hrate : forall a1 wd e, prepare_activity a d = (a1, wd, e) ->
                                  _recent_429 a1 = _recent_429 a /\
                                  _first_429_ts a1 = _first_429_ts a /\
                                  _circuit_open a1 = _circuit_open a).
  { intros a1 wd e Hp. unfold prepare_activity in Hp.
    destruct (prepare_fields _ _ d) as [wd' e']. injection Hp as <- _ _.
    unfold ensure_tech_options. destruct (_tech_options a); repeat split; reflexivity. }
  destruct (prepare_activity a d) as [[a1 wd] [msg|]] eqn:Hp;
    destruct (Hrate a1 wd _ eq_refl) as (H1 & H2 & H3).
  - repeat split; try assumption. exists []. rewrite app_nil_r.
    split; [reflexivity | constructor].
  - pose proof (submit_attempts_without_overload env (Z.to_nat max_attempts) Hno 0 a1 w) as H.
    destruct (submit_attempts env (Z.to_nat max_attempts) 0 a1 w) as [[r a2] w'].
    destruct H as (-> & Hb & Hadd). repeat split; assumption.
Qed.

Lemma X5_no_overload_no_sleep_witness :
  backoff_calls
    (snd (submit_activity
            (failing_env "Error: Ref e12 not found in the current page snapshot")
            (agent_init false) sample_store 0%nat world_init))
  = backoff_calls world_init.
Proof.
  pose proof (X5_no_overload_no_sleep
                (failing_env "Error: Ref e12 not found in the current page snapshot")
                (agent_init false) sample_store 0%nat world_init) as H.
  destruct (submit_activity _ _ _ _ _) as [[[r a'] σ'] w'].
  refine (proj1 (proj2 (proj2 (proj2 (H _))))).
  intros n msg Hex. injection Hex as <-. vm_compute. reflexivity.
Defined.

(** ** Summaries: what the sanitizers guarantee *)

Lemma ends_with_punct_nonempty (t : string) : ends_with_punct t = true -> t <> "".
Proof. intros H ->. discriminate. Qed.

Lemma rstrip_dot_space_len (s : string) : len (rstrip_dot_space s) <= len s.
Proof.
  unfold rstrip_dot_space. rewrite len_text_of, len_chars.
  pose proof (drop_while_end_length (fun c => Ascii.eqb c "." || Ascii.eqb c " ") (chars s)).
  lia.
Qed.

Lemma close_sentence_rstrip_spec (t : string) :
  ends_with_punct (close_sentence_rstrip t) = true /\
  len (close_sentence_rstrip t) <= len t + 1.
Proof.
  unfold close_sentence_rstrip. destruct (ends_with_punct t) eqn:E.
  - split; [exact E | lia].
  - split; [apply ends_with_punct_dot|]. rewrite len_append. change (len ".") with 1.
    pose proof (rstrip_dot_space_len t). lia.
Qed.

Lemma len_nonneg (s : string) : 0 <= len s.
Proof. unfold len. lia. Qed.

Lemma len_pos_of_punct (t : string) : ends_with_punct t = true -> 1 <= len t.
Proof.
  intros H. destruct t as [|c t]; [discriminate|]. unfold len. cbn [String.length]. lia.
Qed.

(** The cap of the sanitizers: the text is kept when it fits, cut at a
    boundary otherwise. *)
Lemma capped_len (max_len : Z) (t : string) :
  0 <= max_len ->
  len (if max_len <? len t then cut_at_boundary max_len t else t) <= max_len.
Proof.
  intros Hm. destruct (max_len <? len t) eqn:E.
  - apply cut_at_boundary_len. exact Hm.
  - apply Z.ltb_ge in E. exact E.
Qed.

Lemma sanitize_private_description_shape (text : string) (max_len : Z) :
  0 <= max_len ->
  ends_with_punct (_sanitize_private_description text max_len) = true /\
  1 <= len (_sanitize_private_description text max_len) <= max_len + 1.
Proof.
  intros Hm. unfold _sanitize_private_description.
  set (t := strip (remove_trailing_ellipsis (strip (remove_urls (strip text))))).
  destruct (close_sentence_rstrip_spec (if max_len <? len t then cut_at_boundary max_len t else t))
    as [Hp Hl].
  pose proof (capped_len max_len t Hm) as Hc.
  split; [exact Hp|]. split; [apply len_pos_of_punct; exact Hp | lia].
Qed.

(** X8: the orchestrator's sanitizer always yields a non-empty text that
    ends with '.', '!' or '?' and has at most [max_len + 1] characters,
    whatever text it is given; a text of ASCII characters that is already
    clean (no blank at its ends, no URL, no final ellipsis, within the
    cap, ending a sentence) is returned as it is (the source first turns
    every em dash, which is not an ASCII character, into a hyphen). *)
Theorem X8_sanitize_bounds (text : string) (max_len : Z) :
  0 <= max_len ->
  ends_with_punct (_sanitize_private_description text max_len) = true /\
  1 <= len (_sanitize_private_description text max_len) <= max_len + 1 /\
  (Forall (fun c => code c < 128) (chars text) ->
   strip text = text -> remove_urls text = text -> remove_trailing_ellipsis text = text ->
   len text <= max_len -> ends_with_punct text = true ->
   _sanitize_private_description text max_len = text).
Proof.
  intros Hm. destruct (sanitize_private_description_shape text max_len Hm) as [Hp Hl].
  split; [exact Hp|]. split; [exact Hl|].
  intros _ Hs Hu He Hlen Hpunct. unfold _sanitize_private_description.
  rewrite Hs, Hu, Hs, He, Hs.
  assert (E : (max_len <? len text) = false) by (apply Z.ltb_ge; exact Hlen).
  rewrite E. unfold close_sentence_rstrip. rewrite Hpunct. reflexivity.
Qed.

Lemma X8_sanitize_bounds_witness :
  ends_with_punct
    (_sanitize_private_description "See https://example.org/x for the slides..." 400) = true /\
  _sanitize_private_description "A talk about Python." 400 = "A talk about Python.".
Proof.
  split.
  - refine (proj1 (X8_sanitize_bounds "See https://example.org/x for the slides..." 400 _)).
    lia.
  - refine (proj2 (proj2 (X8_sanitize_bounds "A talk about Python." 400 _)) _ _ _ _ _ _).
    + lia.
    + repeat (apply Forall_cons; split; [vm_compute; reflexivity|]). apply Forall_nil_2.
    + reflexivity.
    + reflexivity.
    + reflexivity.
    + vm_compute. discriminate.
    + reflexivity.
Defined.

Lemma generate_private_description_shape (description : string) :
  ends_with_punct (_generate_private_description description) = true /\
  1 <= len (_generate_private_description description) <= 401.
Proof.
  unfold _generate_private_description.
  set (t := strip (remove_urls (strip description))).
  destruct (String.eqb t ""); [vm_compute; repeat split; discriminate|].
  destruct (close_sentence_rstrip_spec (if 400 <? len t then cut_at_boundary 400 t else t))
    as [Hp Hl].
  pose proof (capped_len 400 t ltac:(lia)) as Hc.
  split; [exact Hp|]. split; [apply len_pos_of_punct; exact Hp | lia].
Qed.

(** X9: the agent's summary of a description is never empty, always ends
    with '.', '!' or '?' and has at most 401 characters; a description
    that is empty, blank or made of URLs only gives the stock sentence. *)
Theorem X9_generate_private_description_bounds (description : string) :
  ends_with_punct (_generate_private_description description) = true /\
  1 <= len (_generate_private_description description) <= 401 /\
  (strip (remove_urls (strip description)) = "" ->
   _generate_private_description description
   = "This is a concise internal summary for tracking this activity.").
Proof.
  destruct (generate_private_description_shape description) as [Hp Hl].
  split; [exact Hp|]. split; [exact Hl|].
  intros He. unfold _generate_private_description. rewrite He. reflexivity.
Qed.

Lemma X9_generate_private_description_bounds_witness :
  _generate_private_description " https://example.org/slides  "
  = "This is a concise internal summary for tracking this activity.".
Proof.
  refine (proj2 (proj2 (X9_generate_private_description_bounds " https://example.org/slides  ")) _).
  vm_compute. reflexivity.
Defined.

(** ** The preparation of a submission *)

(** Case analysis on every scrutinee of the goal, keeping the equations. *)
Ltac destruct_matches_eqn :=
  repeat match goal with
         | |- context [match ?x with _ => _ end] =>
             match x with
             | context [match _ with _ => _ end] => fail 1
             | _ => destruct x eqn:?
             end
         end.

Lemma dict_truthy_set_ne (d : pydict) (k k' : string) (v : value) :
  k <> k' -> dict_truthy (dict_set d k v) k' = dict_truthy d k'.
Proof. intros Hne. unfold dict_truthy. rewrite dict_get_set_ne by exact Hne. reflexivity. Qed.

Lemma dict_truthy_set (d : pydict) (k : string) (v : value) :
  dict_truthy (dict_set d k v) k = truthy v.
Proof. unfold dict_truthy. rewrite dict_get_set, String.eqb_refl. reflexivity. Qed.

Lemma target_audiences_nonempty (a : agent) : truthy (VList (target_audiences_of a)) = true.
Proof.
  unfold target_audiences_of. destruct (_target_audience_options a) as [[|x l]|]; reflexivity.
Qed.

Lemma generated_notes_truthy (description : string) :
  truthy (VStr (_generate_private_description description)) = true.
Proof.
  cbn [truthy]. apply negb_true_iff, String.eqb_neq, ends_with_punct_nonempty.
  apply generate_private_description_shape.
Qed.

(** A required field that the preparation does not write and that the
    record lacks makes the preparation raise. *)
Lemma prepare_fields_missing (target_audiences : list string) (tech : option tech_options_t)
    (d : pydict) (f : string) :
  f ∈ ["Category"; "Title"; "Description"; "URL"; "Date"; "Quantity"] ->
  dict_truthy d f = false ->
  snd (prepare_fields target_audiences tech d) <> None.
Proof.
  intros Hf Hfalse.
  assert (Hreq : f ∈ required_fields).
  { unfold required_fields. repeat (apply elem_of_cons in Hf as [-> | Hf]);
      [..|apply elem_of_nil in Hf; destruct Hf];
      repeat (first [apply list_elem_of_here | apply list_elem_of_further]). }
  assert (Hne : f <> "Audience" /\ f <> "Main Technology" /\
                f <> "Additional Technologies" /\ f <> "Internal Notes").
  { repeat (apply elem_of_cons in Hf as [-> | Hf]);
      [..|apply elem_of_nil in Hf; destruct Hf]; repeat split; discriminate. }
  destruct Hne as (N1 & N2 & N3 & N4).
  unfold prepare_fields. destruct_matches_eqn; cbn [snd]; try discriminate;
    match goal with
    | H : filter _ required_fields = [] |- _ =>
        exfalso; refine (filter_nil_not_elem_of _ _ f H _ Hreq);
        repeat (rewrite dict_truthy_set_ne by congruence); rewrite Hfalse; exact I
    end.
Qed.

Lemma submit_activity_missing (env : environment) (a : agent) (σ : gmap nat pydict)
    (record : nat) (w : world) (d : pydict) (f : string) :
  σ !! record = Some d ->
  f ∈ ["Category"; "Title"; "Description"; "URL"; "Date"; "Quantity"] ->
  dict_truthy d f = false ->
  exists (msg : string) (a1 : agent) (wd : pydict),
    submit_activity env a σ record w = (Raised msg, a1, <[fresh_loc σ := wd]> σ, w).
Proof.
  intros Hd Hf Hfalse. unfold submit_activity. rewrite Hd.
  pose proof (prepare_fields_missing (target_audiences_of a)
                (_tech_options (ensure_tech_options a)) d f Hf Hfalse) as Hne.
  unfold prepare_activity.
  destruct (prepare_fields _ _ d) as [wd [msg|]]; [|cbn in Hne; congruence].
  exists msg, (ensure_tech_options a), wd. reflexivity.
Qed.

Lemma submit_with_retries_missing (env : environment) (reviewed : nat) (d : pydict)
    (f : string) (remaining : nat) :
  f ∈ ["Category"; "Title"; "Description"; "URL"; "Date"; "Quantity"] ->
  dict_truthy d f = false ->
  forall (retry : Z) (a : agent) (σ : gmap nat pydict) (w : world),
    σ !! reviewed = Some d ->
    (1 <= remaining)%nat ->
    3 <= retry + Z.of_nat remaining ->
    let '(status, _, _, w') := submit_with_retries env remaining retry a σ reviewed w in
    status = MarkedFailed /\ invocations w' = invocations w.
Proof.
  intros Hf Hfalse. induction remaining as [|r IH]; intros retry a σ w Hd Hr Hsum; [lia|].
  cbn [submit_with_retries].
  destruct (submit_activity_missing env a σ reviewed w d f Hd Hf Hfalse) as (msg & a1 & wd & ->).
  pose proof (lookup_after_copy σ reviewed d wd Hd) as Hd1.
  destruct (retry <? max_activity_retries - 1) eqn:E; [|split; reflexivity].
  apply Z.ltb_lt in E. unfold max_activity_retries in E.
  destruct (mentions_snapshot msg).
  - specialize (IH (retry + 1) a1 _ (emit w (EvSleep (if fast_mode a1 then 0.25%Q else 0.5%Q)))
                  Hd1 ltac:(lia) ltac:(lia)).
    destruct (submit_with_retries env r (retry + 1) a1 _ reviewed _) as [[[st a'] σ'] w'].
    exact IH.
  - destruct (is_rate_limit msg).
    + pose proof (call_backoff_invocations env a1 w) as Hinv.
      destruct (call_backoff env a1 w) as [[a2 backoff] w2]. cbn [snd] in Hinv.
      specialize (IH (retry + 1) a2 _ (emit w2 (EvSleep backoff)) Hd1 ltac:(lia) ltac:(lia)).
      destruct (submit_with_retries env r (retry + 1) a2 _ reviewed _) as [[[st a'] σ'] w'].
      cbn [emit invocations] in IH. rewrite <- Hinv. exact IH.
    + specialize (IH (retry + 1) a1 _ (emit w (EvSleep (if fast_mode a1 then 0.5%Q else 1%Q)))
                    Hd1 ltac:(lia) ltac:(lia)).
      destruct (submit_with_retries env r (retry + 1) a1 _ reviewed _) as [[[st a'] σ'] w'].
      exact IH.
Qed.

(** X6: a record that lacks a non-empty Category, Title, Description,
    URL, Date or Quantity makes every submission raise before the
    executor is invoked, and the orchestrator marks it failed after its
    three submissions without a single executor invocation. *)
Theorem X6_missing_field_never_reaches_executor (env : environment) (a : agent)
    (σ : gmap nat pydict) (reviewed : nat) (w : world) (d : pydict) (f : string) :
  σ !! reviewed = Some d ->
  f ∈ ["Category"; "Title"; "Description"; "URL"; "Date"; "Quantity"] ->
  dict_truthy d f = false ->
  (exists msg : string, fst (fst (fst (submit_activity env a σ reviewed w))) = Raised msg) /\
  snd (submit_activity env a σ reviewed w) = w /\
  (let '(status, _, _, w') := process_record env a σ reviewed w in
   status = MarkedFailed /\ invocations w' = invocations w).
Proof.
  intros Hd Hf Hfalse.
  destruct (submit_activity_missing env a σ reviewed w d f Hd Hf Hfalse) as (msg & a1 & wd & E).
  split; [exists msg; rewrite E; reflexivity|]. split; [rewrite E; reflexivity|].
  unfold process_record. change (Z.to_nat max_activity_retries) with 3%nat.
  apply (submit_with_retries_missing env reviewed d f 3 Hf Hfalse 0 a σ w Hd); lia.
Qed.

Lemma X6_missing_field_never_reaches_executor_witness :
  snd (submit_activity (failing_env "boom") (agent_init false)
         {[ 0%nat := [("Title", VStr "Talk"); ("URL", VStr "")] ]} 0%nat world_init)
  = world_init.
Proof.
  refine (proj1 (proj2 (X6_missing_field_never_reaches_executor (failing_env "boom")
                          (agent_init false)
                          {[ 0%nat := [("Title", VStr "Talk"); ("URL", VStr "")] ]}
                          0%nat world_init [("Title", VStr "Talk"); ("URL", VStr "")]
                          "URL" _ _ _))).
  - reflexivity.
  - repeat (first [apply list_elem_of_here | apply list_elem_of_further]).
  - reflexivity.
Defined.

(** X7: the preparation of a submission fills Audience with a non-empty
    list in every case, and leaves non-empty Internal Notes whenever it
    does not stop on a field of the wrong type: these two fields are never
    the reason for a "Missing required fields" failure. *)
Theorem X7_audience_and_notes_filled (a : agent) (d : pydict) :
  let '(_, activity_data, raised) := prepare_activity a d in
  dict_truthy activity_data "Audience" = true /\
  ((forall kind method : string, raised <> Some (attribute_error kind method)) ->
   dict_truthy activity_data "Internal Notes" = true).
Proof.
  unfold prepare_activity.
  destruct (prepare_fields (target_audiences_of a) (_tech_options (ensure_tech_options a)) d)
    as [wd raised] eqn:E.
  assert (Hwd : wd = fst (prepare_fields (target_audiences_of a)
                            (_tech_options (ensure_tech_options a)) d)) by (rewrite E; reflexivity).
  assert (Hr : raised = snd (prepare_fields (target_audiences_of a)
                               (_tech_options (ensure_tech_options a)) d)) by (rewrite E; reflexivity).
  clear E. subst wd raised. pose proof (target_audiences_nonempty a) as Hta.
  unfold prepare_fields, resolve_technologies.
  destruct_matches_eqn; cbn [fst snd];
    (split;
     [ repeat (rewrite dict_truthy_set_ne by discriminate); rewrite dict_truthy_set; exact Hta
     | intros Hnot;
       first [ exfalso; eapply Hnot; reflexivity
             | rewrite dict_truthy_set; apply generated_notes_truthy
             | match goal with
               | H : negb (dict_truthy ?x "Internal Notes") = false |- _ =>
                   apply negb_false_iff in H; exact H
               end ] ]).
Qed.

Lemma X7_audience_and_notes_filled_witness :
  dict_truthy (snd (fst (prepare_activity (agent_init false) sample_record))) "Internal Notes"
  = true.
Proof.
  pose proof (X7_audience_and_notes_filled (agent_init false) sample_record) as H.
  destruct (prepare_activity (agent_init false) sample_record) as [[a1 wd] raised] eqn:E.
  cbn [fst snd]. apply H. intros kind method Hr.
  vm_compute in E. injection E as _ _ <-. discriminate.
Defined.

(** ** The technology chooser: distinct and filled slots *)

Lemma step_nodup (x : string) (acc : list string) :
  NoDup acc -> NoDup (if decide (x ∈ acc) then acc else (acc ++ [x])%list).
Proof.
  intros Hnd. destruct (decide (x ∈ acc)) as [Hin|Hnin]; [exact Hnd|].
  apply NoDup_app. split; [exact Hnd|]. split; [|apply NoDup_singleton].
  intros y Hy Hy'. apply list_elem_of_singleton in Hy'. subst y. contradiction.
Qed.

Lemma take_distinct_nodup (cands : list string) :
  forall acc : list string, NoDup acc -> NoDup (take_distinct cands acc).
Proof.
  induction cands as [|opt rest IH]; intros acc Hnd; cbn; [exact Hnd|].
  destruct (2 <=? _); [apply step_nodup; exact Hnd | apply IH, step_nodup; exact Hnd].
Qed.

Lemma clean_distinct_nodup (cands : list string) :
  forall acc : list string, NoDup acc -> NoDup (clean_distinct cands acc).
Proof.
  induction cands as [|a rest IH]; intros acc Hnd; cbn; [exact Hnd|].
  destruct (String.eqb a ""); [apply IH; exact Hnd|].
  destruct (2 <=? _); [apply step_nodup; exact Hnd | apply IH, step_nodup; exact Hnd].
Qed.

Lemma take_distinct_length (cands : list string) :
  forall acc : list string,
    (length acc < 2)%nat -> (length (take_distinct cands acc) <= 2)%nat.
Proof.
  induction cands as [|opt rest IH]; intros acc Hlen; cbn; [lia|].
  assert (Hacc' : (length (if decide (opt ∈ acc) then acc else (acc ++ [opt])%list) <= 2)%nat).
  { destruct (decide (opt ∈ acc)); [lia|]. rewrite length_app. cbn. lia. }
  destruct (2 <=? _) eqn:E; [exact Hacc'|].
  apply IH. apply Z.leb_gt in E. lia.
Qed.

(** With one option taken, a candidate different from it fills the second
    place. *)
Lemma take_distinct_second (cands : list string) (a x : string) :
  x ∈ cands -> x <> a -> length (take_distinct cands [a]) = 2%nat.
Proof.
  induction cands as [|opt rest IH]; intros Hin Hne; [apply elem_of_nil in Hin; destruct Hin|].
  cbn [take_distinct]. destruct (decide (opt ∈ [a])) as [Hopt|Hopt].
  - apply list_elem_of_singleton in Hopt. subst opt. cbn [length].
    change (2 <=? Z.of_nat 1) with false. cbv iota.
    apply IH; [|exact Hne]. apply elem_of_cons in Hin as [->|Hin]; [congruence | exact Hin].
  - reflexivity.
Qed.

Lemma take_distinct_two (cands : list string) (x y : string) :
  x ∈ cands -> y ∈ cands -> x <> y -> length (take_distinct cands []) = 2%nat.
Proof.
  intros Hx Hy Hne. destruct cands as [|opt rest]; [apply elem_of_nil in Hx; destruct Hx|].
  cbn [take_distinct]. destruct (decide (opt ∈ [])) as [H|_]; [apply elem_of_nil in H; destruct H|].
  cbn [app length]. change (2 <=? Z.of_nat 1) with false. cbv iota.
  apply elem_of_cons in Hx as [-> | Hx]; apply elem_of_cons in Hy as [-> | Hy].
  - congruence.
  - eapply take_distinct_second; [exact Hy | congruence].
  - eapply take_distinct_second; [exact Hx | congruence].
  - destruct (decide (x = opt)) as [->|Hxo].
    + eapply take_distinct_second; [exact Hy | congruence].
    + eapply take_distinct_second; [exact Hx | exact Hxo].
Qed.

Lemma scored_additional_not_primary (tokens : gset string) (src additional_opts : list string)
    (primary_choice : option string) (x : string) :
  x ∈ map snd (scored_additional tokens src additional_opts primary_choice) ->
  Some x <> primary_choice.
Proof.
  unfold scored_additional. intros Hx.
  apply list_elem_of_fmap in Hx as ([s o] & -> & Hso). cbn [snd].
  apply (proj1 (sort_desc_elem _ _)) in Hso.
  apply list_elem_of_fmap in Hso as (o' & Heq & Ho'). injection Heq as -> ->.
  apply list_elem_of_filter in Ho' as [Hne _]. exact Hne.
Qed.

Lemma scored_additional_has (tokens : gset string) (opts : tech_options_t)
    (primary_choice : option string) (x : string) :
  x ∈ (primary opts ++ additional opts)%list ->
  Some x <> primary_choice ->
  x ∈ map snd (scored_additional tokens (source_list opts) (additional opts) primary_choice).
Proof.
  intros Hx Hne. unfold scored_additional.
  apply (list_elem_of_fmap_2' snd _ (score tokens x, x)); [|reflexivity].
  apply sort_desc_elem.
  apply (list_elem_of_fmap_2 (fun opt => (score tokens opt, opt))).
  apply list_elem_of_filter. split; [exact Hne|].
  apply elem_of_app. destruct (decide (x ∈ additional opts)) as [Ha|Ha]; [left; exact Ha|].
  right. apply list_elem_of_filter. split; [exact Ha|].
  apply elem_of_app in Hx as [Hp|Hp]; [|contradiction].
  unfold source_list. destruct (primary opts) as [|p ps]; [apply elem_of_nil in Hp; destruct Hp|].
  exact Hp.
Qed.

(** The additional choices before the final cleaning. *)
Lemma additional_choices_elem (tokens : gset string) (opts : tech_options_t)
    (primary_choice : option string) (x : string) :
  let scored_add :=
    scored_additional tokens (source_list opts) (additional opts) primary_choice in
  let first := take_distinct (map snd scored_add) [] in
  x ∈ (if Z.of_nat (length first) <? 2
       then take_distinct
              (filter (fun o => Some o ≠ primary_choice)
                 (additional opts ++ source_list opts)%list) first
       else first) ->
  Some x <> primary_choice.
Proof.
  intros scored_add first Hx.
  assert (Hfirst : x ∈ first -> Some x <> primary_choice).
  { intros H. apply take_distinct_elem in H as [H|H]; [apply elem_of_nil in H; destruct H|].
    eapply scored_additional_not_primary. exact H. }
  destruct (_ <? 2); [|apply Hfirst; exact Hx].
  apply take_distinct_elem in Hx as [Hx|Hx]; [apply Hfirst; exact Hx|].
  apply list_elem_of_filter in Hx as [Hne _]. exact Hne.
Qed.

(** X10: the additional slots never repeat an option and never repeat
    the main choice: two slots with the same content are both empty, and
    a filled slot differs from the main choice. *)
Theorem X10_additional_slots_distinct (title description : string) (opts : tech_options_t) :
  let main := fst (_choose_tech_areas title description opts) in
  let slots := snd (_choose_tech_areas title description opts) in
  (forall (i j : nat) (x : string),
      i <> j -> slots !! i = Some x -> slots !! j = Some x -> x = "") /\
  (forall x : string, x ∈ slots -> x <> "" -> x <> main).
Proof.
  intros main slots. subst main slots. unfold _choose_tech_areas. cbn [fst snd].
  set (tokens := title_tokens title description).
  set (pc := choose_primary tokens (source_list opts) (additional opts)).
  match goal with
  | |- context [clean_distinct (pad_two ?l) []] => set (chosen := l)
  end.
  set (cleaned := clean_distinct (pad_two chosen) []).
  assert (Hnd : NoDup cleaned) by (apply clean_distinct_nodup; constructor).
  assert (Hne : forall x, x ∈ cleaned -> x <> "" /\ x ∈ chosen).
  { intros x Hx. apply clean_distinct_elem in Hx as [Hx | [Hx Hn]];
      [apply elem_of_nil in Hx; destruct Hx|].
    split; [exact Hn|]. apply pad_two_elem in Hx as [Hx | ->]; [exact Hx | congruence]. }
  split.
  - intros i j x Hij Hi Hj. destruct (decide (x = "")) as [|Hx]; [assumption|]. exfalso.
    assert (Hin : forall k, pad_two cleaned !! k = Some x -> cleaned !! k = Some x).
    { intros k Hk. unfold pad_two in Hk. apply lookup_app_Some in Hk as [Hk | [_ Hk]]; [exact Hk|].
      apply list_elem_of_lookup_2, list_elem_of_In, repeat_spec in Hk. congruence. }
    apply Hij. eapply NoDup_lookup; [exact Hnd | apply Hin; exact Hi | apply Hin; exact Hj].
  - intros x Hx Hn. apply pad_two_elem in Hx as [Hx | ->]; [|congruence].
    apply Hne in Hx as [_ Hx]. subst chosen.
    apply additional_choices_elem in Hx. fold pc in Hx.
    destruct pc as [p|]; [congruence | exact Hn].
Qed.

(** X11: when no option is the empty string and the option set holds two
    different options besides the main choice, both additional slots are
    filled. *)
Theorem X11_additional_slots_filled (title description : string) (opts : tech_options_t)
    (x y : string) :
  let main := fst (_choose_tech_areas title description opts) in
  let slots := snd (_choose_tech_areas title description opts) in
  Forall (fun o => o <> "") (primary opts ++ additional opts)%list ->
  x ∈ (primary opts ++ additional opts)%list ->
  y ∈ (primary opts ++ additional opts)%list ->
  x <> y -> x <> main -> y <> main ->
  Forall (fun s => s <> "") slots.
Proof.
  intros main slots Hall Hx Hy Hxy Hxm Hym. subst main slots.
  unfold _choose_tech_areas in *. cbn [fst snd] in *.
  set (tokens := title_tokens title description) in *.
  set (pc := choose_primary tokens (source_list opts) (additional opts)) in *.
  set (S := map snd (scored_additional tokens (source_list opts) (additional opts) pc)).
  assert (Hpc : forall z, z <> match pc with Some p => p | None => "" end -> Some z <> pc).
  { intros z Hz. destruct pc as [p|]; congruence. }
  assert (HxS : x ∈ S) by (apply scored_additional_has; [exact Hx | apply Hpc; exact Hxm]).
  assert (HyS : y ∈ S) by (apply scored_additional_has; [exact Hy | apply Hpc; exact Hym]).
  pose proof (take_distinct_two S x y HxS HyS Hxy) as Hlen.
  pose proof (take_distinct_nodup S [] (NoDup_nil_2)) as Hnd.
  assert (Hsub : forall z, z ∈ take_distinct S [] -> z <> "").
  { intros z Hz. apply take_distinct_elem in Hz as [Hz|Hz]; [apply elem_of_nil in Hz; destruct Hz|].
    subst S. apply scored_additional_elem in Hz.
    rewrite Forall_forall in Hall. apply Hall.
    apply elem_of_app in Hz as [Hz|Hz]; [apply elem_of_app; right; exact Hz|].
    apply source_list_elem. exact Hz. }
  fold S. destruct (take_distinct S []) as [|u [|v [|? ?]]] eqn:E; try discriminate.
  change (Z.of_nat (length [u; v]) <? 2) with false. cbv iota.
  assert (Hu : u <> "") by (apply Hsub; apply list_elem_of_here).
  assert (Hv : v <> "") by (apply Hsub; apply list_elem_of_further, list_elem_of_here).
  assert (Huv : u <> v).
  { apply NoDup_cons in Hnd as [Hnin _]. intros ->. apply Hnin. apply list_elem_of_here. }
  assert (Hclean : pad_two (clean_distinct (pad_two [u; v]) []) = [u; v]).
  { unfold pad_two at 2. cbn [length repeat app Nat.sub]. cbn [clean_distinct].
    apply String.eqb_neq in Hu. rewrite Hu.
    destruct (decide (u ∈ [])) as [H|_]; [apply elem_of_nil in H; destruct H|].
    cbn [app length]. change (2 <=? Z.of_nat 1) with false. cbv iota.
    apply String.eqb_neq in Hv. rewrite Hv.
    destruct (decide (v ∈ [u])) as [H|_].
    { apply list_elem_of_singleton in H. congruence. }
    reflexivity. }
  rewrite Hclean. constructor; [|constructor; [|constructor]].
  - apply String.eqb_neq. apply String.eqb_neq in Hu. exact Hu.
  - apply String.eqb_neq. apply String.eqb_neq in Hv. exact Hv.
Qed.

Lemma X10_additional_slots_distinct_witness :
  "Python" <> fst (_choose_tech_areas "Intro to Azure Functions" "Python and serverless"
                     {| primary := ["Cloud Computing"; "Web Development"];
                        additional := ["Python"; "JavaScript"] |}).
Proof.
  refine (proj2 (X10_additional_slots_distinct "Intro to Azure Functions" "Python and serverless"
                   {| primary := ["Cloud Computing"; "Web Development"];
                      additional := ["Python"; "JavaScript"] |}) "Python" _ _).
  - vm_compute. apply list_elem_of_here.
  - discriminate.
Defined.

Lemma X11_additional_slots_filled_witness :
  Forall (fun s => s <> "")
    (snd (_choose_tech_areas "Intro to Azure Functions" "Python and serverless"
            {| primary := ["Cloud Computing"; "Web Development"];
               additional := ["Python"; "JavaScript"] |})).
Proof.
  refine (X11_additional_slots_filled "Intro to Azure Functions" "Python and serverless"
            {| primary := ["Cloud Computing"; "Web Development"];
               additional := ["Python"; "JavaScript"] |} "Python" "JavaScript" _ _ _ _ _ _).
  - repeat constructor; discriminate.
  - repeat (first [apply list_elem_of_here | apply list_elem_of_further]).
  - repeat (first [apply list_elem_of_here | apply list_elem_of_further]).
  - discriminate.
  - vm_compute. discriminate.
  - vm_compute. discriminate.
Defined.

(** ** Matching a choice against the options of the form *)

Lemma is_prefix_refl (l : list ascii) : is_prefix l l = true.
Proof. induction l as [|c l IH]; cbn; [reflexivity|]. rewrite Ascii.eqb_refl. exact IH. Qed.

Lemma contains_refl (s : string) : contains s s = true.
Proof.
  unfold contains. destruct (chars s) as [|c l]; [reflexivity|].
  cbn [is_infix]. rewrite is_prefix_refl. reflexivity.
Qed.

(** X12: [_match_choice] returns the empty string or a non-empty entry of
    the pool that contains the choice when case is ignored; it returns an
    entry equal to the choice up to case whenever the pool has one, and
    some entry whenever the pool has one that contains the choice. *)
Theorem X12_match_choice (choice : string) (pool : list string) :
  let r := _match_choice choice pool in
  (r = "" \/ (r ∈ pool /\ contains (lower choice) (lower r) = true)) /\
  (forall p : string,
      choice <> "" -> p ∈ pool -> p <> "" -> lower p = lower choice ->
      r <> "" /\ lower r = lower choice) /\
  (forall p : string,
      choice <> "" -> p ∈ pool -> p <> "" -> contains (lower choice) (lower p) = true ->
      r <> "").
Proof.
  intros r. subst r. unfold _match_choice.
  destruct (String.eqb choice "") eqn:Ec.
  { apply String.eqb_eq in Ec. split; [left; reflexivity|]. split; intros p Hc; congruence. }
  destruct (find (fun p => negb (String.eqb p "") && String.eqb (lower p) (lower choice)) pool)
    as [e|] eqn:Ee.
  - apply find_some in Ee as [Hin He]. apply andb_true_iff in He as [Hne Heq].
    apply negb_true_iff, String.eqb_neq in Hne. apply String.eqb_eq in Heq.
    split; [|split].
    + right. split; [apply list_elem_of_In; exact Hin|]. rewrite Heq. apply contains_refl.
    + intros p _ _ _ _. split; assumption.
    + intros p _ _ _ _. exact Hne.
  - pose proof (find_none _ _ Ee) as Hnone.
    destruct (find (fun p => negb (String.eqb p "") && contains (lower choice) (lower p)) pool)
      as [s|] eqn:Es.
    + apply find_some in Es as [Hin Hs]. apply andb_true_iff in Hs as [Hne Hc].
      apply negb_true_iff, String.eqb_neq in Hne.
      split; [|split].
      * right. split; [apply list_elem_of_In; exact Hin | exact Hc].
      * intros p _ Hp Hpn Hpl. exfalso. apply list_elem_of_In in Hp.
        specialize (Hnone p Hp). cbn beta in Hnone.
        apply String.eqb_neq in Hpn. rewrite Hpn in Hnone.
        apply String.eqb_eq in Hpl. rewrite Hpl in Hnone. discriminate.
      * intros p _ _ _ _. exact Hne.
    + pose proof (find_none _ _ Es) as Hnone'.
      split; [left; reflexivity|]. split.
      * intros p _ Hp Hpn Hpl. exfalso. apply list_elem_of_In in Hp.
        specialize (Hnone p Hp). cbn beta in Hnone.
        apply String.eqb_neq in Hpn. rewrite Hpn in Hnone.
        apply String.eqb_eq in Hpl. rewrite Hpl in Hnone. discriminate.
      * intros p _ Hp Hpn Hpc. exfalso. apply list_elem_of_In in Hp.
        specialize (Hnone' p Hp). cbn beta in Hnone'.
        apply String.eqb_neq in Hpn. rewrite Hpn, Hpc in Hnone'. discriminate.
Qed.

Lemma X12_match_choice_witness :
  _match_choice "azure" ["Azure Functions"; "Azure"] <> "" /\
  lower (_match_choice "azure" ["Azure Functions"; "Azure"]) = lower "azure".
Proof.
  refine (proj1 (proj2 (X12_match_choice "azure" ["Azure Functions"; "Azure"])) "Azure" _ _ _ _).
  - discriminate.
  - repeat (first [apply list_elem_of_here | apply list_elem_of_further]).
  - discriminate.
  - vm_compute. reflexivity.
Defined.

(** ** The technologies written to the working copy *)

Lemma match_choice_in_pool (choice : string) (pool : list string) :
  _match_choice choice pool <> "" -> _match_choice choice pool ∈ pool.
Proof.
  unfold _match_choice. destruct (String.eqb choice ""); [intros H; destruct H; reflexivity|].
  destruct (find (fun p => negb (String.eqb p "") && String.eqb (lower p) (lower choice)) pool)
    as [e|] eqn:Ee.
  - intros _. apply find_some in Ee as [Hin _]. apply list_elem_of_In. exact Hin.
  - destruct (find (fun p => negb (String.eqb p "") && contains (lower choice) (lower p)) pool)
      as [s|] eqn:Es; [|intros H; destruct H; reflexivity].
    intros _. apply find_some in Es as [Hin _]. apply list_elem_of_In. exact Hin.
Qed.

Lemma clean_additional_elem (choices pool : list string) :
  forall (acc : list string) (x : string),
    x ∈ clean_additional choices pool acc -> x ∈ acc \/ x ∈ pool.
Proof.
  induction choices as [|a rest IH]; intros acc x Hx; cbn [clean_additional] in Hx;
    [left; exact Hx|].
  destruct (String.eqb a ""); [apply IH; exact Hx|].
  destruct (negb (String.eqb (_match_choice a pool) "") && bool_decide (_match_choice a pool ∉ acc))
    eqn:E1.
  - apply andb_true_iff in E1 as [Hne _]. apply negb_true_iff, String.eqb_neq in Hne.
    apply IH in Hx as [Hx|Hx]; [|right; exact Hx].
    apply elem_of_app in Hx as [Hx|Hx]; [left; exact Hx|].
    apply list_elem_of_singleton in Hx. subst x. right. apply match_choice_in_pool. exact Hne.
  - destruct (bool_decide (a ∉ acc) && bool_decide (a ∈ pool)) eqn:E2.
    + apply andb_true_iff in E2 as [_ Hp]. apply bool_decide_eq_true in Hp.
      apply IH in Hx as [Hx|Hx]; [|right; exact Hx].
      apply elem_of_app in Hx as [Hx|Hx]; [left; exact Hx|].
      apply list_elem_of_singleton in Hx. subst x. right. exact Hp.
    + apply IH. exact Hx.
Qed.

Lemma clean_additional_length (choices pool : list string) :
  forall acc : list string,
    (length (clean_additional choices pool acc) <= length acc + length choices)%nat.
Proof.
  induction choices as [|a rest IH]; intros acc; cbn [clean_additional length]; [lia|].
  destruct (String.eqb a ""); [specialize (IH acc); lia|].
  destruct (_ && _).
  - specialize (IH (acc ++ [_match_choice a pool])%list). rewrite length_app in IH. cbn in IH. lia.
  - destruct (_ && _).
    + specialize (IH (acc ++ [a])%list). rewrite length_app in IH. cbn in IH. lia.
    + specialize (IH acc). lia.
Qed.

Lemma clean_additional_nodup (choices pool : list string) :
  forall acc : list string, NoDup acc -> NoDup (clean_additional choices pool acc).
Proof.
  assert (Hext : forall (acc : list string) (x : string),
             NoDup acc -> x ∉ acc -> NoDup (acc ++ [x])%list).
  { intros acc x Hnd Hx. apply NoDup_app. split; [exact Hnd|]. split; [|apply NoDup_singleton].
    intros y Hy Hy'. apply list_elem_of_singleton in Hy'. subst y. contradiction. }
  induction choices as [|a rest IH]; intros acc Hnd; cbn [clean_additional]; [exact Hnd|].
  destruct (String.eqb a ""); [apply IH; exact Hnd|].
  destruct (negb (String.eqb (_match_choice a pool) "") && bool_decide (_match_choice a pool ∉ acc))
    eqn:E1.
  - apply andb_true_iff in E1 as [_ Hn]. apply bool_decide_eq_true in Hn.
    apply IH, Hext; assumption.
  - destruct (bool_decide (a ∉ acc) && bool_decide (a ∈ pool)) eqn:E2; [|apply IH; exact Hnd].
    apply andb_true_iff in E2 as [Hn _]. apply bool_decide_eq_true in Hn.
    apply IH, Hext; assumption.
Qed.

Lemma choose_tech_areas_two (title description : string) (opts : tech_options_t) :
  length (snd (_choose_tech_areas title description opts)) = 2%nat.
Proof.
  unfold _choose_tech_areas. cbn [snd].
  apply pad_two_length, clean_distinct_length. cbn. lia.
Qed.

(** What the resolution of the technologies yields when it does not stop
    on a field of the wrong type. *)
Lemma resolve_technologies_spec (opts : tech_options_t) (d : pydict)
    (validated_primary : string) (cleaned_additional : list string) :
  resolve_technologies opts d = inr (validated_primary, cleaned_additional) ->
  let options := (primary opts ++ additional opts)%list in
  (validated_primary = "" \/ validated_primary ∈ options) /\
  length cleaned_additional = 2%nat /\
  Forall (fun s => s = "" \/ s ∈ options) cleaned_additional /\
  (forall (i j : nat) (x : string),
      i <> j -> cleaned_additional !! i = Some x -> cleaned_additional !! j = Some x -> x = "").
Proof.
  intros H options. unfold resolve_technologies in H.
  destruct (text_or_empty (dict_get_or_empty d "Title")) as [title|]; [|discriminate].
  destruct (text_or_empty (dict_get_or_empty d "Description")) as [description|]; [|discriminate].
  pose proof (choose_tech_areas_two title description opts) as Hlen.
  destruct (_choose_tech_areas title description opts) as [pc ac]. cbn [snd] in Hlen.
  injection H as <- <-.
  set (cleaned := clean_additional ac (additional opts ++ primary opts)%list []).
  assert (Hperm : forall x, x ∈ (additional opts ++ primary opts)%list -> x ∈ options).
  { intros x Hx. subst options. apply elem_of_app. apply elem_of_app in Hx. tauto. }
  assert (Hcl : (length cleaned <= 2)%nat).
  { pose proof (clean_additional_length ac (additional opts ++ primary opts)%list []) as Hc.
    cbn [length] in Hc. subst cleaned. lia. }
  assert (Hnd : NoDup cleaned) by (apply clean_additional_nodup; constructor).
  split; [|split; [|split]].
  - clear Hperm. subst options.
    generalize (match_choice_in_pool pc (primary opts ++ additional opts)%list).
    generalize (_match_choice pc (primary opts ++ additional opts)%list).
    generalize (primary opts ++ additional opts)%list.
    intros pool m Hm. destruct (String.eqb m "") eqn:E.
    + destruct pool as [|p ps].
      * left. apply String.eqb_eq. exact E.
      * right. apply list_elem_of_here.
    + right. apply Hm. apply String.eqb_neq. exact E.
  - apply pad_two_length. exact Hcl.
  - apply Forall_forall. intros x Hx. apply pad_two_elem in Hx as [Hx | ->]; [|left; reflexivity].
    right. apply clean_additional_elem in Hx as [Hx|Hx]; [apply elem_of_nil in Hx; destruct Hx|].
    apply Hperm. exact Hx.
  - intros i j x Hij Hi Hj. destruct (decide (x = "")) as [|Hx]; [assumption|]. exfalso.
    assert (Hin : forall k, pad_two cleaned !! k = Some x -> cleaned !! k = Some x).
    { intros k Hk. unfold pad_two in Hk. apply lookup_app_Some in Hk as [Hk | [_ Hk]]; [exact Hk|].
      apply list_elem_of_lookup_2, list_elem_of_In, repeat_spec in Hk. congruence. }
    apply Hij. eapply NoDup_lookup; [exact Hnd | apply Hin; exact Hi | apply Hin; exact Hj].
Qed.

Lemma ensure_tech_options_some (a : agent) :
  exists opts : tech_options_t, _tech_options (ensure_tech_options a) = Some opts.
Proof.
  unfold ensure_tech_options. destruct (_tech_options a) as [o|] eqn:E.
  - exists o. exact E.
  - exists _get_fallback_tech_options. reflexivity.
Qed.

Lemma prepare_fields_checked (target_audiences : list string) (tech : option tech_options_t)
    (d : pydict) (f : string) :
  snd (prepare_fields target_audiences tech d) = None ->
  f ∈ required_fields ->
  dict_truthy (fst (prepare_fields target_audiences tech d)) f = true.
Proof.
  intros Hnone Hf. revert Hnone. unfold prepare_fields.
  destruct_matches_eqn; cbn [fst snd]; try discriminate; intros _;
    match goal with
    | H : filter _ required_fields = [] |- dict_truthy ?wd f = true =>
        destruct (dict_truthy wd f) eqn:Et; [reflexivity|];
        exfalso; refine (filter_nil_not_elem_of _ _ f H _ Hf);
        rewrite Et; exact I
    end.
Qed.

(** X13: when the preparation of a submission succeeds, the Main
    Technology of the working copy is a non-empty option of the form
    (whatever the record carried), and its Additional Technologies are
    exactly two slots, each empty or an option of the form, no option
    twice. *)
Theorem X13_submitted_technologies_are_options (a a1 : agent) (d activity_data : pydict) :
  prepare_activity a d = (a1, activity_data, None) ->
  exists (opts : tech_options_t) (main : string) (slots : list string),
    _tech_options a1 = Some opts /\
    dict_get activity_data "Main Technology" = Some (VStr main) /\
    main <> "" /\
    main ∈ (primary opts ++ additional opts)%list /\
    dict_get activity_data "Additional Technologies" = Some (VList slots) /\
    length slots = 2%nat /\
    Forall (fun s => s = "" \/ s ∈ (primary opts ++ additional opts)%list) slots /\
    (forall (i j : nat) (x : string),
        i <> j -> slots !! i = Some x -> slots !! j = Some x -> x = "").
Proof.
  unfold prepare_activity. intros Hp.
  destruct (ensure_tech_options_some a) as [opts Hopts].
  destruct (prepare_fields (target_audiences_of a) (_tech_options (ensure_tech_options a)) d)
    as [wd raised] eqn:E.
  injection Hp as <- <- ->.
  assert (Hmain : dict_truthy wd "Main Technology" = true).
  { pose proof (prepare_fields_checked (target_audiences_of a)
                  (_tech_options (ensure_tech_options a)) d "Main Technology") as H.
    rewrite E in H. apply H; [reflexivity|].
    unfold required_fields. apply list_elem_of_further, list_elem_of_here. }
  rewrite Hopts in E. unfold prepare_fields in E.
  destruct (resolve_technologies opts (dict_set d "Audience" (VList (target_audiences_of a))))
    as [msg|[vp ca]] eqn:Er; [discriminate|].
  destruct (resolve_technologies_spec opts _ vp ca Er) as (Hvp & Hlen & Hall & Hdis).
  assert (Hget : dict_get wd "Main Technology" = Some (VStr vp) /\
                 dict_get wd "Additional Technologies" = Some (VList ca)).
  { revert E. destruct_matches_eqn; intros E; injection E as <-; try discriminate;
      repeat (rewrite dict_get_set_ne by discriminate);
      rewrite !dict_get_set; cbn; split; reflexivity. }
  destruct Hget as [Hgm Hga].
  assert (Hne : vp <> "").
  { unfold dict_truthy in Hmain. rewrite Hgm in Hmain. cbn in Hmain.
    apply negb_true_iff, String.eqb_neq in Hmain. exact Hmain. }
  exists opts, vp, ca. split; [exact Hopts|]. split; [exact Hgm|]. split; [exact Hne|].
  split; [destruct Hvp as [->|Hvp]; [congruence | exact Hvp]|].
  split; [exact Hga|]. split; [exact Hlen|]. split; [exact Hall | exact Hdis].
Qed.

Lemma X13_submitted_technologies_are_options_witness :
  exists (opts : tech_options_t) (main : string) (slots : list string),
    _tech_options (fst (fst (prepare_activity (agent_init false) sample_record))) = Some opts /\
    dict_get (snd (fst (prepare_activity (agent_init false) sample_record))) "Main Technology"
    = Some (VStr main) /\
    main <> "" /\
    main ∈ (primary opts ++ additional opts)%list /\
    dict_get (snd (fst (prepare_activity (agent_init false) sample_record)))
      "Additional Technologies" = Some (VList slots) /\
    length slots = 2%nat /\
    Forall (fun s => s = "" \/ s ∈ (primary opts ++ additional opts)%list) slots /\
    (forall (i j : nat) (x : string),
        i <> j -> slots !! i = Some x -> slots !! j = Some x -> x = "").
Proof.
  refine (X13_submitted_technologies_are_options (agent_init false) _ sample_record _ _).
  vm_compute. reflexivity.
Defined.

(** ** The artifact cache *)

Lemma CacheStore_get_set (data : gmap string (gmap string string))
    (s k v section key : string) :
  _CacheStore_get (_CacheStore_set data s k v) section key
  = if String.eqb s section && String.eqb k key then Some v
    else _CacheStore_get data section key.
Proof.
  unfold _CacheStore_get, _CacheStore_set.
  destruct (String.eqb s section) eqn:Es.
  - apply String.eqb_eq in Es. subst section.
    destruct (data !! s) as [sec|] eqn:Ed; rewrite lookup_insert_eq;
      (destruct (String.eqb k key) eqn:Ek; cbn [andb];
       [apply String.eqb_eq in Ek; subst key|apply String.eqb_neq in Ek]).
    + apply lookup_insert_eq.
    + rewrite lookup_insert_ne by exact Ek. reflexivity.
    + apply lookup_singleton_eq.
    + rewrite lookup_singleton_ne by exact Ek. reflexivity.
  - apply String.eqb_neq in Es. cbn [andb].
    destruct (data !! s) as [sec|]; rewrite lookup_insert_ne by exact Es; reflexivity.
Qed.

(** X14: reading the cache after any sequence of writes gives the text of
    the last write to that section and key, and what the cache held
    before when the sequence has none: a value written is read back until
    the same key is written again, and writes to other keys or sections
    never disturb it. *)
Theorem X14_cache_read_after_writes (data : gmap string (gmap string string))
    (writes : list (string * string * string)) (section key : string) :
  _CacheStore_get (_CacheStore_sets data writes) section key
  = match last_write writes section key with
    | Some v => Some v
    | None => _CacheStore_get data section key
    end.
Proof.
  unfold _CacheStore_sets. revert data.
  induction writes as [|[[s k] v] rest IH]; intros data; cbn [fold_left last_write fst snd];
    [reflexivity|].
  rewrite IH. destruct (last_write rest section key); [reflexivity|].
  rewrite CacheStore_get_set. destruct (String.eqb s section && String.eqb k key); reflexivity.
Qed.

(** ** The cache keys *)

Lemma chars_concat_bars (parts : list string) :
  chars (hash_input parts) = concat (map (fun p => (chars p ++ ["|"%char])%list) parts).
Proof.
  unfold hash_input. induction parts as [|p rest IH]; [reflexivity|].
  cbn [map concat]. rewrite <- IH. destruct rest as [|q rest'].
  - cbn [map String.concat]. rewrite chars_append. cbn [concat]. rewrite app_nil_r. reflexivity.
  - cbn [map String.concat]. rewrite !chars_append. reflexivity.
Qed.

Lemma split_at_bar (l1 l2 t1 t2 : list ascii) :
  "|"%char ∉ l1 -> "|"%char ∉ l2 ->
  (l1 ++ "|"%char :: t1)%list = (l2 ++ "|"%char :: t2)%list ->
  l1 = l2 /\ t1 = t2.
Proof.
  revert l2. induction l1 as [|c l1 IH]; intros l2 H1 H2 Heq; destruct l2 as [|c2 l2];
    cbn in Heq.
  - injection Heq as ->. split; reflexivity.
  - injection Heq as <- _. exfalso. apply H2. apply list_elem_of_here.
  - injection Heq as -> _. exfalso. apply H1. apply list_elem_of_here.
  - injection Heq as -> Heq.
    destruct (IH l2) as [-> ->]; [| |exact Heq|split; reflexivity].
    + intros H. apply H1. apply list_elem_of_further. exact H.
    + intros H. apply H2. apply list_elem_of_further. exact H.
Qed.

Lemma chars_inj (s t : string) : chars s = chars t -> s = t.
Proof. intros H. rewrite <- (text_of_chars s), <- (text_of_chars t), H. reflexivity. Qed.

(** X15: [_hash] applies the digest to the parts written one after the
    other, each followed by a bar; on parts that hold no bar this text
    determines the parts, so two different lists of such parts get the
    same key only if the digest itself collides. *)
Theorem X15_hash_input_injective (sha256_hex : string -> string) (parts1 parts2 : list string) :
  _hash sha256_hex parts1 = sha256_hex (hash_input parts1) /\
  (Forall bar_free parts1 -> Forall bar_free parts2 ->
   hash_input parts1 = hash_input parts2 -> parts1 = parts2).
Proof.
  split; [reflexivity|]. intros H1 H2 Heq.
  apply (f_equal chars) in Heq. rewrite !chars_concat_bars in Heq.
  revert parts2 H2 Heq. induction H1 as [|p1 r1 Hp1 Hr1 IH]; intros parts2 H2 Heq.
  - destruct parts2 as [|p2 r2]; [reflexivity|]. cbn in Heq.
    destruct (chars p2); discriminate.
  - destruct H2 as [|p2 r2 Hp2 Hr2]; cbn [map concat] in Heq.
    + destruct (chars p1); discriminate.
    + rewrite <- !app_assoc in Heq. cbn [app] in Heq.
      destruct (split_at_bar _ _ _ _ Hp1 Hp2 Heq) as [Hc Ht].
      apply chars_inj in Hc. subst p2. f_equal. apply IH; assumption.
Qed.

Lemma X15_hash_input_injective_witness :
  _hash plain_digest ["Talk"; "About Python"]
  = plain_digest (hash_input ["Talk"; "About Python"]) /\
  ["Talk"; "About Python"] = ["Talk"; "About Python"].
Proof.
  split.
  - exact (proj1 (X15_hash_input_injective plain_digest ["Talk"; "About Python"]
                    ["Talk"; "About Python"])).
  - refine (proj2 (X15_hash_input_injective plain_digest ["Talk"; "About Python"]
                     ["Talk"; "About Python"]) _ _ _).
    + repeat constructor; vm_compute; intros H;
        repeat (apply elem_of_cons in H as [H|H]; [discriminate|]);
        apply elem_of_nil in H; exact H.
    + repeat constructor; vm_compute; intros H;
        repeat (apply elem_of_cons in H as [H|H]; [discriminate|]);
        apply elem_of_nil in H; exact H.
    + reflexivity.
Defined.

(** ** Character limits: the Internal Notes and the records in range *)

Lemma enforce_description_notes (sha256_hex : string -> string) (generator : nat -> generation)
    (st : enrich_state) (act : pydict) (k : string) :
  k <> "Description" ->
  dict_get (snd (enforce_description sha256_hex generator st act)) k = dict_get act k.
Proof.
  intros Hk. unfold enforce_description.
  destruct_matches; cbn [snd]; try reflexivity; apply dict_get_set_ne; congruence.
Qed.

Lemma notes_or_private_after_description (sha256_hex : string -> string)
    (generator : nat -> generation) (st : enrich_state) (act : pydict) :
  notes_or_private (snd (enforce_description sha256_hex generator st act))
  = notes_or_private act.
Proof.
  unfold notes_or_private, dict_truthy.
  rewrite !enforce_description_notes by discriminate. reflexivity.
Qed.

(** The Internal Notes half on notes above the hard limit: a sanitized
    text in every case. *)
Lemma enforce_notes_spec (sha256_hex : string -> string) (generator : nat -> generation)
    (st : enrich_state) (act : pydict) (pdesc : string) :
  notes_or_private act = Some (VStr pdesc) ->
  1000 < len pdesc ->
  exists text : string,
    dict_get (snd (enforce_notes sha256_hex generator st act)) "Internal Notes"
    = Some (VStr (_sanitize_private_description text 850)).
Proof.
  intros Hn Hlen. unfold enforce_notes. rewrite Hn. apply Z.ltb_lt in Hlen. rewrite Hlen.
  destruct (_CacheStore_get _ _ _) as [cached|].
  - destruct (negb (String.eqb cached "")); cbn [snd]; rewrite dict_get_set, String.eqb_refl.
    + exists cached. reflexivity.
    + unfold rewrite_notes. eexists. reflexivity.
  - cbn [snd]. rewrite dict_get_set, String.eqb_refl. unfold rewrite_notes. eexists. reflexivity.
Qed.

(** X16: for every record whose Internal Notes (or, failing them, its
    Private Description) exceed 1000 characters, the stage stores
    Internal Notes that end with '.', '!' or '?' and have between 1 and
    851 characters, for every answer of the text generator and every
    state of the cache: cached rewrites are sanitized too. *)
Theorem X16_internal_notes_limit (sha256_hex : string -> string)
    (generator : nat -> generation) (st : enrich_state) (activities : list pydict) (i : nat)
    (act act' : pydict) (pdesc : string) :
  activities !! i = Some act ->
  notes_or_private act = Some (VStr pdesc) ->
  1000 < len pdesc ->
  snd (enforce_char_limits sha256_hex generator st activities) !! i = Some act' ->
  exists stored : string,
    dict_get act' "Internal Notes" = Some (VStr stored) /\
    ends_with_punct stored = true /\
    1 <= len stored <= 851.
Proof.
  intros Hi Hn Hlen Hi'.
  destruct (enforce_char_limits_lookup sha256_hex generator activities st i act Hi)
    as [st_i Hst].
  pose proof (eq_trans (eq_sym Hi') Hst) as Heq. injection Heq as ->.
  rewrite <- (notes_or_private_after_description sha256_hex generator st_i act) in Hn.
  destruct (enforce_notes_spec sha256_hex generator
              (fst (enforce_description sha256_hex generator st_i act))
              (snd (enforce_description sha256_hex generator st_i act)) pdesc Hn Hlen)
    as [text Hget].
  exists (_sanitize_private_description text 850). split; [exact Hget|].
  destruct (sanitize_private_description_shape text 850 ltac:(lia)) as [Hp Hl].
  split; [exact Hp | lia].
Qed.

(** The two halves of the loop body leave a record within limits, and
    the state, as they are. *)
Lemma enforce_within_limits (sha256_hex : string -> string) (generator : nat -> generation)
    (st : enrich_state) (act : pydict) :
  within_limits act = true ->
  enforce_description sha256_hex generator st act = (st, act) /\
  enforce_notes sha256_hex generator st act = (st, act).
Proof.
  unfold within_limits, over_limit. intros H. apply andb_true_iff in H as [Hd Hn].
  apply negb_true_iff in Hd. apply negb_true_iff in Hn.
  unfold enforce_description, enforce_notes. split.
  - destruct (dict_get act "Description") as [[|desc| |]|]; try reflexivity.
    rewrite Hd. reflexivity.
  - destruct (notes_or_private act) as [[|pdesc| |]|]; try reflexivity.
    rewrite Hn. reflexivity.
Qed.

Lemma enforce_description_generations (sha256_hex : string -> string)
    (generator : nat -> generation) (st : enrich_state) (act : pydict) :
  (generations st <= generations (fst (enforce_description sha256_hex generator st act))
   <= generations st + 1)%nat.
Proof. unfold enforce_description. destruct_matches; cbn; lia. Qed.

Lemma enforce_notes_generations (sha256_hex : string -> string)
    (generator : nat -> generation) (st : enrich_state) (act : pydict) :
  (generations st <= generations (fst (enforce_notes sha256_hex generator st act))
   <= generations st + 1)%nat.
Proof. unfold enforce_notes. destruct_matches; cbn; lia. Qed.

Lemma enforce_char_limits_length (sha256_hex : string -> string)
    (generator : nat -> generation) (activities : list pydict) :
  forall st : enrich_state,
    length (snd (enforce_char_limits sha256_hex generator st activities)) = length activities /\
    (generations st
     <= generations (fst (enforce_char_limits sha256_hex generator st activities))
     <= generations st + 2 * length activities)%nat.
Proof.
  induction activities as [|a rest IH]; intros st; cbn [enforce_char_limits].
  - cbn. split; [reflexivity | lia].
  - pose proof (enforce_description_generations sha256_hex generator st a) as H1.
    destruct (enforce_description sha256_hex generator st a) as [st1 act1]. cbn [fst] in H1.
    pose proof (enforce_notes_generations sha256_hex generator st1 act1) as H2.
    destruct (enforce_notes sha256_hex generator st1 act1) as [st2 act2]. cbn [fst] in H2.
    specialize (IH st2).
    destruct (enforce_char_limits sha256_hex generator st2 rest) as [st3 rest'].
    cbn [fst snd length] in *. destruct IH as [IHl IHg]. split; [f_equal; exact IHl | lia].
Qed.

(** X17: the stage keeps the number and the order of the records, writes
    no field other than Description and Internal Notes, and calls the
    text generator at most twice per record. *)
Theorem X17_char_limits_frame (sha256_hex : string -> string) (generator : nat -> generation)
    (st : enrich_state) (activities : list pydict) :
  let st' := fst (enforce_char_limits sha256_hex generator st activities) in
  let result := snd (enforce_char_limits sha256_hex generator st activities) in
  length result = length activities /\
  (generations st <= generations st' <= generations st + 2 * length activities)%nat /\
  (forall (i : nat) (act act' : pydict) (k : string),
      activities !! i = Some act -> result !! i = Some act' ->
      k <> "Description" -> k <> "Internal Notes" ->
      dict_get act' k = dict_get act k).
Proof.
  intros st' result. subst st' result.
  destruct (enforce_char_limits_length sha256_hex generator activities st) as [Hl Hg].
  split; [exact Hl|]. split; [exact Hg|].
  intros i act act' k Hi Hi' Hd Hn.
  destruct (enforce_char_limits_lookup sha256_hex generator activities st i act Hi)
    as [st_i Hst].
  pose proof (eq_trans (eq_sym Hi') Hst) as Heq. injection Heq as ->.
  rewrite <- (enforce_description_notes sha256_hex generator st_i act k Hd).
  generalize (snd (enforce_description sha256_hex generator st_i act)).
  generalize (fst (enforce_description sha256_hex generator st_i act)).
  intros st1 act1. unfold enforce_notes.
  destruct_matches; cbn [snd]; try reflexivity; apply dict_get_set_ne; congruence.
Qed.

(** X18: on records whose Description and notes are within the limit the
    stage changes nothing: the records, the cache and the count of
    generator calls come out as they went in. *)
Theorem X18_char_limits_identity_within_limits (sha256_hex : string -> string)
    (generator : nat -> generation) (st : enrich_state) (activities : list pydict) :
  Forall (fun act => within_limits act = true) activities ->
  enforce_char_limits sha256_hex generator st activities = (st, activities).
Proof.
  intros Hall. induction Hall as [|act rest Hact Hrest IH]; cbn [enforce_char_limits];
    [reflexivity|].
  destruct (enforce_within_limits sha256_hex generator st act Hact) as [-> ->].
  rewrite IH. reflexivity.
Qed.

Lemma X18_char_limits_identity_within_limits_witness :
  enforce_char_limits plain_digest (fun _ => ProviderError) empty_enrich_state [sample_record]
  = (empty_enrich_state, [sample_record]).
Proof.
  refine (X18_char_limits_identity_within_limits plain_digest (fun _ => ProviderError)
            empty_enrich_state [sample_record] _).
  repeat constructor.
Defined.

Lemma X16_internal_notes_limit_witness :
  exists stored : string,
    dict_get
      (default []
         (snd (enforce_char_limits plain_digest (fun _ => Generated (Some (unbroken_text 900)))
                 empty_enrich_state [long_notes_record]) !! 0%nat))
      "Internal Notes" = Some (VStr stored) /\
    ends_with_punct stored = true /\
    1 <= len stored <= 851.
Proof.
  refine (X16_internal_notes_limit plain_digest (fun _ => Generated (Some (unbroken_text 900)))
            empty_enrich_state [long_notes_record] 0%nat long_notes_record _
            (spaced_text 240) _ _ _ _).
  - reflexivity.
  - reflexivity.
  - vm_compute. reflexivity.
  - vm_compute. reflexivity.
Defined.

Lemma X17_char_limits_frame_witness :
  dict_get
    (default []
       (snd (enforce_char_limits plain_digest (fun _ => ProviderError) empty_enrich_state
               [long_record]) !! 0%nat))
    "Title"
  = dict_get long_record "Title".
Proof.
  refine (proj2 (proj2 (X17_char_limits_frame plain_digest (fun _ => ProviderError)
                          empty_enrich_state [long_record])) 0%nat long_record _ "Title"
            _ _ _ _).
  - reflexivity.
  - vm_compute. reflexivity.
  - discriminate.
  - discriminate.
Defined.

(** ** Key normalization: what a field of the result holds *)

Lemma normalize_loop_get (activity : pydict) (name : string) :
  forall acc : pydict,
    dict_get (fold_left (fun act kv => dict_set act (mapping_get mapping (fst kv)) (snd kv))
                activity acc) name
    = match last_mapped activity name with
      | Some v => Some v
      | None => dict_get acc name
      end.
Proof.
  induction activity as [|[k v] rest IH]; intros acc; cbn [fold_left last_mapped fst snd];
    [reflexivity|].
  rewrite IH. destruct (last_mapped rest name); [reflexivity|].
  rewrite dict_get_set. destruct (String.eqb (mapping_get mapping k) name); reflexivity.
Qed.

Lemma normalize_get_other (activity : pydict) (name : string) :
  name <> "Quantity" ->
  dict_get (_normalize_activity_keys activity) name = last_mapped activity name.
Proof.
  intros Hne. unfold _normalize_activity_keys.
  destruct (negb _ || _).
  - rewrite dict_get_set_ne by congruence. rewrite normalize_loop_get.
    destruct (last_mapped activity name); reflexivity.
  - rewrite normalize_loop_get. destruct (last_mapped activity name); reflexivity.
Qed.

(** X19: a field of the normalized record holds the value of the last
    item of the raw record, in iteration order, that carries the field's
    name or its legacy synonym (last write wins, whichever of the two
    names it is); Quantity is 1 when that value is absent, [None] or the
    empty string. *)
Theorem X19_normalize_lookup (activity : pydict) (name : string) :
  dict_get (_normalize_activity_keys activity) name
  = if String.eqb name "Quantity" && is_none_or_empty (last_mapped activity "Quantity")
    then Some (VInt 1)
    else last_mapped activity name.
Proof.
  unfold _normalize_activity_keys.
  match goal with |- context [fold_left ?f activity []] => set (act := fold_left f activity []) end.
  assert (Hget : forall n, dict_get act n = last_mapped activity n).
  { intros n. subst act. rewrite normalize_loop_get. destruct (last_mapped activity n); reflexivity. }
  assert (Hq : (negb (dict_has act "Quantity") || is_none_or_empty (dict_get act "Quantity"))
               = is_none_or_empty (last_mapped activity "Quantity")).
  { unfold dict_has. rewrite Hget. destruct (last_mapped activity "Quantity") as [[| | |]|];
      reflexivity. }
  rewrite Hq. destruct (is_none_or_empty (last_mapped activity "Quantity")) eqn:E.
  - rewrite dict_get_set. rewrite String.eqb_sym.
    destruct (String.eqb name "Quantity"); cbn [andb]; [reflexivity | apply Hget].
  - rewrite andb_false_r. apply Hget.
Qed.

(** A record that uses canonical names only, no key twice, and has a
    Quantity other than [None] and the empty string is left as it is. *)
Lemma normalize_fixed (y : pydict) :
  normalized_keys y ->
  (negb (dict_has y "Quantity") || is_none_or_empty (dict_get y "Quantity")) = false ->
  _normalize_activity_keys y = y.
Proof.
  intros Hkeys Hq. unfold _normalize_activity_keys.
  rewrite (normalize_loop_rebuild y []) by exact Hkeys.
  cbn [app]. rewrite Hq. reflexivity.
Qed.

Lemma normalize_result_shape (x : pydict) :
  normalized_keys (_normalize_activity_keys x) /\
  (negb (dict_has (_normalize_activity_keys x) "Quantity")
   || is_none_or_empty (dict_get (_normalize_activity_keys x) "Quantity")) = false.
Proof.
  unfold _normalize_activity_keys.
  match goal with |- context [fold_left ?f x []] => set (act := fold_left f x []) end.
  assert (Hloop : normalized_keys act).
  { subst act. apply normalize_loop_keys. split; constructor. }
  destruct (negb (dict_has act "Quantity") || is_none_or_empty (dict_get act "Quantity")) eqn:E.
  - split; [apply normalized_keys_set; [exact Hloop | reflexivity]|].
    rewrite dict_has_set, dict_get_set, String.eqb_refl. reflexivity.
  - split; [exact Hloop | exact E].
Qed.

(** ** Validation *)

Lemma validate_normalized (x : pydict) :
  validate_activity_data (_normalize_activity_keys x) = validate_activity_data x.
Proof.
  unfold validate_activity_data.
  destruct (normalize_result_shape x) as [Hk Hq].
  rewrite (normalize_fixed _ Hk Hq). reflexivity.
Qed.

Lemma last_mapped_none (activity : pydict) (name : string) :
  (forall k : string, k ∈ map fst activity -> mapping_get mapping k <> name) ->
  last_mapped activity name = None.
Proof.
  induction activity as [|[k v] rest IH]; intros Hno; cbn [last_mapped]; [reflexivity|].
  rewrite IH.
  - assert (Hk : mapping_get mapping k <> name) by (apply Hno; apply list_elem_of_here).
    apply String.eqb_neq in Hk. rewrite Hk. reflexivity.
  - intros k' Hk'. apply Hno. apply list_elem_of_further. exact Hk'.
Qed.

(** X20: the verdict of the validation is positive exactly when nothing
    is reported missing; a field is reported exactly when it is required
    and the normalized record has no non-empty value for it, so Views and
    Additional Technologies are never reported; a required field other
    than Quantity that the raw record carries under neither its canonical
    nor its legacy name is reported; Quantity is reported only when it is
    present as 0 or as an empty list; and validating a normalized record
    gives the verdict of the raw one. *)
Theorem X20_validate (activity : pydict) :
  let ok := fst (validate_activity_data activity) in
  let missing := snd (validate_activity_data activity) in
  (ok = true <-> missing = []) /\
  (forall f : string,
      f ∈ missing <->
      f ∈ required_fields /\ dict_truthy (_normalize_activity_keys activity) f = false) /\
  ("Views" ∉ missing) /\ ("Additional Technologies" ∉ missing) /\
  (forall f : string,
      f ∈ required_fields -> f <> "Quantity" ->
      (forall k : string, k ∈ map fst activity -> mapping_get mapping k <> f) ->
      f ∈ missing) /\
  ("Quantity" ∈ missing ->
   dict_get (_normalize_activity_keys activity) "Quantity" = Some (VInt 0) \/
   dict_get (_normalize_activity_keys activity) "Quantity" = Some (VList [])) /\
  validate_activity_data (_normalize_activity_keys activity) = validate_activity_data activity.
Proof.
  intros ok missing. subst ok missing. unfold validate_activity_data at 1 2 3 4 5 6.
  cbn [fst snd].
  set (act := _normalize_activity_keys activity).
  set (missing := filter (fun field => negb (dict_truthy act field)) required_fields).
  assert (Hiff : forall f, f ∈ missing <-> f ∈ required_fields /\ dict_truthy act f = false).
  { intros f. subst missing. rewrite list_elem_of_filter. split.
    - intros [Hn Hr]. split; [exact Hr|]. destruct (dict_truthy act f); [destruct Hn | reflexivity].
    - intros [Hr Hn]. split; [rewrite Hn; exact I | exact Hr]. }
  split; [|split; [|split; [|split; [|split; [|split]]]]].
  - destruct missing as [|m ms]; cbn; split; congruence.
  - exact Hiff.
  - intros H. apply Hiff in H as [H _]. unfold required_fields in H.
    repeat (apply elem_of_cons in H as [H|H]; [discriminate|]). apply elem_of_nil in H. exact H.
  - intros H. apply Hiff in H as [H _]. unfold required_fields in H.
    repeat (apply elem_of_cons in H as [H|H]; [discriminate|]). apply elem_of_nil in H. exact H.
  - intros f Hr Hq Hno. apply Hiff. split; [exact Hr|].
    unfold dict_truthy. subst act. rewrite (normalize_get_other activity f Hq).
    rewrite (last_mapped_none activity f Hno). reflexivity.
  - intros H. apply Hiff in H as [_ H]. unfold dict_truthy in H.
    pose proof (normalize_result_shape activity) as [_ Hq]. fold act in Hq.
    unfold dict_has in Hq.
    destruct (dict_get act "Quantity") as [[|s|n|l]|]; cbn in Hq, H; try discriminate.
    + apply negb_false_iff in H. rewrite H in Hq. discriminate.
    + apply negb_false_iff, Z.eqb_eq in H. subst n. left. reflexivity.
    + destruct l; [right; reflexivity | discriminate].
  - apply validate_normalized.
Qed.

Lemma X20_validate_witness :
  "URL" ∈ snd (validate_activity_data [("Title", VStr "Talk"); ("Activity Type", VStr "Blog")]).
Proof.
  refine (proj1 (proj2 (proj2 (proj2 (proj2
            (X20_validate [("Title", VStr "Talk"); ("Activity Type", VStr "Blog")])))))
            "URL" _ _ _).
  - unfold required_fields. repeat (first [apply list_elem_of_here | apply list_elem_of_further]).
  - discriminate.
  - intros k Hk. cbn in Hk.
    repeat (apply elem_of_cons in Hk as [->|Hk]; [vm_compute; discriminate|]).
    apply elem_of_nil in Hk. destruct Hk.
Defined.

(** ** The valid records and their submission *)

Lemma filter_none (P : string -> Prop) `{!forall x, Decision (P x)} (l : list string) :
  (forall x, x ∈ l -> ~ P x) -> filter P l = [].
Proof.
  induction l as [|x r IH]; intros Hnone; [reflexivity|].
  rewrite filter_cons_False by (apply Hnone; apply list_elem_of_here).
  apply IH. intros y Hy. apply Hnone. apply list_elem_of_further. exact Hy.
Qed.

Lemma validate_ok_truthy (act : pydict) (f : string) :
  fst (validate_activity_data act) = true ->
  f ∈ required_fields ->
  dict_truthy (_normalize_activity_keys act) f = true.
Proof.
  unfold validate_activity_data. cbn [fst]. intros Hok Hf.
  destruct (filter _ required_fields) as [|m ms] eqn:E; [|discriminate].
  destruct (dict_truthy (_normalize_activity_keys act) f) eqn:Et; [reflexivity|].
  exfalso. refine (filter_nil_not_elem_of _ _ f E _ Hf). rewrite Et. exact I.
Qed.

Lemma valid_activities_elem (activities : list pydict) (act : pydict) :
  act ∈ valid_activities activities <->
  exists raw : pydict,
    raw ∈ activities /\ act = _normalize_activity_keys raw /\
    fst (validate_activity_data raw) = true.
Proof.
  unfold valid_activities. rewrite list_elem_of_filter. split.
  - intros [Hok Hin]. apply list_elem_of_fmap in Hin as (raw & -> & Hraw).
    exists raw. rewrite validate_normalized in Hok. repeat split; assumption.
  - intros (raw & Hraw & -> & Hok). rewrite validate_normalized. split; [exact Hok|].
    apply list_elem_of_fmap_2. exact Hraw.
Qed.

Lemma valid_activities_truthy (activities : list pydict) (act : pydict) :
  act ∈ valid_activities activities ->
  _normalize_activity_keys act = act /\
  Forall (fun f => dict_truthy act f = true) required_fields.
Proof.
  intros Hact. apply valid_activities_elem in Hact as (raw & _ & -> & Hok).
  destruct (normalize_result_shape raw) as [Hk Hq].
  split; [apply normalize_fixed; assumption|].
  apply Forall_forall. intros f Hf. apply validate_ok_truthy; assumption.
Qed.

(** X21: the records selected for submission are, in parse order, the
    normalized forms of the records that pass the validation; each is
    left unchanged by a further normalization and has a non-empty value
    for every required field. *)
Theorem X21_valid_activities (activities : list pydict) :
  valid_activities activities `sublist_of` map _normalize_activity_keys activities /\
  (forall act : pydict,
      act ∈ valid_activities activities <->
      exists raw : pydict,
        raw ∈ activities /\ act = _normalize_activity_keys raw /\
        fst (validate_activity_data raw) = true) /\
  (forall act : pydict,
      act ∈ valid_activities activities ->
      _normalize_activity_keys act = act /\
      Forall (fun f => dict_truthy act f = true) required_fields).
Proof.
  split; [apply sublist_filter|]. split.
  - apply valid_activities_elem.
  - apply valid_activities_truthy.
Qed.

Lemma X21_valid_activities_witness :
  _normalize_activity_keys sample_record = sample_record.
Proof.
  refine (proj1 (proj2 (proj2 (X21_valid_activities [sample_record])) sample_record _)).
  vm_compute. apply list_elem_of_here.
Defined.

Lemma submit_attempts_first_invocation (env : environment) (remaining : nat) (attempt : Z)
    (a : agent) (w : world) :
  (invocations w < invocations (snd (submit_attempts env (S remaining) attempt a w)))%nat.
Proof.
  cbn [submit_attempts]. unfold invoke.
  destruct (executor env (invocations w)) as [content|msg]; [cbn; lia|].
  destruct (is_rate_limit msg).
  - match goal with |- context [call_backoff env a ?w1] =>
      pose proof (call_backoff_invocations env a w1) as Hinv;
      destruct (call_backoff env a w1) as [[a' backoff] w2]
    end.
    cbn [snd invocations] in Hinv.
    pose proof (submit_attempts_invocations env remaining (attempt + 1) a'
                  (emit (emit w2 (EvSleep backoff)) EvSnapshot)) as Hs.
    cbn [emit invocations] in Hs. lia.
  - destruct (is_snapshot_error msg); [|cbn; lia].
    destruct (attempt <? max_attempts - 1); [|cbn; lia].
    match goal with |- context [submit_attempts env remaining (attempt + 1) a ?w1] =>
      pose proof (submit_attempts_invocations env remaining (attempt + 1) a w1) as Hs
    end.
    cbn [emit invocations] in Hs. lia.
Qed.

(** X22: a record selected for submission whose Title and Description
    are texts passes the preparation of [submit_activity] whenever the
    form offers at least one option and none of its options is the empty
    string: for such a record the first submission always reaches the
    executor. *)
Theorem X22_valid_record_is_prepared (activities : list pydict) (act : pydict) (a : agent)
    (opts : tech_options_t) (title description : string) :
  act ∈ valid_activities activities ->
  dict_get act "Title" = Some (VStr title) ->
  dict_get act "Description" = Some (VStr description) ->
  _tech_options (ensure_tech_options a) = Some opts ->
  (primary opts ++ additional opts)%list <> [] ->
  Forall (fun o => o <> "") (primary opts ++ additional opts)%list ->
  snd (prepare_activity a act) = None /\
  (forall (env : environment) (σ : gmap nat pydict) (record : nat) (w : world),
      σ !! record = Some act ->
      (invocations w < invocations (snd (submit_activity env a σ record w)))%nat).
Proof.
  intros Hact Ht Hd Hopts Hne Hall.
  destruct (valid_activities_truthy activities act Hact) as [_ Htruthy].
  rewrite Forall_forall in Htruthy.
  assert (Hprep : snd (prepare_activity a act) = None).
  { unfold prepare_activity. rewrite Hopts.
    destruct (prepare_fields (target_audiences_of a) (Some opts) act) as [wd raised] eqn:E.
    cbn [snd]. unfold prepare_fields, resolve_technologies in E.
    unfold dict_get_or_empty in E. rewrite !dict_get_set_ne in E by discriminate.
    rewrite Ht, Hd in E. cbn [text_or_empty] in E.
    destruct (_choose_tech_areas title description opts) as [pc ac].
    set (vp := if String.eqb (_match_choice pc (primary opts ++ additional opts)%list) ""
               then match (primary opts ++ additional opts)%list with
                    | p :: _ => p
                    | [] => _match_choice pc (primary opts ++ additional opts)%list
                    end
               else _match_choice pc (primary opts ++ additional opts)%list) in E.
    assert (Hvp : truthy (VStr vp) = true).
    { cbn [truthy]. apply negb_true_iff, String.eqb_neq. subst vp.
      destruct (String.eqb (_match_choice pc (primary opts ++ additional opts)%list) "") eqn:Em;
        [|apply String.eqb_neq; exact Em].
      destruct (primary opts ++ additional opts)%list as [|p ps]; [congruence|].
      apply Forall_cons in Hall as [Hp _]. exact Hp. }
    assert (Hnotes : dict_truthy act "Internal Notes" = true).
    { apply Htruthy. unfold required_fields.
      repeat (first [apply list_elem_of_here | apply list_elem_of_further]). }
    rewrite !dict_truthy_set_ne in E by discriminate. rewrite Hnotes in E. cbn [negb] in E.
    rewrite filter_none in E; [injection E as _ <-; reflexivity|].
    intros f Hf Hfalse. apply Is_true_true in Hfalse. apply negb_true_iff in Hfalse.
    pose proof (Htruthy f Hf) as Hact_f. pose proof (target_audiences_nonempty a) as Hta.
    unfold required_fields in Hf.
    repeat (apply elem_of_cons in Hf as [->|Hf];
            [first [ rewrite !dict_truthy_set_ne in Hfalse by discriminate; congruence
                   | rewrite ?dict_truthy_set_ne in Hfalse by discriminate;
                     rewrite dict_truthy_set in Hfalse; congruence ]|]).
    apply elem_of_nil in Hf. destruct Hf. }
  split; [exact Hprep|].
  intros env σ record w Hrec. unfold submit_activity. rewrite Hrec.
  destruct (prepare_activity a act) as [[a1 wd] raised]. cbn [snd] in Hprep. subst raised.
  pose proof (submit_attempts_first_invocation env 2 0 a1 w) as Hfirst.
  change (Z.to_nat max_attempts) with 3%nat.
  destruct (submit_attempts env 3 0 a1 w) as [[r a2] w']. exact Hfirst.
Qed.

Lemma X22_valid_record_is_prepared_witness :
  snd (prepare_activity (agent_init false) sample_record) = None.
Proof.
  refine (proj1 (X22_valid_record_is_prepared [sample_record] sample_record (agent_init false)
                   _get_fallback_tech_options "Talk" "Notes on Python for Azure." _ _ _ _ _ _)).
  - vm_compute. apply list_elem_of_here.
  - reflexivity.
  - reflexivity.
  - reflexivity.
  - discriminate.
  - vm_compute. repeat (constructor; [discriminate|]). constructor.
Defined.

(** ** The batches of a run *)

Lemma range_from_lookup (step : Z) (stop : Z) (fuel : nat) :
  forall (i : Z) (j : nat) (x : Z),
    range_from fuel i stop step !! j = Some x ->
    x = i + Z.of_nat j * step /\ x < stop.
Proof.
  induction fuel as [|fuel IH]; intros i j x Hx; cbn [range_from] in Hx; [discriminate|].
  destruct (i <? stop) eqn:E; [|discriminate].
  destruct j as [|j]; cbn in Hx.
  - injection Hx as <-. apply Z.ltb_lt in E. lia.
  - apply IH in Hx as [-> Hlt]. lia.
Qed.

Lemma batches_concat {A : Type} (l : list A) (n : nat) (fuel : nat) :
  (0 < n)%nat ->
  forall k : nat,
    (length l - k <= fuel)%nat ->
    concat (map (fun i => slice i (Z.of_nat n) l)
              (range_from fuel (Z.of_nat k) (Z.of_nat (length l)) (Z.of_nat n)))
    = drop k l.
Proof.
  intros Hn. induction fuel as [|fuel IH]; intros k Hk; cbn [range_from].
  - cbn. symmetry. apply drop_ge. lia.
  - destruct (Z.of_nat k <? Z.of_nat (length l)) eqn:E.
    + apply Z.ltb_lt in E. cbn [map concat].
      replace (Z.of_nat k + Z.of_nat n) with (Z.of_nat (k + n)) by lia.
      rewrite IH by lia. unfold slice. rewrite !Nat2Z.id.
      rewrite <- (take_drop n (drop k l)) at 2. rewrite drop_drop. reflexivity.
    + apply Z.ltb_ge in E. cbn. symmetry. apply drop_ge. lia.
Qed.

(** X23: the batches partition the valid records.  In sequential mode
    every batch is one record; otherwise, for a positive [batch_size],
    batch number [j] is the run of at most [batch_size] records that
    starts at record [j * batch_size], it is never empty, and the batches
    put end to end give back the valid records in their order.  A zero
    [batch_size] raises, a negative one leaves no batch at all. *)
Theorem X23_batches_partition (process_mode : string) (batch_size : Z) (valid : list pydict) :
  (process_mode = "sequential" ->
   exists batches : list (list pydict),
     make_batches process_mode batch_size valid = inr batches /\
     concat batches = valid /\
     Forall (fun batch => length batch = 1%nat) batches) /\
  (process_mode <> "sequential" -> 0 < batch_size ->
   exists batches : list (list pydict),
     make_batches process_mode batch_size valid = inr batches /\
     concat batches = valid /\
     Forall (fun batch => (1 <= length batch <= Z.to_nat batch_size)%nat) batches /\
     (forall (j : nat) (batch : list pydict),
         batches !! j = Some batch ->
         batch = take (Z.to_nat batch_size) (drop (j * Z.to_nat batch_size) valid))) /\
  (process_mode <> "sequential" -> batch_size = 0 ->
   exists msg : string, make_batches process_mode batch_size valid = inl msg) /\
  (process_mode <> "sequential" -> batch_size < 0 ->
   make_batches process_mode batch_size valid = inr []).
Proof.
  unfold make_batches. repeat split.
  - intros ->. rewrite String.eqb_refl. eexists. split; [reflexivity|]. split.
    + induction valid as [|act rest IH]; [reflexivity|]. cbn. f_equal. exact IH.
    + apply Forall_forall. intros batch Hb.
      apply list_elem_of_fmap in Hb as (act & -> & _). reflexivity.
  - intros Hmode Hpos. apply String.eqb_neq in Hmode. rewrite Hmode.
    unfold range_to. destruct (batch_size =? 0) eqn:E0; [apply Z.eqb_eq in E0; lia|].
    destruct (batch_size <? 0) eqn:E1; [apply Z.ltb_lt in E1; lia|].
    eexists. split; [reflexivity|].
    rewrite Nat2Z.id.
    assert (Hn : batch_size = Z.of_nat (Z.to_nat batch_size)) by lia.
    assert (Hn0 : (0 < Z.to_nat batch_size)%nat) by lia.
    revert Hn Hn0. generalize (Z.to_nat batch_size). intros n -> Hn0. clear E0 E1 Hpos.
    split; [|split].
    + change 0 with (Z.of_nat 0). rewrite batches_concat by lia. reflexivity.
    + apply Forall_forall. intros batch Hb.
      apply list_elem_of_fmap in Hb as (i & -> & Hi).
      apply list_elem_of_lookup in Hi as [j Hj].
      apply range_from_lookup in Hj as [-> Hlt].
      unfold slice. rewrite Nat2Z.id, length_take, length_drop.
      replace (Z.to_nat (0 + Z.of_nat j * Z.of_nat n)) with (j * n)%nat by lia. lia.
    + intros j batch Hb. rewrite list_lookup_fmap in Hb.
      destruct (range_from (length valid) 0 (Z.of_nat (length valid)) (Z.of_nat n) !! j)
        as [i|] eqn:Hj; [|discriminate].
      cbn in Hb. injection Hb as <-.
      apply range_from_lookup in Hj as [-> _]. unfold slice. rewrite Nat2Z.id.
      replace (Z.to_nat (0 + Z.of_nat j * Z.of_nat n)) with (j * n)%nat by lia. reflexivity.
  - intros Hmode ->. apply String.eqb_neq in Hmode. rewrite Hmode. cbn. eexists. reflexivity.
  - intros Hmode Hneg. apply String.eqb_neq in Hmode. rewrite Hmode.
    unfold range_to. destruct (batch_size =? 0) eqn:E0; [apply Z.eqb_eq in E0; lia|].
    destruct (batch_size <? 0) eqn:E1; [reflexivity|apply Z.ltb_ge in E1; lia].
Qed.

Lemma X23_batches_partition_witness :
  exists batches : list (list pydict),
    make_batches "batched" 2 [sample_record; long_record; sample_record] = inr batches /\
    concat batches = [sample_record; long_record; sample_record] /\
    Forall (fun batch => (1 <= length batch <= Z.to_nat 2)%nat) batches /\
    (forall (j : nat) (batch : list pydict),
        batches !! j = Some batch ->
        batch = take (Z.to_nat 2) (drop (j * Z.to_nat 2)
                                     [sample_record; long_record; sample_record])).
Proof.
  refine (proj1 (proj2 (X23_batches_partition "batched" 2
                          [sample_record; long_record; sample_record])) _ _).
  - discriminate.
  - lia.
Defined.

(** ** Missing notes *)

Lemma len_pos_nonempty (text : string) : 1 <= len text -> text <> "".
Proof. intros Hl ->. vm_compute in Hl. apply Hl. reflexivity. Qed.

Section PrivateDescriptionsProperties.

Variable sha256_hex : string -> string.
Variable generator : nat -> generation.

Lemma ensure_step_noted (st : enrich_state) (act : pydict) :
  has_notes act = true ->
  ensure_private_description sha256_hex generator st act = (st, act, None).
Proof.
  unfold has_notes, ensure_private_description. intros H.
  destruct (dict_truthy act "Internal Notes"), (dict_truthy act "Private Description");
    try discriminate; reflexivity.
Qed.

Lemma ensure_step_lacking (st : enrich_state) (act : pydict) :
  has_notes act = false -> hashable act = true ->
  exists (st' : enrich_state) (text : string),
    ensure_private_description sha256_hex generator st act
    = (st', dict_set act "Internal Notes" (VStr text), None) /\
    ends_with_punct text = true /\ 1 <= len text <= 401 /\
    (generations st <= generations st' <= S (generations st))%nat /\
    cached_notes st' (notes_key sha256_hex act) /\
    (cached_notes st (notes_key sha256_hex act) ->
     st' = st /\
     exists cached : string,
       _CacheStore_get (cache_data st) "private_desc" (notes_key sha256_hex act) = Some cached /\
       text = _sanitize_private_description cached 400) /\
    (forall (key cached : string),
        _CacheStore_get (cache_data st) "private_desc" key = Some cached -> cached <> "" ->
        _CacheStore_get (cache_data st') "private_desc" key = Some cached).
Proof.
  unfold has_notes, hashable, notes_key, ensure_private_description, cached_notes.
  intros Hn Hh. apply orb_false_iff in Hn as [-> ->]. cbn [negb andb].
  destruct (text_or_empty (dict_get_or_empty act "Title")) as [title_text|]; [|discriminate].
  destruct (text_or_empty (dict_get_or_empty act "Description")) as [desc_text|]; [|discriminate].
  set (key := _hash sha256_hex [title_text; desc_text]).
  set (text := _sanitize_private_description
                 (generated_notes desc_text (generator (generations st))) 400).
  assert (Hgen :
    (forall cached, _CacheStore_get (cache_data st) "private_desc" key = Some cached ->
                    cached = "") ->
    exists (st' : enrich_state) (text0 : string),
      ({| cache_data := _CacheStore_set (cache_data st) "private_desc" key text;
          generations := S (generations st) |},
       dict_set act "Internal Notes" (VStr text), @None string)
      = (st', dict_set act "Internal Notes" (VStr text0), None) /\
      ends_with_punct text0 = true /\ 1 <= len text0 <= 401 /\
      (generations st <= generations st' <= S (generations st))%nat /\
      (exists cached : string,
          _CacheStore_get (cache_data st') "private_desc" key = Some cached /\ cached <> "") /\
      ((exists cached : string,
           _CacheStore_get (cache_data st) "private_desc" key = Some cached /\ cached <> "") ->
       st' = st /\
       exists cached : string,
         _CacheStore_get (cache_data st) "private_desc" key = Some cached /\
         text0 = _sanitize_private_description cached 400) /\
      (forall (key0 cached : string),
          _CacheStore_get (cache_data st) "private_desc" key0 = Some cached -> cached <> "" ->
          _CacheStore_get (cache_data st') "private_desc" key0 = Some cached)).
  { intros Hmiss.
    destruct (sanitize_private_description_shape
                (generated_notes desc_text (generator (generations st))) 400) as [Hp Hl]; [lia|].
    fold text in Hp, Hl.
    eexists _, text. split; [reflexivity|]. split; [exact Hp|]. split; [lia|].
    cbn [generations cache_data]. split; [lia|]. split; [|split].
    - exists text. rewrite CacheStore_get_set, !String.eqb_refl. split; [reflexivity|].
      apply len_pos_nonempty. lia.
    - intros (cached & Hc & Hne). apply Hmiss in Hc. contradiction.
    - intros key0 cached Hc Hne. rewrite CacheStore_get_set, String.eqb_refl. cbn [andb].
      destruct (String.eqb key key0) eqn:Ek; [|exact Hc].
      apply String.eqb_eq in Ek. subst key0. apply Hmiss in Hc. contradiction. }
  destruct (_CacheStore_get (cache_data st) "private_desc" key) as [cached|] eqn:Hget.
  - destruct (String.eqb cached "") eqn:Ec; cbn [negb].
    + apply Hgen. intros c Hc. injection Hc as Hcc. subst c. apply String.eqb_eq. exact Ec.
    + apply String.eqb_neq in Ec.
      destruct (sanitize_private_description_shape cached 400) as [Hp Hl]; [lia|].
      eexists st, _. split; [reflexivity|]. split; [exact Hp|]. split; [lia|].
      split; [lia|].
      split; [exists cached; split; [first [exact Hget|reflexivity]|exact Ec]|].
      split; [|intros key0 c Hc _; exact Hc].
      intros _. split; [reflexivity|]. exists cached.
      split; [first [exact Hget|reflexivity]|reflexivity].
  - apply Hgen. intros c Hc. discriminate.
Qed.

Lemma ensure_step_unhashable (st : enrich_state) (act : pydict) :
  has_notes act = false -> hashable act = false ->
  exists kind : string,
    ensure_private_description sha256_hex generator st act
    = (st, act, Some (attribute_error kind "encode")).
Proof.
  unfold has_notes, hashable, ensure_private_description.
  intros Hn Hh. apply orb_false_iff in Hn as [-> ->]. cbn [negb andb].
  destruct (text_or_empty (dict_get_or_empty act "Title")) as [title_text|kind];
    [|exists kind; reflexivity].
  destruct (text_or_empty (dict_get_or_empty act "Description")) as [desc_text|kind];
    [discriminate|exists kind; reflexivity].
Qed.

Lemma has_notes_set (act : pydict) (text : string) :
  1 <= len text -> has_notes (dict_set act "Internal Notes" (VStr text)) = true.
Proof.
  intros Hl. unfold has_notes. rewrite dict_truthy_set. cbn [truthy].
  apply len_pos_nonempty, String.eqb_neq in Hl. rewrite Hl. reflexivity.
Qed.

Lemma ensure_all_noted (activities : list pydict) :
  Forall (fun act => has_notes act = true) activities ->
  forall st : enrich_state,
    ensure_private_descriptions sha256_hex generator st activities = (st, activities, None).
Proof.
  induction 1 as [|act rest Hact _ IH]; intros st; cbn [ensure_private_descriptions];
    [reflexivity|].
  rewrite (ensure_step_noted st act Hact), IH. reflexivity.
Qed.

Lemma ensure_loop_completes (activities : list pydict) :
  Forall (fun act => has_notes act = true \/ hashable act = true) activities ->
  forall st : enrich_state,
  exists (st' : enrich_state) (out : list pydict),
    ensure_private_descriptions sha256_hex generator st activities = (st', out, None) /\
    Forall2 completed activities out /\
    (generations st <= generations st'
     <= generations st + length (filter (fun act => has_notes act = false) activities))%nat /\
    (forall (key cached : string),
        _CacheStore_get (cache_data st) "private_desc" key = Some cached -> cached <> "" ->
        _CacheStore_get (cache_data st') "private_desc" key = Some cached).
Proof.
  induction 1 as [|act rest Hact _ IH]; intros st; cbn [ensure_private_descriptions].
  - exists st, []. split; [reflexivity|]. split; [constructor|]. split; [cbn; lia|]. auto.
  - destruct (has_notes act) eqn:Hn.
    + rewrite (ensure_step_noted st act Hn).
      destruct (IH st) as (st' & out & -> & Hout & Hg & Hc).
      exists st', (act :: out). split; [reflexivity|]. split.
      * constructor; [|exact Hout]. split; [exact Hn|]. split; [reflexivity|].
        rewrite Hn. discriminate.
      * rewrite filter_cons_False by (rewrite Hn; discriminate). split; assumption.
    + destruct Hact as [Hact|Hact]; [congruence|].
      destruct (ensure_step_lacking st act Hn Hact)
        as (st1 & text & -> & Hp & Hl & Hg1 & _ & _ & Hc1).
      destruct (IH st1) as (st' & out & -> & Hout & Hg & Hc).
      exists st', (dict_set act "Internal Notes" (VStr text) :: out).
      split; [reflexivity|]. split; [|split].
      * constructor; [|exact Hout]. split; [apply has_notes_set; lia|].
        split; [rewrite Hn; discriminate|]. intros _. exists text. repeat split; assumption || lia.
      * rewrite filter_cons_True by exact Hn. cbn [length]. lia.
      * intros key cached Hk Hne. apply Hc; [|exact Hne]. apply Hc1; assumption.
Qed.

(** X24: when the Title and the Description of every record without
    notes can be hashed, [ensure_private_descriptions] raises nothing and
    leaves every record with notes: a record that had notes under one of
    the two names is left as it was, a record that had none gets, under
    Internal Notes only, a text of 1 to 401 characters that ends with
    sentence punctuation.  The text generator is called at most once per
    record without notes, and a second run of the stage over its own
    result changes nothing and calls the generator no more. *)
Theorem X24_private_descriptions_filled (st : enrich_state) (activities : list pydict) :
  Forall (fun act => has_notes act = true \/ hashable act = true) activities ->
  exists (st' : enrich_state) (out : list pydict),
    ensure_private_descriptions sha256_hex generator st activities = (st', out, None) /\
    Forall2 completed activities out /\
    (generations st <= generations st'
     <= generations st + length (filter (fun act => has_notes act = false) activities))%nat /\
    ensure_private_descriptions sha256_hex generator st' out = (st', out, None).
Proof.
  intros Hall. destruct (ensure_loop_completes activities Hall st)
    as (st' & out & Heq & Hout & Hg & _).
  exists st', out. split; [exact Heq|]. split; [exact Hout|]. split; [exact Hg|].
  apply ensure_all_noted. clear Heq Hg Hall.
  induction Hout as [|act act' rest out' [Hn _] _ IH]; constructor; assumption.
Qed.

Lemma ensure_loop_app (pre : list pydict) :
  forall (st st1 : enrich_state) (out : list pydict) (post : list pydict),
    ensure_private_descriptions sha256_hex generator st pre = (st1, out, None) ->
    ensure_private_descriptions sha256_hex generator st (pre ++ post)%list
    = (let '(st2, out2, raised) := ensure_private_descriptions sha256_hex generator st1 post in
       (st2, (out ++ out2)%list, raised)).
Proof.
  induction pre as [|act rest IH]; intros st st1 out post Heq;
    cbn [ensure_private_descriptions app] in *.
  - injection Heq as <- <-. cbn [app].
    destruct (ensure_private_descriptions sha256_hex generator st post) as [[st2 out2] raised].
    reflexivity.
  - destruct (ensure_private_description sha256_hex generator st act)
      as [[sta act1] [msg|]]; [discriminate|].
    destruct (ensure_private_descriptions sha256_hex generator sta rest)
      as [[stb outb] raisedb] eqn:Erest.
    injection Heq as <- <- ->.
    rewrite (IH sta stb outb post Erest).
    destruct (ensure_private_descriptions sha256_hex generator stb post) as [[st2 out2] raised].
    reflexivity.
Qed.

Lemma ensure_loop_keeps (activities : list pydict) :
  forall (st st' : enrich_state) (out : list pydict) (raised : option string)
         (key cached : string),
    ensure_private_descriptions sha256_hex generator st activities = (st', out, raised) ->
    _CacheStore_get (cache_data st) "private_desc" key = Some cached -> cached <> "" ->
    _CacheStore_get (cache_data st') "private_desc" key = Some cached.
Proof.
  induction activities as [|act rest IH]; intros st st' out raised key cached Heq Hk Hne;
    cbn [ensure_private_descriptions] in Heq.
  - injection Heq as <- _ _. exact Hk.
  - assert (Hstep : forall sta act1 r,
               ensure_private_description sha256_hex generator st act = (sta, act1, r) ->
               _CacheStore_get (cache_data sta) "private_desc" key = Some cached).
    { intros sta act1 r Es. destruct (has_notes act) eqn:Hn.
      - rewrite (ensure_step_noted st act Hn) in Es. injection Es as <- _ _. exact Hk.
      - destruct (hashable act) eqn:Hh.
        + destruct (ensure_step_lacking st act Hn Hh) as (s & t & E & _ & _ & _ & _ & _ & Hc).
          rewrite E in Es. injection Es as <- _ _. apply Hc; assumption.
        + destruct (ensure_step_unhashable st act Hn Hh) as (kind & E).
          rewrite E in Es. injection Es as <- _ _. exact Hk. }
    destruct (ensure_private_description sha256_hex generator st act)
      as [[sta act1] [msg|]] eqn:Es.
    + injection Heq as <- _ _. eapply Hstep. reflexivity.
    + destruct (ensure_private_descriptions sha256_hex generator sta rest)
        as [[stb outb] raisedb] eqn:Erest.
      injection Heq as <- _ _.
      eapply IH; [exact Erest| |exact Hne]. eapply Hstep. reflexivity.
Qed.

Lemma ensure_loop_app_inv (pre : list pydict) :
  forall (st st' : enrich_state) (out post : list pydict),
    ensure_private_descriptions sha256_hex generator st (pre ++ post)%list = (st', out, None) ->
    exists (st1 : enrich_state) (out1 out2 : list pydict),
      ensure_private_descriptions sha256_hex generator st pre = (st1, out1, None) /\
      ensure_private_descriptions sha256_hex generator st1 post = (st', out2, None) /\
      out = (out1 ++ out2)%list.
Proof.
  induction pre as [|act rest IH]; intros st st' out post Heq;
    cbn [ensure_private_descriptions app] in *.
  - exists st, [], out. repeat split. exact Heq.
  - destruct (ensure_private_description sha256_hex generator st act)
      as [[sta act1] [msg|]]; [discriminate|].
    destruct (ensure_private_descriptions sha256_hex generator sta (rest ++ post)%list)
      as [[stb outb] raisedb] eqn:Erest.
    injection Heq as <- <- ->.
    destruct (IH sta stb outb post Erest) as (st1 & out1 & out2 & -> & E2 & ->).
    exists st1, (act1 :: out1), out2. repeat split. exact E2.
Qed.

Lemma notes_key_same (act act2 : pydict) :
  text_or_empty (dict_get_or_empty act2 "Title")
  = text_or_empty (dict_get_or_empty act "Title") ->
  text_or_empty (dict_get_or_empty act2 "Description")
  = text_or_empty (dict_get_or_empty act "Description") ->
  notes_key sha256_hex act2 = notes_key sha256_hex act /\ hashable act2 = hashable act.
Proof. unfold notes_key, hashable. intros -> ->. split; reflexivity. Qed.

(** X25: notes written for a record are reused.  Once the stage has
    passed a record without notes, a later record without notes that has
    the same Title and Description, in the same run or in a later one
    over the same cache, gets the sanitized form of the cached text: the
    text generator is not called for it and the cache is not written. *)
Theorem X25_cached_notes_reused (st : enrich_state) (pre mid : list pydict)
    (act act2 : pydict) :
  let result := ensure_private_descriptions sha256_hex generator st (pre ++ act :: mid)%list in
  let st1 := fst (fst result) in
  snd result = None ->
  has_notes act = false ->
  has_notes act2 = false ->
  text_or_empty (dict_get_or_empty act2 "Title")
  = text_or_empty (dict_get_or_empty act "Title") ->
  text_or_empty (dict_get_or_empty act2 "Description")
  = text_or_empty (dict_get_or_empty act "Description") ->
  exists cached : string,
    _CacheStore_get (cache_data st1) "private_desc" (notes_key sha256_hex act2) = Some cached /\
    cached <> "" /\
    ensure_private_description sha256_hex generator st1 act2
    = (st1, dict_set act2 "Internal Notes" (VStr (_sanitize_private_description cached 400)),
       None).
Proof.
  intros result st1 Hnone Hn Hn2 Ht Hd. subst st1 result.
  destruct (ensure_private_descriptions sha256_hex generator st (pre ++ act :: mid)%list)
    as [[st1 out] raised] eqn:Heq.
  cbn [fst snd] in *. subst raised.
  apply ensure_loop_app_inv in Heq as (st0 & out1 & out2 & _ & Hpost & _).
  cbn [ensure_private_descriptions] in Hpost.
  destruct (notes_key_same act act2 Ht Hd) as [Hkey Hhash].
  destruct (hashable act) eqn:Hh.
  - destruct (ensure_step_lacking st0 act Hn Hh)
      as (sta & text & E & _ & _ & _ & (cached & Hc & Hne) & _ & _).
    rewrite E in Hpost.
    destruct (ensure_private_descriptions sha256_hex generator sta mid)
      as [[stb outb] raisedb] eqn:Emid.
    injection Hpost as <- _ _.
    pose proof (ensure_loop_keeps mid sta stb outb raisedb _ cached Emid Hc Hne) as Hkept.
    rewrite <- Hkey in Hkept.
    destruct (ensure_step_lacking stb act2 Hn2 Hhash)
      as (stc & text2 & E2 & _ & _ & _ & _ & Hhit & _).
    destruct Hhit as [-> (cached2 & Hc2 & ->)]; [exists cached; split; assumption|].
    pose proof (eq_trans (eq_sym Hkept) Hc2) as Hsame. injection Hsame as <-.
    exists cached. split; [exact Hkept|]. split; [exact Hne|exact E2].
  - destruct (ensure_step_unhashable st0 act Hn Hh) as (kind & E).
    rewrite E in Hpost. discriminate.
Qed.

(** X26: a record without notes whose Title or Description is a number
    other than 0, or a list other than the empty one, stops the stage with
    an AttributeError on [encode]: the records before it have been
    completed, the record itself and the records after it are left as
    they were. *)
Theorem X26_unhashable_record_stops (st : enrich_state) (pre post : list pydict)
    (act : pydict) :
  Forall (fun act0 => has_notes act0 = true \/ hashable act0 = true) pre ->
  has_notes act = false ->
  hashable act = false ->
  exists (st' : enrich_state) (out : list pydict) (kind : string),
    ensure_private_descriptions sha256_hex generator st (pre ++ act :: post)%list
    = (st', (out ++ act :: post)%list, Some (attribute_error kind "encode")) /\
    Forall2 completed pre out.
Proof.
  intros Hpre Hn Hh.
  destruct (ensure_loop_completes pre Hpre st) as (st1 & out & Heq & Hout & _ & _).
  destruct (ensure_step_unhashable st1 act Hn Hh) as (kind & E).
  exists st1, out, kind. split; [|exact Hout].
  rewrite (ensure_loop_app pre st st1 out (act :: post) Heq).
  cbn [ensure_private_descriptions]. rewrite E. reflexivity.
Qed.

End PrivateDescriptionsProperties.

Lemma X24_private_descriptions_filled_witness :
  exists (st' : enrich_state) (out : list pydict),
    ensure_private_descriptions plain_digest (fun _ => ProviderError) empty_enrich_state
      [sample_record; bare_record] = (st', out, None) /\
    Forall2 completed [sample_record; bare_record] out /\
    (generations empty_enrich_state <= generations st'
     <= generations empty_enrich_state
        + length (filter (fun act => has_notes act = false) [sample_record; bare_record]))%nat /\
    ensure_private_descriptions plain_digest (fun _ => ProviderError) st' out = (st', out, None).
Proof.
  apply (X24_private_descriptions_filled plain_digest (fun _ => ProviderError)
           empty_enrich_state [sample_record; bare_record]).
  apply Forall_cons. split; [left; reflexivity|].
  apply Forall_cons. split; [right; reflexivity|].
  apply Forall_nil_2.
Defined.

Lemma X25_cached_notes_reused_witness :
  exists cached : string,
    _CacheStore_get
      (cache_data
         (fst (fst (ensure_private_descriptions plain_digest (fun _ => ProviderError)
                      empty_enrich_state ([] ++ bare_record :: [sample_record])%list))))
      "private_desc" (notes_key plain_digest bare_record) = Some cached /\
    cached <> "" /\
    ensure_private_description plain_digest (fun _ => ProviderError)
      (fst (fst (ensure_private_descriptions plain_digest (fun _ => ProviderError)
                   empty_enrich_state ([] ++ bare_record :: [sample_record])%list)))
      bare_record
    = (fst (fst (ensure_private_descriptions plain_digest (fun _ => ProviderError)
                   empty_enrich_state ([] ++ bare_record :: [sample_record])%list)),
       dict_set bare_record "Internal Notes"
         (VStr (_sanitize_private_description cached 400)),
       None).
Proof.
  apply (X25_cached_notes_reused plain_digest (fun _ => ProviderError) empty_enrich_state
           [] [sample_record] bare_record bare_record); reflexivity.
Defined.

Lemma X26_unhashable_record_stops_witness :
  exists (st' : enrich_state) (out : list pydict) (kind : string),
    ensure_private_descriptions plain_digest (fun _ => ProviderError) empty_enrich_state
      ([bare_record] ++ numbered_record :: [bare_record])%list
    = (st', (out ++ numbered_record :: [bare_record])%list,
       Some (attribute_error kind "encode")) /\
    Forall2 completed [bare_record] out.
Proof.
  apply (X26_unhashable_record_stops plain_digest (fun _ => ProviderError) empty_enrich_state
           [bare_record] [bare_record] numbered_record).
  - apply Forall_cons. split; [right; reflexivity|]. apply Forall_nil_2.
  - reflexivity.
  - reflexivity.
Defined.


(** ** The parser's answer *)

Example extract_json_array_example :
  _extract_json_array
    ("Here you go:" ++ String newline "" ++ "[{" ++ "}]" ++ String newline "" ++ "Done.")
  = "[{" ++ "}]".
Proof. vm_compute. reflexivity. Qed.

Lemma substring_of_chars (t s : string) :
  (exists pre post : list ascii, chars s = (pre ++ chars t ++ post)%list) -> substring t s.
Proof.
  intros (pre & post & H). exists (text_of pre), (text_of post).
  apply chars_inj. rewrite !chars_append, !chars_text_of. exact H.
Qed.

Lemma substring_refl (s : string) : substring s s.
Proof.
  apply substring_of_chars. exists [], []. rewrite app_nil_r. reflexivity.
Qed.

Lemma substring_trans (a b c : string) : substring a b -> substring b c -> substring a c.
Proof.
  intros (p1 & q1 & ->) (p2 & q2 & ->). apply substring_of_chars.
  exists (chars p2 ++ chars p1)%list, (chars q1 ++ chars q2)%list.
  rewrite !chars_append, <- !app_assoc. reflexivity.
Qed.

Lemma drop_while_suffix (p : ascii -> bool) (l : list ascii) :
  exists pre : list ascii, l = (pre ++ drop_while p l)%list.
Proof.
  induction l as [|c r [pre IH]]; cbn [drop_while]; [exists []; reflexivity|].
  destruct (p c); [|exists []; reflexivity].
  exists (c :: pre). cbn. f_equal. exact IH.
Qed.

Lemma drop_while_end_prefix (p : ascii -> bool) (l : list ascii) :
  exists post : list ascii, l = (drop_while_end p l ++ post)%list.
Proof.
  unfold drop_while_end. destruct (drop_while_suffix p (rev l)) as [pre H].
  exists (rev pre). rewrite <- rev_app_distr, <- H, rev_involutive. reflexivity.
Qed.

Lemma substring_strip (s : string) : substring (strip s) s.
Proof.
  apply substring_of_chars. unfold strip. rewrite chars_text_of.
  destruct (drop_while_suffix is_space (chars s)) as [pre Hpre].
  destruct (drop_while_end_prefix is_space (drop_while is_space (chars s))) as [post Hpost].
  exists pre, post. rewrite <- Hpost. exact Hpre.
Qed.

Lemma substring_slice_between (i j : Z) (s : string) : substring (slice_between i j s) s.
Proof.
  apply substring_of_chars. unfold slice_between. rewrite chars_text_of.
  exists (take (Z.to_nat i) (chars s)),
         (drop (Z.to_nat (j - i)) (drop (Z.to_nat i) (chars s))).
  rewrite take_drop, take_drop. reflexivity.
Qed.

Lemma substring_slice_from (n : Z) (s : string) : substring (slice_from n s) s.
Proof.
  apply substring_of_chars. unfold slice_from. rewrite chars_text_of.
  exists (take (Z.to_nat n) (chars s)), []. rewrite app_nil_r, take_drop. reflexivity.
Qed.

Lemma substring_slice_to (n : Z) (s : string) : substring (slice_to n s) s.
Proof.
  apply substring_of_chars. unfold slice_to. rewrite chars_text_of.
  exists [], (drop (Z.to_nat n) (chars s)). cbn [app]. rewrite take_drop. reflexivity.
Qed.

Lemma find_from_spec (c : ascii) (l : list ascii) :
  forall i : Z,
    (find_from c l i = -1 /\ c ∉ l) \/
    (i <= find_from c l i < i + Z.of_nat (length l) /\
     l !! Z.to_nat (find_from c l i - i) = Some c).
Proof.
  induction l as [|x r IH]; intros i; cbn [find_from].
  - left. split; [reflexivity|apply not_elem_of_nil].
  - destruct (Ascii.eqb x c) eqn:E.
    + apply Ascii.eqb_eq in E. subst x. right. cbn [length].
      split; [lia|]. rewrite Z.sub_diag. reflexivity.
    + destruct (IH (i + 1)) as [[-> Hnin]|[Hr Hl]].
      * left. split; [reflexivity|]. intros Hin. apply elem_of_cons in Hin as [->|Hin].
        -- rewrite Ascii.eqb_refl in E. discriminate.
        -- contradiction.
      * right. cbn [length]. split; [lia|].
        replace (Z.to_nat (find_from c r (i + 1) - i))
          with (S (Z.to_nat (find_from c r (i + 1) - (i + 1)))) by lia.
        exact Hl.
Qed.

Lemma rfind_from_lookup (c : ascii) (l : list ascii) :
  forall i acc : Z,
    (rfind_from c l i acc = acc /\ c ∉ l) \/
    (i <= rfind_from c l i acc < i + Z.of_nat (length l) /\
     l !! Z.to_nat (rfind_from c l i acc - i) = Some c).
Proof.
  induction l as [|x r IH]; intros i acc; cbn [rfind_from].
  - left. split; [reflexivity|apply not_elem_of_nil].
  - destruct (Ascii.eqb x c) eqn:E.
    + apply Ascii.eqb_eq in E. subst x. right.
      destruct (IH (i + 1) i) as [[-> _]|[Hr Hl]]; cbn [length].
      * split; [lia|]. rewrite Z.sub_diag. reflexivity.
      * split; [lia|].
        replace (Z.to_nat (rfind_from c r (i + 1) i - i))
          with (S (Z.to_nat (rfind_from c r (i + 1) i - (i + 1)))) by lia.
        exact Hl.
    + destruct (IH (i + 1) acc) as [[-> Hnin]|[Hr Hl]].
      * left. split; [reflexivity|]. intros Hin. apply elem_of_cons in Hin as [->|Hin].
        -- rewrite Ascii.eqb_refl in E. discriminate.
        -- contradiction.
      * right. cbn [length]. split; [lia|].
        replace (Z.to_nat (rfind_from c r (i + 1) acc - i))
          with (S (Z.to_nat (rfind_from c r (i + 1) acc - (i + 1)))) by lia.
        exact Hl.
Qed.

Lemma is_infix_one (c : ascii) (l : list ascii) : is_infix [c] l = true <-> c ∈ l.
Proof.
  induction l as [|x r IH]; cbn [is_infix is_prefix].
  - split; [discriminate|]. intros H. apply elem_of_nil in H. destruct H.
  - rewrite andb_true_r, orb_true_iff, IH, elem_of_cons, Ascii.eqb_eq.
    split; intros [H|H]; auto.
Qed.

Lemma contains_one (c : ascii) (s : string) :
  contains (String c "") s = true <-> c ∈ chars s.
Proof. unfold contains. change (chars (String c "")) with [c]. apply is_infix_one. Qed.

Lemma startswith_one (c : ascii) (s : string) :
  startswith (String c "") s = true <-> exists r : list ascii, chars s = c :: r.
Proof.
  unfold startswith. change (chars (String c "")) with [c].
  destruct (chars s) as [|x r]; cbn [is_prefix].
  - split; [discriminate|]. intros [r H]. discriminate.
  - rewrite andb_true_r, Ascii.eqb_eq. split.
    + intros <-. exists r. reflexivity.
    + intros [r' H]. injection H as -> _. reflexivity.
Qed.

Lemma endswith_one (c : ascii) (s : string) :
  endswith (String c "") s = true <-> exists r : list ascii, chars s = (r ++ [c])%list.
Proof.
  unfold endswith. change (rev (chars (String c ""))) with [c].
  destruct (rev (chars s)) as [|x r] eqn:E; cbn [is_prefix].
  - split; [discriminate|]. intros [r H]. rewrite H, rev_app_distr in E. discriminate.
  - rewrite andb_true_r, Ascii.eqb_eq. split.
    + intros <-. exists (rev r). rewrite <- (rev_involutive (chars s)), E. reflexivity.
    + intros [r' H]. rewrite H, rev_app_distr in E. injection E as -> _. reflexivity.
Qed.

Lemma bracket_shape (s : string) :
  contains "[" s = true -> contains "]" s = true ->
  let r := slice_between (str_find "[" s) (rfind "]" s + 1) s in
  r = "" \/ (startswith "[" r = true /\ endswith "]" r = true).
Proof.
  intros Ho Hc r. subst r. apply contains_one in Ho, Hc.
  unfold slice_between, str_find, rfind.
  destruct (find_from_spec "[" (chars s) 0) as [[_ Hn]|[Hs Hsl]]; [contradiction|].
  destruct (rfind_from_lookup "]" (chars s) 0 (-1)) as [[_ Hn]|[He Hel]]; [contradiction|].
  set (st := find_from "[" (chars s) 0) in *.
  set (e := rfind_from "]" (chars s) 0 (-1)) in *.
  rewrite Z.sub_0_r in Hsl, Hel.
  destruct (Z.ltb_spec e st) as [Hlt|Hge].
  - left. replace (Z.to_nat (e + 1 - st)) with 0%nat by lia. reflexivity.
  - right. replace (Z.to_nat (e + 1 - st)) with (S (Z.to_nat e - Z.to_nat st)) by lia.
    assert (Hfirst : drop (Z.to_nat st) (chars s) !! 0%nat = Some "["%char).
    { rewrite lookup_drop, Nat.add_0_r. exact Hsl. }
    assert (Hlast : drop (Z.to_nat st) (chars s) !! (Z.to_nat e - Z.to_nat st)%nat
                    = Some "]"%char).
    { rewrite lookup_drop. replace (Z.to_nat st + (Z.to_nat e - Z.to_nat st))%nat
        with (Z.to_nat e) by lia. exact Hel. }
    split.
    + apply startswith_one. rewrite chars_text_of.
      destruct (drop (Z.to_nat st) (chars s)) as [|x l]; [discriminate|].
      cbn in Hfirst. injection Hfirst as ->. eexists. reflexivity.
    + apply endswith_one. rewrite chars_text_of.
      rewrite (take_S_r _ _ _ Hlast). eexists. reflexivity.
Qed.

Lemma rfind_from_last (c : ascii) (l : list ascii) :
  forall i acc : Z, rfind_from c (l ++ [c]) i acc = i + Z.of_nat (length l).
Proof.
  induction l as [|x r IH]; intros i acc; cbn [rfind_from app length].
  - rewrite Ascii.eqb_refl. lia.
  - rewrite IH. lia.
Qed.

Lemma bracket_core (s : string) :
  startswith "[" s = true -> endswith "]" s = true ->
  (if contains "[" s && contains "]" s
   then slice_between (str_find "[" s) (rfind "]" s + 1) s
   else s) = s.
Proof.
  intros Hs He. apply startswith_one in Hs as [r Hr]. apply endswith_one in He as [r' Hr'].
  assert (Ho : contains "[" s = true).
  { apply contains_one. rewrite Hr. apply list_elem_of_here. }
  assert (Hc : contains "]" s = true).
  { apply contains_one. rewrite Hr'. apply elem_of_app. right. apply list_elem_of_here. }
  rewrite Ho, Hc. cbn [andb]. unfold slice_between, str_find, rfind.
  assert (Hf : find_from "[" (chars s) 0 = 0) by (rewrite Hr; reflexivity).
  assert (Hl : rfind_from "]" (chars s) 0 (-1) = Z.of_nat (length r'))
    by (rewrite Hr', rfind_from_last; lia).
  rewrite Hf, Hl. change (Z.to_nat 0) with 0%nat. rewrite drop_0, take_ge.
  - apply text_of_chars.
  - rewrite Hr', length_app. cbn [length]. lia.
Qed.

Lemma strip_clean (c c' : ascii) :
  is_space c = false -> is_space c' = false ->
  forall s : string,
    (exists r : list ascii, chars s = c :: r) ->
    (exists r : list ascii, chars s = (r ++ [c'])%list) ->
    strip s = s.
Proof.
  intros Hc Hc' s [r Hr] [r' Hr']. unfold strip.
  rewrite Hr. cbn [drop_while]. rewrite Hc, <- Hr. unfold drop_while_end.
  rewrite Hr', rev_app_distr. cbn [rev app drop_while]. rewrite Hc'.
  change ((c' :: rev r')%list) with (rev [c'] ++ rev r')%list.
  rewrite <- rev_app_distr, rev_involutive, <- Hr'. apply text_of_chars.
Qed.

Lemma is_prefix_app (p l : list ascii) : is_prefix p (p ++ l) = true.
Proof.
  induction p as [|a p IH]; cbn [is_prefix app]; [reflexivity|].
  rewrite Ascii.eqb_refl. exact IH.
Qed.

Lemma find_from_app (c : ascii) (l1 l2 : list ascii) :
  c ∉ l1 -> forall i : Z, find_from c (l1 ++ c :: l2) i = i + Z.of_nat (length l1).
Proof.
  induction l1 as [|x r IH]; intros Hn i; cbn [find_from app length].
  - rewrite Ascii.eqb_refl. lia.
  - destruct (Ascii.eqb x c) eqn:E.
    + apply Ascii.eqb_eq in E. subst x. exfalso. apply Hn. apply list_elem_of_here.
    + rewrite IH; [lia|]. intros Hin. apply Hn. apply list_elem_of_further. exact Hin.
Qed.

Lemma not_fenced (s : string) :
  startswith "[" s = true ->
  startswith fence s = false /\ startswith ("json" ++ String newline "") s = false.
Proof.
  intros Hs. apply startswith_one in Hs as [r Hr]. unfold startswith. rewrite Hr.
  split; reflexivity.
Qed.

Lemma strip_array (s : string) :
  startswith "[" s = true -> endswith "]" s = true -> strip s = s.
Proof.
  intros Hs He. apply startswith_one in Hs. apply endswith_one in He.
  apply (strip_clean "[" "]"); [reflexivity|reflexivity|exact Hs|exact He].
Qed.

Lemma strip_array_line (body : string) :
  startswith "[" body = true -> endswith "]" body = true ->
  strip (text_of (chars body ++ [newline])) = body.
Proof.
  intros Hs He. rewrite <- (strip_array body Hs He) at 2.
  apply startswith_one in Hs as [r Hr].
  unfold strip. rewrite chars_text_of, Hr. cbn [app drop_while].
  change (is_space "[") with false. cbv iota. f_equal.
  unfold drop_while_end.
  change ("["%char :: r ++ [newline])%list with (("["%char :: r) ++ [newline])%list.
  rewrite rev_app_distr. cbn [rev app drop_while].
  change (is_space newline) with true. cbv iota. reflexivity.
Qed.

(** X27: [_extract_json_array] returns a run of consecutive characters
    of the answer it is given.  A result that holds both an opening and a
    closing bracket begins with '[' and ends with ']'.  An answer that,
    blanks at its ends apart, begins with '[' and ends with ']' is
    returned without those blanks, and an array inside a code fence, with
    or without a language tag on the fence line, is returned without the
    fence. *)
Theorem X27_extract_json_array (raw : string) :
  substring (_extract_json_array raw) raw /\
  (contains "[" (_extract_json_array raw) = true ->
   contains "]" (_extract_json_array raw) = true ->
   startswith "[" (_extract_json_array raw) = true /\
   endswith "]" (_extract_json_array raw) = true) /\
  (startswith "[" (strip raw) = true -> endswith "]" (strip raw) = true ->
   _extract_json_array raw = strip raw) /\
  (forall tag body : string,
      newline ∉ chars tag ->
      startswith "[" body = true -> endswith "]" body = true ->
      raw = fence ++ tag ++ String newline "" ++ body ++ String newline "" ++ fence ->
      _extract_json_array raw = body).
Proof.
  split; [|split; [|split]].
  - unfold _extract_json_array.
    set (s0 := strip raw).
    set (s1 := if startswith fence s0 then _ else s0).
    assert (H1 : substring s1 raw).
    { apply (substring_trans _ s0); [|apply substring_strip]. subst s1.
      destruct (startswith fence s0); [|apply substring_refl].
      set (a := if negb (str_find newline s0 =? -1) then _ else s0).
      assert (Ha : substring a s0).
      { subst a. destruct (negb _); [apply substring_slice_from|apply substring_refl]. }
      set (b := if endswith fence a then _ else a).
      assert (Hb : substring b a).
      { subst b. destruct (endswith fence a); [apply substring_slice_to|apply substring_refl]. }
      apply (substring_trans _ a); [|exact Ha]. apply (substring_trans _ b); [|exact Hb].
      apply (substring_trans _ (strip b)); [|apply substring_strip].
      destruct (startswith _ (strip b)); [apply substring_slice_from|apply substring_refl]. }
    destruct (contains "[" s1 && contains "]" s1); [|exact H1].
    apply (substring_trans _ s1); [apply substring_slice_between|exact H1].
  - unfold _extract_json_array.
    set (s0 := strip raw).
    set (s1 := if startswith fence s0 then _ else s0).
    destruct (contains "[" s1) eqn:Ho; cbn [andb].
    + destruct (contains "]" s1) eqn:Hc.
      * destruct (bracket_shape s1 Ho Hc) as [->|H]; [discriminate|].
        intros _ _. exact H.
      * intros _ H. congruence.
    + intros H _. congruence.
  - intros Hs He. unfold _extract_json_array.
    destruct (not_fenced (strip raw) Hs) as [-> _].
    apply bracket_core; assumption.
  - intros tag body Htag Hs He ->.
    set (raw := fence ++ tag ++ String newline "" ++ body ++ String newline "" ++ fence).
    assert (Hchars : chars raw
              = ((chars fence ++ chars tag) ++ newline :: chars body ++ [newline] ++ chars fence)%list).
    { subst raw. rewrite !chars_append, <- !app_assoc. reflexivity. }
    assert (Hstrip : strip raw = raw).
    { apply (strip_clean "`" "`"); [reflexivity|reflexivity| |].
      - rewrite Hchars. eexists. reflexivity.
      - rewrite Hchars. exists ((chars fence ++ chars tag) ++ newline :: chars body
                                 ++ [newline] ++ ["`"%char; "`"%char])%list.
        change (chars fence) with ["`"%char; "`"%char; "`"%char].
        repeat (rewrite <- app_assoc); cbn [app]; repeat (rewrite <- app_assoc); cbn [app].
        reflexivity. }
    unfold _extract_json_array. rewrite Hstrip.
    assert (Hfence : startswith fence raw = true).
    { unfold startswith. rewrite Hchars, <- app_assoc. apply is_prefix_app. }
    rewrite Hfence.
    assert (Hfind : str_find newline raw = Z.of_nat (length (chars fence ++ chars tag))).
    { unfold str_find. rewrite Hchars, find_from_app; [lia|].
      intros Hin. apply elem_of_app in Hin as [Hin|Hin]; [|contradiction].
      cbn in Hin. repeat (apply elem_of_cons in Hin as [Hin|Hin]; [discriminate|]).
      apply elem_of_nil in Hin. exact Hin. }
    rewrite Hfind.
    replace (negb (Z.of_nat (length (chars fence ++ chars tag)) =? -1)) with true
      by (symmetry; apply negb_true_iff, Z.eqb_neq; lia).
    assert (Hrest : slice_from (Z.of_nat (length (chars fence ++ chars tag)) + 1) raw
                    = text_of ((chars body ++ [newline]) ++ chars fence)).
    { unfold slice_from. f_equal. rewrite Hchars.
      replace (Z.to_nat (Z.of_nat (length (chars fence ++ chars tag)) + 1))
        with (length ((chars fence ++ chars tag) ++ [newline])%list)
        by (rewrite (length_app _ [newline]); cbn [length]; lia).
      change (newline :: chars body ++ [newline] ++ chars fence)%list
        with ([newline] ++ (chars body ++ [newline] ++ chars fence))%list.
      rewrite app_assoc, drop_app_length, app_assoc. reflexivity. }
    rewrite Hrest.
    assert (Hend : endswith fence (text_of ((chars body ++ [newline]) ++ chars fence)) = true).
    { unfold endswith. rewrite chars_text_of, rev_app_distr. apply is_prefix_app. }
    rewrite Hend.
    assert (Hcut : slice_to (len (text_of ((chars body ++ [newline]) ++ chars fence)) - 3)
                     (text_of ((chars body ++ [newline]) ++ chars fence))
                   = text_of (chars body ++ [newline])).
    { unfold slice_to. rewrite len_text_of, chars_text_of. f_equal.
      replace (Z.to_nat (Z.of_nat (length ((chars body ++ [newline]) ++ chars fence)) - 3))
        with (length (chars body ++ [newline])%list)
        by (rewrite (length_app _ (chars fence)); cbn [length chars fence]; cbn; lia).
      apply take_app_length. }
    rewrite Hcut, (strip_array_line body Hs He).
    destruct (not_fenced body Hs) as [_ ->].
    apply bracket_core; assumption.
Qed.

Lemma X27_extract_json_array_witness :
  _extract_json_array
    (fence ++ "json" ++ String newline "" ++ ("[{" ++ "}]") ++ String newline "" ++ fence)
  = "[{" ++ "}]".
Proof.
  refine (proj2 (proj2 (proj2 (X27_extract_json_array
            (fence ++ "json" ++ String newline "" ++ ("[{" ++ "}]")
             ++ String newline "" ++ fence))))
            "json" ("[{" ++ "}]") _ _ _ _).
  - vm_compute. intros H. repeat (apply elem_of_cons in H as [H|H]; [discriminate|]).
    apply elem_of_nil in H. exact H.
  - reflexivity.
  - reflexivity.
  - reflexivity.
Defined.

(** ** Options read from the browser tools *)

Example extract_dropdowns_example :
  _extract_dropdowns_from_mcp sample_dropdowns
  = (Some {| primary := ["Azure"; "AI"]; additional := ["Python"; "Cloud"] |},
     Some ["Developer"; "Student"]).
Proof. vm_compute. reflexivity. Qed.

Lemma all_strings_nonempty (x : option string) (obj : list (option string))
    (strs : list string) :
  all_strings (x :: obj) = Some strs -> strs <> [].
Proof.
  cbn [all_strings]. destruct x as [s|]; [|discriminate].
  destruct (all_strings obj); [|discriminate]. intros H. injection H as <-. discriminate.
Qed.

Lemma rec_nonempty :
  forall (obj : dropdown_value) (path : list string),
    Forall (fun c : candidate => snd c <> []) (rec obj path).
Proof.
  fix rec_nonempty 1.
  intros obj. destruct obj as [items|obj|]; intros path; cbn [rec].
  - revert path. induction items as [|[k v] rest IH]; intros path.
    + apply Forall_nil_2.
    + apply Forall_app. split; [apply rec_nonempty|apply IH].
  - destruct obj as [|x obj]; [apply Forall_nil_2|].
    destruct (all_strings (x :: obj)) as [strs|] eqn:E; [|apply Forall_nil_2].
    apply Forall_cons. split; [|apply Forall_nil_2].
    cbn [snd]. exact (all_strings_nonempty x obj strs E).
  - apply Forall_nil_2.
Qed.

Lemma enumerate_elem (candidates : list candidate) (c : located) :
  c ∈ enumerate candidates -> snd c ∈ candidates.
Proof.
  unfold enumerate. destruct c as [i c]. intros H. cbn [snd].
  apply elem_of_zip_r in H. exact H.
Qed.

Lemma keyword_loop (candidates : list located) :
  forall p0 a0 : option located,
    fold_left keyword_step candidates (p0, a0)
    = (match p0 with
       | Some _ => p0
       | None => find (fun c => contains "primary" (kp c)) candidates
       end,
       match a0 with
       | Some _ => a0
       | None => find (fun c => contains "additional" (kp c)) candidates
       end).
Proof.
  induction candidates as [|c rest IH]; intros p0 a0; cbn [fold_left find].
  - destruct p0, a0; reflexivity.
  - unfold keyword_step at 2. rewrite IH.
    destruct p0, a0, (contains "primary" (kp c)), (contains "additional" (kp c)); reflexivity.
Qed.

Lemma is_prefix_app_l (p q l : list ascii) : is_prefix (p ++ q) l = true -> is_prefix p l = true.
Proof.
  revert l. induction p as [|a p IH]; intros l; cbn [app is_prefix]; [reflexivity|].
  destruct l as [|b l]; [discriminate|].
  intros H. apply andb_true_iff in H as [-> H]. apply IH. exact H.
Qed.

Lemma is_infix_app_l (p q l : list ascii) : is_infix (p ++ q) l = true -> is_infix p l = true.
Proof.
  induction l as [|b l IH]; cbn [is_infix]; intros H; apply orb_true_iff in H as [H|H].
  - rewrite (is_prefix_app_l p q [] H). reflexivity.
  - discriminate.
  - rewrite (is_prefix_app_l p q (b :: l) H). reflexivity.
  - rewrite (IH H). apply orb_true_r.
Qed.

Lemma tech_subsumes (s : string) :
  contains "technology" s || contains "tech" s = contains "tech" s.
Proof.
  destruct (contains "technology" s) eqn:E; [|reflexivity]. cbn [orb]. symmetry.
  unfold contains in *. change (chars "technology") with (chars "tech" ++ chars "nology")%list in E.
  exact (is_infix_app_l _ _ _ E).
Qed.

Lemma fallback_loop_some (ta_choice : option located) (candidates : list located)
    (p : located) :
  forall a0 : option located,
    fold_left (fallback_step ta_choice) candidates (Some p, a0)
    = (Some p,
       match a0 with
       | Some _ => a0
       | None =>
           find (fun c => about_tech ta_choice c && negb (same_list c (Some p))) candidates
       end).
Proof.
  induction candidates as [|c rest IH]; intros a0; cbn [fold_left find].
  - destruct a0; reflexivity.
  - unfold fallback_step at 2, about_tech. rewrite tech_subsumes.
    destruct (same_list c ta_choice); cbn [negb andb]; [apply IH|].
    destruct (contains "tech" (kp c)); cbn [andb]; [|apply IH].
    destruct a0 as [a|]; cbn [is_none andb]; [apply IH|].
    destruct (same_list c (Some p)); cbn [negb]; rewrite IH; reflexivity.
Qed.

Lemma fallback_loop_none (ta_choice : option located) (candidates : list located) :
  forall a0 : option located,
    fold_left (fallback_step ta_choice) candidates (None, a0)
    = match find (about_tech ta_choice) candidates with
      | None => (None, a0)
      | Some p =>
          (Some p,
           match a0 with
           | Some _ => a0
           | None =>
               find (fun c => about_tech ta_choice c && negb (same_list c (Some p))) candidates
           end)
      end.
Proof.
  induction candidates as [|c rest IH]; intros a0; cbn [fold_left find]; [reflexivity|].
  unfold fallback_step at 2, about_tech at 1 3. rewrite tech_subsumes.
  destruct (same_list c ta_choice); cbn [negb andb].
  - rewrite IH. destruct (find (about_tech ta_choice) rest); reflexivity.
  - destruct (contains "tech" (kp c)); cbn [andb].
    + rewrite fallback_loop_some. cbn [same_list]. rewrite Nat.eqb_refl. reflexivity.
    + rewrite IH. destruct (find (about_tech ta_choice) rest); reflexivity.
Qed.

Lemma choose_audience_find (candidates : list located) :
  choose_audience candidates = find audience_hit candidates.
Proof.
  induction candidates as [|c rest IH]; cbn [choose_audience find]; [reflexivity|].
  rewrite IH. reflexivity.
Qed.

Lemma find_same (f g : located -> bool) (candidates : list located) :
  (forall c : located, f c = g c) -> find f candidates = find g candidates.
Proof.
  intros H. induction candidates as [|c rest IH]; cbn [find]; [reflexivity|].
  rewrite H, IH. reflexivity.
Qed.

Lemma find_elem (f : located -> bool) (candidates : list located) (c : located) :
  find f candidates = Some c -> c ∈ candidates /\ f c = true.
Proof.
  intros H. apply find_some in H as [Hin Hf]. split; [apply list_elem_of_In; exact Hin|exact Hf].
Qed.

(** X28: [_extract_dropdowns_from_mcp] picks, among the non-empty lists
    of strings of the answer, taken in iteration order: as audience list
    the first one that holds a known audience; as primary list the first
    one whose path mentions "primary", and only when there is none the
    first one, other than the audience list, whose path mentions "tech";
    as additional list the first one whose path mentions "additional",
    and only when there is none the first one, other than the audience
    list and the primary list, whose path mentions "tech".  No technology
    options are returned exactly when neither list is found, and every
    list returned is one of the lists of the answer. *)
Theorem X28_extract_dropdowns (items : list (string * dropdown_value)) :
  let candidates := enumerate (rec (DDict items) []) in
  let ta_choice := find audience_hit candidates in
  let p_choice :=
    match find (fun c => contains "primary" (kp c)) candidates with
    | Some c => Some c
    | None => find (about_tech ta_choice) candidates
    end in
  let a_choice :=
    match find (fun c => contains "additional" (kp c)) candidates with
    | Some c => Some c
    | None => find (fun c => about_tech ta_choice c && negb (same_list c p_choice)) candidates
    end in
  _extract_dropdowns_from_mcp (DDict items)
  = (if is_none p_choice && is_none a_choice then None
     else Some {| primary := list_or_empty p_choice; additional := list_or_empty a_choice |},
     option_map (fun c => snd (snd c)) ta_choice) /\
  (forall c : located,
      p_choice = Some c \/ a_choice = Some c \/ ta_choice = Some c ->
      snd c ∈ rec (DDict items) [] /\ snd (snd c) <> []).
Proof.
  intros candidates ta_choice p_choice a_choice.
  assert (Hcand : forall c : located,
             c ∈ candidates -> snd c ∈ rec (DDict items) [] /\ snd (snd c) <> []).
  { intros c Hc. apply enumerate_elem in Hc. split; [exact Hc|].
    pose proof (rec_nonempty (DDict items) []) as Hall. rewrite Forall_forall in Hall.
    apply Hall. exact Hc. }
  assert (Hsel : forall c : located,
             p_choice = Some c \/ a_choice = Some c \/ ta_choice = Some c -> c ∈ candidates).
  { intros c [H|[H|H]].
    - subst p_choice. destruct (find (fun c0 => contains "primary" (kp c0)) candidates) eqn:E.
      + injection H as <-. apply find_elem in E. apply E.
      + apply find_elem in H. apply H.
    - subst a_choice. destruct (find (fun c0 => contains "additional" (kp c0)) candidates) eqn:E.
      + injection H as <-. apply find_elem in E. apply E.
      + apply find_elem in H. apply H.
    - apply find_elem in H. apply H. }
  split; [|intros c H; apply Hcand, Hsel, H].
  assert (Htruthy : forall o : option located,
             (forall c, o = Some c -> c ∈ candidates) -> list_truthy o = negb (is_none o)).
  { intros [c|] Ho; [|reflexivity]. unfold list_truthy. cbn [list_or_empty is_none negb].
    destruct (Hcand c (Ho c eq_refl)) as [_ Hne]. destruct (snd (snd c)); congruence. }
  assert (Hchoices : tech_choices candidates ta_choice = (p_choice, a_choice)).
  { unfold tech_choices. rewrite keyword_loop. subst p_choice a_choice.
    destruct (find (fun c => contains "primary" (kp c)) candidates) as [p|] eqn:Ep;
      destruct (find (fun c => contains "additional" (kp c)) candidates) as [a|] eqn:Ea;
      cbn [is_none orb].
    - reflexivity.
    - rewrite fallback_loop_some. reflexivity.
    - rewrite fallback_loop_none. destruct (find (about_tech ta_choice) candidates); reflexivity.
    - rewrite fallback_loop_none.
      destruct (find (about_tech ta_choice) candidates) as [p|] eqn:Et; [reflexivity|].
      f_equal. symmetry. rewrite (find_same _ (about_tech ta_choice)); [exact Et|].
      intros c. cbn [same_list negb]. apply andb_true_r. }
  unfold _extract_dropdowns_from_mcp. fold candidates.
  rewrite choose_audience_find. fold ta_choice. rewrite Hchoices.
  rewrite (Htruthy p_choice) by (intros c H; apply Hsel; left; exact H).
  rewrite (Htruthy a_choice) by (intros c H; apply Hsel; right; left; exact H).
  destruct (is_none p_choice), (is_none a_choice); reflexivity.
Qed.

Lemma X28_extract_dropdowns_witness :
  snd (1%nat, (["form"; "Primary Technology"], ["Azure"; "AI"])) ∈ rec (DDict sample_items) [] /\
  snd (snd (1%nat, (["form"; "Primary Technology"], ["Azure"; "AI"]))) <> [].
Proof.
  refine (proj2 (X28_extract_dropdowns sample_items)
            (1%nat, (["form"; "Primary Technology"], ["Azure"; "AI"])) _).
  left. vm_compute. reflexivity.
Defined.

(** ** The run over the batches *)

Lemma submit_with_retries_settled (env : environment) (remaining : nat) :
  forall (retry : Z) (a : agent) (σ : gmap nat pydict) (reviewed : nat) (w : world),
    (0 < remaining)%nat ->
    retry + Z.of_nat remaining = max_activity_retries ->
    fst (fst (fst (submit_with_retries env remaining retry a σ reviewed w))) <> Unsettled.
Proof.
  induction remaining as [|r IH]; intros retry a σ reviewed w Hpos Hsum; [lia|].
  cbn [submit_with_retries].
  destruct (submit_activity env a σ reviewed w) as [[[[content|msg] a1] σ1] w1];
    [cbn; discriminate|].
  destruct (retry <? max_activity_retries - 1) eqn:E; [|cbn; discriminate].
  apply Z.ltb_lt in E.
  assert (Hr : (0 < r)%nat) by (unfold max_activity_retries in *; lia).
  assert (Hs : retry + 1 + Z.of_nat r = max_activity_retries) by lia.
  destruct (mentions_snapshot msg); [apply IH; assumption|].
  destruct (is_rate_limit msg); [|apply IH; assumption].
  destruct (call_backoff env a1 w1) as [[a2 backoff] w2]. apply IH; assumption.
Qed.

Lemma process_record_settled (env : environment) (a : agent) (σ : gmap nat pydict)
    (reviewed : nat) (w : world) :
  fst (fst (fst (process_record env a σ reviewed w))) = Succeeded \/
  fst (fst (fst (process_record env a σ reviewed w))) = MarkedFailed.
Proof.
  pose proof (submit_with_retries_settled env (Z.to_nat max_activity_retries) 0 a σ reviewed w)
    as H.
  unfold process_record.
  destruct (fst (fst (fst (submit_with_retries env (Z.to_nat max_activity_retries) 0 a σ
                             reviewed w)))); [left; reflexivity|right; reflexivity|].
  exfalso. apply H; [vm_compute; lia|reflexivity|reflexivity].
Qed.

Lemma process_batch_spec (env : environment) (batch : list pydict) :
  forall (a : agent) (σ : gmap nat pydict) (w : world),
    let '(statuses, _, _, w') := process_batch env a σ w batch in
    length statuses = length batch /\
    Forall (fun status => status = Succeeded \/ status = MarkedFailed) statuses /\
    (invocations w <= invocations w' <= invocations w + 9 * length batch)%nat.
Proof.
  induction batch as [|activity rest IH]; intros a σ w; cbn [process_batch].
  - split; [reflexivity|]. split; [apply Forall_nil_2|cbn; lia].
  - unfold interactive_review.
    pose proof (process_record_settled env a (<[fresh_loc σ := activity]> σ) (fresh_loc σ) w)
      as Hst.
    pose proof (submit_with_retries_invocations env (Z.to_nat max_activity_retries) 0 a
                  (<[fresh_loc σ := activity]> σ) (fresh_loc σ) w) as Hinv.
    fold (process_record env a (<[fresh_loc σ := activity]> σ) (fresh_loc σ) w) in Hinv.
    destruct (process_record env a (<[fresh_loc σ := activity]> σ) (fresh_loc σ) w)
      as [[[status a1] σ2] w1].
    cbn [fst snd] in Hst, Hinv. change (Z.to_nat max_activity_retries) with 3%nat in Hinv.
    specialize (IH a1 σ2 w1).
    destruct (process_batch env a1 σ2 w1 rest) as [[[statuses a2] σ3] w2].
    destruct IH as (Hl & Hall & Hi). cbn [length].
    split; [lia|]. split; [apply Forall_cons; split; assumption|lia].
Qed.

Lemma process_batch_app (env : environment) (batch : list pydict) :
  forall (a : agent) (σ : gmap nat pydict) (w : world) (rest : list pydict),
    process_batch env a σ w (batch ++ rest)%list
    = (let '(statuses, a1, σ1, w1) := process_batch env a σ w batch in
       let '(statuses', a2, σ2, w2) := process_batch env a1 σ1 w1 rest in
       ((statuses ++ statuses')%list, a2, σ2, w2)).
Proof.
  induction batch as [|activity more IH]; intros a σ w rest; cbn [process_batch app].
  - destruct (process_batch env a σ w rest) as [[[statuses a1] σ1] w1]. reflexivity.
  - destruct (interactive_review σ activity) as [reviewed σ1].
    destruct (process_record env a σ1 reviewed w) as [[[status a1] σ2] w1].
    rewrite IH.
    destruct (process_batch env a1 σ2 w1 more) as [[[statuses a2] σ3] w2].
    destruct (process_batch env a2 σ3 w2 rest) as [[[statuses' a3] σ4] w3].
    reflexivity.
Qed.

Lemma process_batches_concat (env : environment) (batches : list (list pydict)) :
  forall (a : agent) (σ : gmap nat pydict) (w : world),
    process_batches env a σ w batches = process_batch env a σ w (concat batches).
Proof.
  induction batches as [|batch rest IH]; intros a σ w; cbn [process_batches concat];
    [reflexivity|].
  rewrite process_batch_app.
  destruct (process_batch env a σ w batch) as [[[statuses a1] σ1] w1].
  rewrite IH. reflexivity.
Qed.

Lemma make_batches_concat (process_mode : string) (batch_size : Z) (valid : list pydict) :
  process_mode = "sequential" \/ 0 < batch_size ->
  exists batches : list (list pydict),
    make_batches process_mode batch_size valid = inr batches /\ concat batches = valid.
Proof.
  intros H. unfold make_batches. destruct (String.eqb process_mode "sequential") eqn:E.
  - eexists. split; [reflexivity|].
    induction valid as [|act rest IH]; [reflexivity|]. cbn. f_equal. exact IH.
  - destruct H as [->|Hpos]; [rewrite String.eqb_refl in E; discriminate|].
    unfold range_to. destruct (batch_size =? 0) eqn:E0; [apply Z.eqb_eq in E0; lia|].
    destruct (batch_size <? 0) eqn:E1; [apply Z.ltb_lt in E1; lia|].
    eexists. split; [reflexivity|].
    rewrite Nat2Z.id.
    assert (Hn : batch_size = Z.of_nat (Z.to_nat batch_size)) by lia.
    rewrite Hn. change 0 with (Z.of_nat 0). rewrite batches_concat by lia. reflexivity.
Qed.

(** X29: a run that is not interactive handles every valid record once,
    in order, and settles each as processed or failed; it invokes the
    executor at most nine times per valid record; and what it does does
    not depend on how the records are cut into batches: every positive
    [batch_size], like the sequential mode, gives the statuses, the agent,
    the store and the trace of the records handled one after the
    other. *)
Theorem X29_run_independent_of_batches (env : environment) (a : agent) (σ : gmap nat pydict)
    (w : world) (process_mode : string) (batch_size : Z) (valid : list pydict) :
  process_mode = "sequential" \/ 0 < batch_size ->
  exists batches : list (list pydict),
    make_batches process_mode batch_size valid = inr batches /\
    process_batches env a σ w batches = process_batch env a σ w valid /\
    (let '(statuses, _, _, w') := process_batches env a σ w batches in
     length statuses = length valid /\
     Forall (fun status => status = Succeeded \/ status = MarkedFailed) statuses /\
     (invocations w <= invocations w' <= invocations w + 9 * length valid)%nat).
Proof.
  intros H. destruct (make_batches_concat process_mode batch_size valid H)
    as (batches & Heq & Hcat).
  exists batches. split; [exact Heq|].
  rewrite process_batches_concat, Hcat. split; [reflexivity|].
  apply process_batch_spec.
Qed.

Lemma X29_run_independent_of_batches_witness :
  exists batches : list (list pydict),
    make_batches "batched" 2 [sample_record; sample_record; sample_record] = inr batches /\
    process_batches (failing_env "boom") (agent_init false) ∅ world_init batches
    = process_batch (failing_env "boom") (agent_init false) ∅ world_init
        [sample_record; sample_record; sample_record] /\
    (let '(statuses, _, _, w') :=
       process_batches (failing_env "boom") (agent_init false) ∅ world_init batches in
     length statuses = length [sample_record; sample_record; sample_record] /\
     Forall (fun status => status = Succeeded \/ status = MarkedFailed) statuses /\
     (invocations world_init <= invocations w'
      <= invocations world_init + 9 * length [sample_record; sample_record; sample_record])%nat).
Proof.
  apply (X29_run_independent_of_batches (failing_env "boom") (agent_init false) ∅ world_init
           "batched" 2 [sample_record; sample_record; sample_record]).
  right. lia.
Defined.


(** ** From the parsed records to the validation *)

Lemma mapping_get_notes (k : string) :
  mapping_get mapping k = "Internal Notes" -> k = "Internal Notes" \/ k = "Private Description".
Proof.
  unfold mapping. cbn [mapping_get].
  repeat match goal with
         | |- context [String.eqb ?a k] =>
             let E := fresh "E" in
             destruct (String.eqb a k) eqn:E;
             [apply String.eqb_eq in E; subst k; intros H;
              first [discriminate H | right; reflexivity]|]
         end.
  intros ->. left. reflexivity.
Qed.

Lemma dict_get_absent (d : pydict) (k : string) : k ∉ map fst d -> dict_get d k = None.
Proof.
  induction d as [|[k0 v0] r IH]; cbn [dict_get map fst]; intros Hn; [reflexivity|].
  destruct (String.eqb k0 k) eqn:E.
  - apply String.eqb_eq in E. subst k0. exfalso. apply Hn. apply list_elem_of_here.
  - apply IH. intros Hin. apply Hn. apply list_elem_of_further. exact Hin.
Qed.

Lemma last_mapped_single (d : pydict) (name k : string) :
  dict_wf d ->
  mapping_get mapping k = name ->
  (forall k' : string, k' ∈ map fst d -> mapping_get mapping k' = name -> k' = k) ->
  last_mapped d name = dict_get d k.
Proof.
  intros Hwf Hk. induction d as [|[k0 v0] r IH]; intros Hall; [reflexivity|].
  unfold dict_wf in Hwf. cbn [map fst] in Hwf. apply NoDup_cons in Hwf as [Hk0 Hwf].
  cbn [last_mapped dict_get]. rewrite IH.
  - destruct (String.eqb k0 k) eqn:E.
    + apply String.eqb_eq in E. subst k0. rewrite (dict_get_absent r k Hk0).
      rewrite Hk, String.eqb_refl. reflexivity.
    + destruct (dict_get r k); [reflexivity|].
      destruct (String.eqb (mapping_get mapping k0) name) eqn:Em; [|reflexivity].
      apply String.eqb_eq in Em. apply Hall in Em; [|apply list_elem_of_here].
      subst k0. rewrite String.eqb_refl in E. discriminate.
  - exact Hwf.
  - intros k' Hin. apply Hall. apply list_elem_of_further. exact Hin.
Qed.

Lemma last_mapped_set_other (d : pydict) (k name : string) (v : value) :
  mapping_get mapping k <> name ->
  last_mapped (dict_set d k v) name = last_mapped d name.
Proof.
  intros Hne. apply String.eqb_neq in Hne.
  induction d as [|[k0 v0] r IH]; cbn [dict_set last_mapped].
  - rewrite Hne. reflexivity.
  - destruct (String.eqb k0 k) eqn:E; cbn [last_mapped].
    + apply String.eqb_eq in E. subst k0. rewrite Hne. reflexivity.
    + rewrite IH. reflexivity.
Qed.

Lemma last_mapped_set (d : pydict) (k name : string) (v : value) :
  mapping_get mapping k = name ->
  exists x : value,
    last_mapped (dict_set d k v) name = Some x /\ (x = v \/ last_mapped d name = Some x).
Proof.
  intros Hk. induction d as [|[k0 v0] r [x [Hx Hor]]]; cbn [dict_set last_mapped].
  - rewrite Hk, String.eqb_refl. exists v. split; [reflexivity|left; reflexivity].
  - destruct (String.eqb k0 k) eqn:E; cbn [last_mapped].
    + apply String.eqb_eq in E. subst k0. rewrite Hk, String.eqb_refl.
      destruct (last_mapped r name) as [y|].
      * exists y. split; [reflexivity|right; reflexivity].
      * exists v. split; [reflexivity|left; reflexivity].
    + rewrite Hx. exists x. split; [reflexivity|].
      destruct Hor as [->|Hr]; [left; reflexivity|right; rewrite Hr; reflexivity].
Qed.

Lemma last_mapped_fresh (d : pydict) (k name : string) (v : value) :
  mapping_get mapping k = name -> k ∉ map fst d ->
  last_mapped (dict_set d k v) name = Some v.
Proof.
  intros Hk. induction d as [|[k0 v0] r IH]; cbn [dict_set last_mapped map fst]; intros Hn.
  - rewrite Hk, String.eqb_refl. reflexivity.
  - destruct (String.eqb k0 k) eqn:E.
    + apply String.eqb_eq in E. subst k0. exfalso. apply Hn. apply list_elem_of_here.
    + cbn [last_mapped]. rewrite IH; [reflexivity|].
      intros Hin. apply Hn. apply list_elem_of_further. exact Hin.
Qed.

Lemma notes_only_canonical (d : pydict) :
  "Private Description" ∉ map fst d ->
  forall k' : string,
    k' ∈ map fst d -> mapping_get mapping k' = "Internal Notes" -> k' = "Internal Notes".
Proof.
  intros Hn k' Hin Hm. apply mapping_get_notes in Hm as [->| ->]; [reflexivity|contradiction].
Qed.

Lemma notes_only_legacy (d : pydict) :
  "Internal Notes" ∉ map fst d ->
  forall k' : string,
    k' ∈ map fst d -> mapping_get mapping k' = "Internal Notes" -> k' = "Private Description".
Proof.
  intros Hn k' Hin Hm. apply mapping_get_notes in Hm as [->| ->]; [contradiction|reflexivity].
Qed.

Lemma dict_truthy_absent (d : pydict) (k : string) : k ∉ map fst d -> dict_truthy d k = false.
Proof. intros H. unfold dict_truthy. rewrite (dict_get_absent d k H). reflexivity. Qed.

Lemma dict_wf_set (d : pydict) (k : string) (v : value) : dict_wf d -> dict_wf (dict_set d k v).
Proof.
  unfold dict_wf. intros Hwf. destruct (dict_set_keys d k v) as [->|[Hn ->]]; [exact Hwf|].
  apply NoDup_app. split; [exact Hwf|]. split.
  - intros x Hx Hx'. apply list_elem_of_singleton in Hx'. subst x. contradiction.
  - apply NoDup_singleton.
Qed.

Lemma settled_after_ensure (act act' : pydict) :
  dict_wf act -> one_notes_name act -> completed act act' -> notes_settled act'.
Proof.
  intros Hwf Hone (Hn' & Hsame & Hfill). unfold notes_settled.
  destruct (decide ("Private Description" ∈ map fst act)) as [Hpd|Hpd].
  - assert (Hin : "Internal Notes" ∉ map fst act) by (intros H; apply Hone; split; assumption).
    destruct (has_notes act) eqn:Hn.
    + rewrite (Hsame eq_refl) in *.
      rewrite (last_mapped_single act "Internal Notes" "Private Description" Hwf eq_refl
                 (notes_only_legacy act Hin)).
      unfold has_notes in Hn. rewrite (dict_truthy_absent act _ Hin) in Hn. cbn [orb] in Hn.
      unfold dict_truthy in Hn.
      destruct (dict_get act "Private Description") as [v|]; [|discriminate].
      exists v. split; [reflexivity|exact Hn].
    + destruct (Hfill eq_refl) as (text & -> & _ & Hl).
      rewrite (last_mapped_fresh act "Internal Notes" "Internal Notes" _ eq_refl Hin).
      eexists. split; [reflexivity|]. cbn [truthy].
      apply negb_true_iff, String.eqb_neq, len_pos_nonempty. lia.
  - assert (Hwf' : dict_wf act') .
    { destruct (has_notes act); [rewrite (Hsame eq_refl); exact Hwf|].
      destruct (Hfill eq_refl) as (text & -> & _). apply dict_wf_set. exact Hwf. }
    assert (Hpd' : "Private Description" ∉ map fst act').
    { destruct (has_notes act); [rewrite (Hsame eq_refl); exact Hpd|].
      destruct (Hfill eq_refl) as (text & -> & _).
      destruct (dict_set_keys act "Internal Notes" (VStr text)) as [->|[_ ->]]; [exact Hpd|].
      intros H. apply elem_of_app in H as [H|H]; [contradiction|].
      apply list_elem_of_singleton in H. discriminate. }
    rewrite (last_mapped_single act' "Internal Notes" "Internal Notes" Hwf' eq_refl
               (notes_only_canonical act' Hpd')).
    unfold has_notes in Hn'. rewrite (dict_truthy_absent act' _ Hpd'), orb_false_r in Hn'.
    unfold dict_truthy in Hn'.
    destruct (dict_get act' "Internal Notes") as [v|]; [|discriminate].
    exists v. split; [reflexivity|exact Hn'].
Qed.

Lemma settled_set_description (act : pydict) (v : value) :
  notes_settled act -> notes_settled (dict_set act "Description" v).
Proof.
  unfold notes_settled. rewrite last_mapped_set_other by discriminate. auto.
Qed.

Lemma settled_set_notes (act : pydict) (text : string) :
  1 <= len text -> notes_settled act ->
  notes_settled (dict_set act "Internal Notes" (VStr text)).
Proof.
  intros Hl (v & Hv & Ht). unfold notes_settled.
  destruct (last_mapped_set act "Internal Notes" "Internal Notes" (VStr text) eq_refl)
    as (x & Hx & [->|Hor]).
  - exists (VStr text). split; [exact Hx|]. cbn [truthy].
    apply negb_true_iff, String.eqb_neq, len_pos_nonempty. exact Hl.
  - exists x. split; [exact Hx|]. rewrite Hv in Hor. injection Hor as <-. exact Ht.
Qed.

Section PipelineProperties.

Variable sha256_hex : string -> string.
Variable generator : nat -> generation.

Lemma settled_after_description (st : enrich_state) (act : pydict) :
  notes_settled act -> notes_settled (snd (enforce_description sha256_hex generator st act)).
Proof.
  intros H. unfold enforce_description.
  destruct_matches; cbn [snd]; try exact H; apply settled_set_description; exact H.
Qed.

Lemma settled_after_notes (st : enrich_state) (act : pydict) :
  notes_settled act -> notes_settled (snd (enforce_notes sha256_hex generator st act)).
Proof.
  intros H. unfold enforce_notes, rewrite_notes.
  destruct_matches; cbn [snd]; try exact H;
    (apply settled_set_notes; [|exact H]);
    match goal with
    | |- 1 <= len (_sanitize_private_description ?t 850) =>
        destruct (sanitize_private_description_shape t 850) as [_ Hl]; lia
    end.
Qed.

Lemma settled_after_limits (activities : list pydict) :
  Forall notes_settled activities ->
  forall st : enrich_state,
    Forall notes_settled (snd (enforce_char_limits sha256_hex generator st activities)).
Proof.
  induction 1 as [|act rest Hact _ IH]; intros st; cbn [enforce_char_limits].
  - apply Forall_nil_2.
  - pose proof (settled_after_description st act Hact) as H1.
    destruct (enforce_description sha256_hex generator st act) as [st1 act1].
    cbn [snd] in H1.
    pose proof (settled_after_notes st1 act1 H1) as H2.
    destruct (enforce_notes sha256_hex generator st1 act1) as [st2 act2].
    cbn [snd] in H2. specialize (IH st2).
    destruct (enforce_char_limits sha256_hex generator st2 rest) as [st3 rest'].
    cbn [snd] in *. apply Forall_cons. split; assumption.
Qed.

Lemma settled_not_missing (act : pydict) :
  notes_settled act -> "Internal Notes" ∉ snd (validate_activity_data act).
Proof.
  intros (v & Hv & Ht). unfold validate_activity_data. cbn [snd]. intros Hin.
  apply list_elem_of_filter in Hin as [Hf _].
  unfold dict_truthy in Hf. rewrite normalize_get_other in Hf by discriminate.
  rewrite Hv, Ht in Hf. exact Hf.
Qed.

(** X30: from the parsed records to the validation.  When every record
    without notes can be hashed and no record carries its notes under
    both names, the two stages that precede the validation raise nothing
    and keep the number of records, and the validation never reports
    Internal Notes missing: every record reaches it with notes, written
    by the author, taken from the cache or generated. *)
Theorem X30_notes_never_missing (st : enrich_state) (activities : list pydict) :
  Forall (fun act => (has_notes act = true \/ hashable act = true) /\
                     dict_wf act /\ one_notes_name act) activities ->
  exists (st1 : enrich_state) (noted : list pydict),
    ensure_private_descriptions sha256_hex generator st activities = (st1, noted, None) /\
    let result := snd (enforce_char_limits sha256_hex generator st1 noted) in
    length result = length activities /\
    Forall (fun act => "Internal Notes" ∉ snd (validate_activity_data act)) result.
Proof.
  intros Hall.
  assert (Hhash : Forall (fun act => has_notes act = true \/ hashable act = true) activities).
  { eapply Forall_impl; [exact Hall|]. intros act H. apply H. }
  destruct (ensure_loop_completes sha256_hex generator activities Hhash st)
    as (st1 & noted & Heq & Hdone & _ & _).
  exists st1, noted. split; [exact Heq|]. cbn zeta.
  destruct (enforce_char_limits_length sha256_hex generator noted st1) as [Hlen _].
  split; [rewrite Hlen; symmetry; eapply Forall2_length; exact Hdone|].
  assert (Hsettled : Forall notes_settled noted).
  { clear Heq Hlen Hhash. induction Hdone as [|act act' rest rest' Hc _ IH].
    - apply Forall_nil_2.
    - apply Forall_cons in Hall as [(_ & Hwf & Hone) Hall].
      apply Forall_cons. split; [|apply IH; exact Hall].
      exact (settled_after_ensure act act' Hwf Hone Hc). }
  eapply Forall_impl; [apply settled_after_limits; exact Hsettled|].
  intros act. apply settled_not_missing.
Qed.

End PipelineProperties.

Lemma X30_notes_never_missing_witness :
  exists (st1 : enrich_state) (noted : list pydict),
    ensure_private_descriptions plain_digest (fun _ => ProviderError) empty_enrich_state
      [bare_record; legacy_record] = (st1, noted, None) /\
    let result := snd (enforce_char_limits plain_digest (fun _ => ProviderError) st1 noted) in
    length result = length [bare_record; legacy_record] /\
    Forall (fun act => "Internal Notes" ∉ snd (validate_activity_data act)) result.
Proof.
  apply (X30_notes_never_missing plain_digest (fun _ => ProviderError) empty_enrich_state
           [bare_record; legacy_record]).
  apply Forall_cons. split.
  - split; [right; reflexivity|]. split.
    + unfold dict_wf. apply (bool_decide_unpack _). vm_compute. exact I.
    + unfold one_notes_name. apply (bool_decide_unpack _). vm_compute. exact I.
  - apply Forall_cons. split; [|apply Forall_nil_2].
    split; [right; reflexivity|]. split.
    + unfold dict_wf. apply (bool_decide_unpack _). vm_compute. exact I.
    + unfold one_notes_name. apply (bool_decide_unpack _). vm_compute. exact I.
Defined.
